(** * deepcopy: a shallow embedding of the reflective deep-copy library

    The development follows [deepcopy.go]:
    - [reflect]: type descriptors ([reflect.Type]) and their identity;
    - [Analysis]: [TypeAnalysisResult], [analyzeTypeRecursive] and the
      per-manager cache ([getOrAnalyzeType], [AnalyzeValue]);
    - [Value]: run-time values, the heap they point into, zero values;
    - [Engine]: [hasDeepCopyMethod], [copyRecursive],
      [copyRecursiveWithCache];
    - [Facade]: [CopyValue], [Copy], [CopyWithKey] and the call-site cache.

    Modelling conventions.  Pointers, slices and maps hold the address of a
    whole heap cell (no interior pointers).  Every struct type is named, and
    a recursive struct type refers to itself by [TNamed] under its own
    body.  Scalars carry their bits as an integer or a string; no
    arithmetic is performed on them by the library. *)

From stdpp Require Import gmap strings list fin_maps pretty.
From Stdlib Require Import ZArith Lia.

Set Default Proof Using "Type".
Set Warnings "-register-all,-clear-no-such-hyp".

(* ===================================================================== *)
(** ** Type descriptors *)
(* ===================================================================== *)

Module reflect.

(** The scalar kinds of the first case of the switch in
    [analyzeTypeRecursive]. *)
Inductive BasicKind :=
  | Bool | Int | Int8 | Int16 | Int32 | Int64
  | Uint | Uint8 | Uint16 | Uint32 | Uint64 | Uintptr
  | Float32 | Float64 | Complex64 | Complex128 | String.

Record StructField (T : Type) := mkField {
  Name : string;
  PkgPath : string;      (* empty for an exported field *)
  Type_ : T
}.
Arguments mkField {T} _ _ _.
Arguments Name {T} _.
Arguments PkgPath {T} _.
Arguments Type_ {T} _.

Inductive rtype :=
  | TBasic (k : BasicKind)
  | TArray (n : nat) (elem : rtype)
  | TStruct (name : string) (fields : list (StructField rtype))
  | TNamed (name : string)
  | TPtr (elem : rtype)
  | TSlice (elem : rtype)
  | TMap (key elem : rtype)
  | TChan (elem : rtype)
  | TFunc (sig : string)
  | TInterface (name : string)
  | TUnsafePointer.

(** Identity of a type descriptor: a struct type is identified by its
    name, every other type by its structure. *)
Inductive tkey :=
  | KBasic (k : BasicKind)
  | KArray (n : nat) (elem : tkey)
  | KNamed (name : string)
  | KPtr (elem : tkey)
  | KSlice (elem : tkey)
  | KMap (key elem : tkey)
  | KChan (elem : tkey)
  | KFunc (sig : string)
  | KInterface (name : string)
  | KUnsafePointer.

Fixpoint tid (t : rtype) : tkey :=
  match t with
  | TBasic k => KBasic k
  | TArray n e => KArray n (tid e)
  | TStruct name _ => KNamed name
  | TNamed name => KNamed name
  | TPtr e => KPtr (tid e)
  | TSlice e => KSlice (tid e)
  | TMap k e => KMap (tid k) (tid e)
  | TChan e => KChan (tid e)
  | TFunc s => KFunc s
  | TInterface n => KInterface n
  | TUnsafePointer => KUnsafePointer
  end.

#[global] Instance BasicKind_eq_dec : EqDecision BasicKind.
Proof. solve_decision. Defined.

#[global] Instance tkey_eq_dec : EqDecision tkey.
Proof. solve_decision. Defined.

Definition basic_name (k : BasicKind) : string :=
  match k with
  | Bool => "bool" | Int => "int" | Int8 => "int8" | Int16 => "int16"
  | Int32 => "int32" | Int64 => "int64" | Uint => "uint" | Uint8 => "uint8"
  | Uint16 => "uint16" | Uint32 => "uint32" | Uint64 => "uint64"
  | Uintptr => "uintptr" | Float32 => "float32" | Float64 => "float64"
  | Complex64 => "complex64" | Complex128 => "complex128"
  | String => "string"
  end.

(** [t.String()]. *)
Fixpoint type_string (t : rtype) : string :=
  match t with
  | TBasic k => basic_name k
  | TArray n e => "[" +:+ pretty n +:+ "]" +:+ type_string e
  | TStruct name _ => name
  | TNamed name => name
  | TPtr e => "*" +:+ type_string e
  | TSlice e => "[]" +:+ type_string e
  | TMap k e => "map[" +:+ type_string k +:+ "]" +:+ type_string e
  | TChan e => "chan " +:+ type_string e
  | TFunc s => s
  | TInterface n => n
  | TUnsafePointer => "unsafe.Pointer"
  end.

Definition exported (f : StructField rtype) : bool :=
  bool_decide (PkgPath f = "").

End reflect.
Import reflect.

(* ===================================================================== *)
(** ** Type analysis *)
(* ===================================================================== *)

Module Analysis.

(** [TypeAnalysisResult].  Results are heap objects in the source
    ([*TypeAnalysisResult]); they live in a store and are referred to by
    their index, so that a result still being filled in can be shared. *)
Record TypeAnalysisResult := mkResult {
  IsOnlyValues : bool;
  ContainsPtr : bool;
  ContainsSlice : bool;
  ContainsMap : bool;
  ContainsChan : bool;
  ContainsFunc : bool;
  ContainsIface : bool;
  FieldAnalysis : option (gmap string nat);   (* None is the nil map *)
  TypeName : string
}.

Definition new_result (name : string) : TypeAnalysisResult :=
  mkResult false false false false false false false None name.

Definition set_IsOnlyValues (b : bool) (r : TypeAnalysisResult) :=
  mkResult b (ContainsPtr r) (ContainsSlice r) (ContainsMap r)
    (ContainsChan r) (ContainsFunc r) (ContainsIface r) (FieldAnalysis r)
    (TypeName r).
Definition set_ContainsPtr (b : bool) (r : TypeAnalysisResult) :=
  mkResult (IsOnlyValues r) b (ContainsSlice r) (ContainsMap r)
    (ContainsChan r) (ContainsFunc r) (ContainsIface r) (FieldAnalysis r)
    (TypeName r).
Definition set_ContainsSlice (b : bool) (r : TypeAnalysisResult) :=
  mkResult (IsOnlyValues r) (ContainsPtr r) b (ContainsMap r)
    (ContainsChan r) (ContainsFunc r) (ContainsIface r) (FieldAnalysis r)
    (TypeName r).
Definition set_ContainsMap (b : bool) (r : TypeAnalysisResult) :=
  mkResult (IsOnlyValues r) (ContainsPtr r) (ContainsSlice r) b
    (ContainsChan r) (ContainsFunc r) (ContainsIface r) (FieldAnalysis r)
    (TypeName r).
Definition set_ContainsChan (b : bool) (r : TypeAnalysisResult) :=
  mkResult (IsOnlyValues r) (ContainsPtr r) (ContainsSlice r)
    (ContainsMap r) b (ContainsFunc r) (ContainsIface r) (FieldAnalysis r)
    (TypeName r).
Definition set_ContainsFunc (b : bool) (r : TypeAnalysisResult) :=
  mkResult (IsOnlyValues r) (ContainsPtr r) (ContainsSlice r)
    (ContainsMap r) (ContainsChan r) b (ContainsIface r) (FieldAnalysis r)
    (TypeName r).
Definition set_ContainsIface (b : bool) (r : TypeAnalysisResult) :=
  mkResult (IsOnlyValues r) (ContainsPtr r) (ContainsSlice r)
    (ContainsMap r) (ContainsChan r) (ContainsFunc r) b (FieldAnalysis r)
    (TypeName r).
Definition set_FieldAnalysis (m : option (gmap string nat))
    (r : TypeAnalysisResult) :=
  mkResult (IsOnlyValues r) (ContainsPtr r) (ContainsSlice r)
    (ContainsMap r) (ContainsChan r) (ContainsFunc r) (ContainsIface r) m
    (TypeName r).

(** The store of results and the [visited] map of one analysis pass. *)
Abbreviation astore := (list TypeAnalysisResult).
Abbreviation avisited := (list (tkey * nat)).

Fixpoint lookup_key (k : tkey) (m : list (tkey * nat)) : option nat :=
  match m with
  | [] => None
  | (k', p) :: m => if decide (k = k') then Some p else lookup_key k m
  end.

(** Reading a result through its pointer. *)
Definition deref (st : astore) (p : nat) : TypeAnalysisResult :=
  default (new_result "") (st !! p).

(** [result.X = ...] through the pointer [p]. *)
Definition upd (p : nat) (f : TypeAnalysisResult → TypeAnalysisResult)
    (st : astore) : astore :=
  alter f p st.

(** The body of the second loop of the [reflect.Struct] case for one
    exported field whose analysis is [q]. *)
Definition merge_field (p : nat) (fname : string) (q : nat) (st : astore)
    : astore :=
  let st := upd p (λ r, set_FieldAnalysis
              (Some (<[fname := q]> (default ∅ (FieldAnalysis r)))) r) st in
  let st := if IsOnlyValues (deref st q) then st
            else upd p (set_IsOnlyValues false) st in
  let st := if ContainsPtr (deref st q)
            then upd p (set_ContainsPtr true) st else st in
  let st := if ContainsSlice (deref st q)
            then upd p (set_ContainsSlice true) st else st in
  let st := if ContainsMap (deref st q)
            then upd p (set_ContainsMap true) st else st in
  let st := if ContainsChan (deref st q)
            then upd p (set_ContainsChan true) st else st in
  let st := if ContainsFunc (deref st q)
            then upd p (set_ContainsFunc true) st else st in
  let st := if ContainsIface (deref st q)
            then upd p (set_ContainsIface true) st else st in
  st.

(** The first loop of the [reflect.Struct] case. *)
Definition hasUnexportedFields (fs : list (StructField rtype)) : bool :=
  existsb (λ f, negb (exported f)) fs.

(** [analyzeTypeRecursive].  The result pointer, the visited map and the
    store are returned. *)
Fixpoint analyzeTypeRecursive (t : rtype) (visited : avisited)
    (st : astore) {struct t} : nat * avisited * astore :=
  match lookup_key (tid t) visited with
  | Some p => (p, visited, st)
  | None =>
    let p := length st in
    let st := st ++ [new_result (type_string t)] in
    let visited := (tid t, p) :: visited in
    match t with
    | TBasic _ => (p, visited, upd p (set_IsOnlyValues true) st)
    | TArray _ e =>
        let '(q, visited, st) := analyzeTypeRecursive e visited st in
        let st := upd p (set_IsOnlyValues (IsOnlyValues (deref st q))) st in
        let st := upd p (set_ContainsPtr (ContainsPtr (deref st q))) st in
        let st := upd p (set_ContainsSlice (ContainsSlice (deref st q))) st in
        let st := upd p (set_ContainsMap (ContainsMap (deref st q))) st in
        let st := upd p (set_ContainsChan (ContainsChan (deref st q))) st in
        let st := upd p (set_ContainsFunc (ContainsFunc (deref st q))) st in
        let st := upd p (set_ContainsIface (ContainsIface (deref st q))) st in
        (p, visited, st)
    | TStruct _ fs =>
        let st := upd p (set_IsOnlyValues true) st in
        let st := upd p (set_FieldAnalysis (Some ∅)) st in
        let st := if hasUnexportedFields fs
                  then upd p (set_IsOnlyValues false) st else st in
        let fix fields (fs : list (StructField rtype)) (visited : avisited)
            (st : astore) {struct fs} : avisited * astore :=
          match fs with
          | [] => (visited, st)
          | f :: fs =>
              if exported f then
                let '(q, visited, st) :=
                  analyzeTypeRecursive (Type_ f) visited st in
                fields fs visited (merge_field p (Name f) q st)
              else fields fs visited st
          end in
        let '(visited, st) := fields fs visited st in
        (p, visited, st)
    | TPtr e =>
        let st := upd p (set_IsOnlyValues false) st in
        let st := upd p (set_ContainsPtr true) st in
        let '(q, visited, st) := analyzeTypeRecursive e visited st in
        let st := upd p (set_ContainsSlice (ContainsSlice (deref st q))) st in
        let st := upd p (set_ContainsMap (ContainsMap (deref st q))) st in
        let st := upd p (set_ContainsChan (ContainsChan (deref st q))) st in
        let st := upd p (set_ContainsFunc (ContainsFunc (deref st q))) st in
        let st := upd p (set_ContainsIface (ContainsIface (deref st q))) st in
        (p, visited, st)
    | TSlice e =>
        let st := upd p (set_IsOnlyValues false) st in
        let st := upd p (set_ContainsSlice true) st in
        let '(q, visited, st) := analyzeTypeRecursive e visited st in
        let st := upd p (set_ContainsPtr (ContainsPtr (deref st q))) st in
        let st := upd p (set_ContainsMap (ContainsMap (deref st q))) st in
        let st := upd p (set_ContainsChan (ContainsChan (deref st q))) st in
        let st := upd p (set_ContainsFunc (ContainsFunc (deref st q))) st in
        let st := upd p (set_ContainsIface (ContainsIface (deref st q))) st in
        (p, visited, st)
    | TMap k e =>
        let st := upd p (set_IsOnlyValues false) st in
        let st := upd p (set_ContainsMap true) st in
        let '(qk, visited, st) := analyzeTypeRecursive k visited st in
        let '(qv, visited, st) := analyzeTypeRecursive e visited st in
        let st := upd p (set_ContainsPtr
                    (ContainsPtr (deref st qk) || ContainsPtr (deref st qv))) st in
        let st := upd p (set_ContainsSlice
                    (ContainsSlice (deref st qk) || ContainsSlice (deref st qv))) st in
        let st := upd p (set_ContainsChan
                    (ContainsChan (deref st qk) || ContainsChan (deref st qv))) st in
        let st := upd p (set_ContainsFunc
                    (ContainsFunc (deref st qk) || ContainsFunc (deref st qv))) st in
        let st := upd p (set_ContainsIface
                    (ContainsIface (deref st qk) || ContainsIface (deref st qv))) st in
        (p, visited, st)
    | TChan _ =>
        let st := upd p (set_IsOnlyValues false) st in
        (p, visited, upd p (set_ContainsChan true) st)
    | TFunc _ =>
        let st := upd p (set_IsOnlyValues false) st in
        (p, visited, upd p (set_ContainsFunc true) st)
    | TInterface _ =>
        let st := upd p (set_IsOnlyValues false) st in
        (p, visited, upd p (set_ContainsIface true) st)
    | TNamed _ | TUnsafePointer =>
        (p, visited, upd p (set_IsOnlyValues false) st)
    end
  end.

(** [DeepCopyManager]: the analysis cache, with the store its result
    pointers refer to. *)
Record DeepCopyManager := mkManager {
  analysisCache : list (tkey * nat);
  results : astore
}.

Definition NewDeepCopyManager : DeepCopyManager := mkManager [] [].

(** [getOrAnalyzeType]. *)
Definition getOrAnalyzeType (m : DeepCopyManager) (t : rtype)
    : nat * DeepCopyManager :=
  match lookup_key (tid t) (analysisCache m) with
  | Some cached => (cached, m)
  | None =>
      let '(result, _, st) := analyzeTypeRecursive t [] (results m) in
      (result, mkManager ((tid t, result) :: analysisCache m) st)
  end.

(** [AnalyzeValue]; the argument is [reflect.TypeOf(src)], [None] for the
    nil interface. *)
Definition AnalyzeValue (m : DeepCopyManager) (t : option rtype)
    : nat * DeepCopyManager :=
  match t with
  | None =>
      (length (results m),
       mkManager (analysisCache m)
         (results m ++ [set_IsOnlyValues true (new_result "nil")]))
  | Some t => getOrAnalyzeType m t
  end.

End Analysis.
Import Analysis.

(* ===================================================================== *)
(** ** Run-time values and the heap *)
(* ===================================================================== *)

Module Value.

Abbreviation addr := nat.

Inductive datum :=
  | DBool (b : bool)
  | DNum (z : Z)          (* integers; floats and complex as their bits *)
  | DStr (s : string).

Record Field (V : Type) := mkFieldVal {
  FName : string;
  FPkgPath : string;
  FValue : V
}.
Arguments mkFieldVal {V} _ _ _.
Arguments FName {V} _.
Arguments FPkgPath {V} _.
Arguments FValue {V} _.

(** A slice header: backing array, offset of the first element in it,
    length and capacity. *)
Record SliceHeader := mkSlice {
  Data : addr;
  Off : nat;
  Len : nat;
  Cap : nat
}.

(** Run-time values.  A pointer, a map, a channel and an unsafe pointer
    hold the address of a cell, a slice the address of its backing
    array, a function value the address of its closure; [None] is nil. *)
Inductive value :=
  | VBasic (k : BasicKind) (d : datum)
  | VPtr (elem : rtype) (p : option addr)
  | VIface (ity : string) (dyn : option value)
  | VStruct (name : string) (fields : list (Field value))
  | VSlice (elem : rtype) (s : option SliceHeader)
  | VMap (key elem : rtype) (m : option addr)
  | VArray (elem : rtype) (vs : list value)
  | VChan (elem : rtype) (c : option addr)
  | VFunc (sig : string) (f : option nat)
  | VUnsafePointer (p : option addr).

(** What an address holds: the referent of a pointer, the backing array
    of a slice, the entries of a map (in iteration order), a channel. *)
Inductive cell :=
  | CVal (v : value)
  | CArr (vs : list value)
  | CMap (kvs : list (value * value))
  | CChan (queue : list value).

Abbreviation heap := (list cell).

Definition fexported (f : Field value) : bool :=
  bool_decide (FPkgPath f = "").

(** [v.Type()]. *)
Fixpoint type_of (v : value) : rtype :=
  match v with
  | VBasic k _ => TBasic k
  | VPtr e _ => TPtr e
  | VIface n _ => TInterface n
  | VStruct n fs =>
      TStruct n (map (λ f, mkField (FName f) (FPkgPath f) (type_of (FValue f))) fs)
  | VSlice e _ => TSlice e
  | VMap k e _ => TMap k e
  | VArray e vs => TArray (length vs) e
  | VChan e _ => TChan e
  | VFunc s _ => TFunc s
  | VUnsafePointer _ => TUnsafePointer
  end.

Definition zero_datum (k : BasicKind) : datum :=
  match k with
  | Bool => DBool false
  | String => DStr ""
  | _ => DNum 0
  end.

(** [reflect.Zero(t)], the content of [reflect.New(t).Elem()]. *)
Fixpoint zero (t : rtype) : value :=
  match t with
  | TBasic k => VBasic k (zero_datum k)
  | TArray n e => VArray e (replicate n (zero e))
  | TStruct n fs =>
      VStruct n (map (λ f, mkFieldVal (Name f) (PkgPath f) (zero (Type_ f))) fs)
  | TNamed n => VStruct n []
  | TPtr e => VPtr e None
  | TSlice e => VSlice e None
  | TMap k e => VMap k e None
  | TChan e => VChan e None
  | TFunc s => VFunc s None
  | TInterface n => VIface n None
  | TUnsafePointer => VUnsafePointer None
  end.

Definition datum_eqb (a b : datum) : bool :=
  match a, b with
  | DBool x, DBool y => bool_decide (x = y)
  | DNum x, DNum y => bool_decide (x = y)
  | DStr x, DStr y => bool_decide (x = y)
  | _, _ => false
  end.

(** Equality of map keys ([==] of the language): pointers and channels
    by address, interfaces by dynamic type and value, structs and arrays
    component-wise.  Slices, maps and functions are not comparable. *)
Fixpoint key_eqb (a b : value) {struct a} : bool :=
  match a, b with
  | VBasic _ x, VBasic _ y => datum_eqb x y
  | VPtr _ p, VPtr _ q => bool_decide (p = q)
  | VChan _ p, VChan _ q => bool_decide (p = q)
  | VUnsafePointer p, VUnsafePointer q => bool_decide (p = q)
  | VIface _ None, VIface _ None => true
  | VIface _ (Some x), VIface _ (Some y) =>
      bool_decide (tid (type_of x) = tid (type_of y)) && key_eqb x y
  | VStruct _ fs, VStruct _ gs =>
      (fix all (fs gs : list (Field value)) {struct fs} : bool :=
         match fs, gs with
         | [], [] => true
         | f :: fs, g :: gs => key_eqb (FValue f) (FValue g) && all fs gs
         | _, _ => false
         end) fs gs
  | VArray _ xs, VArray _ ys =>
      (fix all (xs ys : list value) {struct xs} : bool :=
         match xs, ys with
         | [], [] => true
         | x :: xs, y :: ys => key_eqb x y && all xs ys
         | _, _ => false
         end) xs ys
  | _, _ => false
  end.

(** [m[k] = v] on the entries of a map. *)
Fixpoint map_set (k v : value) (kvs : list (value * value))
    : list (value * value) :=
  match kvs with
  | [] => [(k, v)]
  | (k', v') :: kvs =>
      if key_eqb k k' then (k, v) :: kvs else (k', v') :: map_set k v kvs
  end.

(** [cpy.Set(v)]: fails (panics) unless [v] is assignable to the slot;
    a value stored in an interface slot is boxed, a pointer takes the
    static type of the slot. *)
Definition Set_ (cpy v : value) : option value :=
  match cpy, v with
  | VIface n _, VIface _ d => Some (VIface n d)
  | VIface n _, _ => Some (VIface n (Some v))
  | VPtr e _, VPtr e' p =>
      if decide (tid e = tid e') then Some (VPtr e p) else None
  | _, _ =>
      if decide (tid (type_of cpy) = tid (type_of v)) then Some v else None
  end.

(** A method found by [MethodByName]: its arity (receiver included), its
    number of results, and its body, which reads the heap and returns its
    result with the cells it allocates (they are appended to the heap). *)
Record Method := mkMethod {
  NumIn : nat;
  NumOut : nat;
  Func : heap → value → value * list cell
}.

End Value.
Import Value.

(* ===================================================================== *)
(** ** The traversal engine *)
(* ===================================================================== *)

Module Engine.

(** A call either returns, panics, or exhausts the recursion budget the
    model gives it (the source recurses without bound). *)
Inductive outcome (A : Type) :=
  | Done (a : A)
  | Panic
  | OutOfFuel.
Arguments Done {A} _.
Arguments Panic {A}.
Arguments OutOfFuel {A}.

(** The state threaded through one copy: the heap and the visited map
    ([map[uintptr]reflect.Value]). *)
Record cstate := mkState {
  mem : heap;
  visited : gmap addr value
}.

Definition M (A : Type) : Type := cstate → outcome (A * cstate).

Definition ret {A} (a : A) : M A := λ s, Done (a, s).
Definition panic {A} : M A := λ _, Panic.
Definition bind {A B} (m : M A) (k : A → M B) : M B :=
  λ s, match m s with
       | Done (a, s') => k a s'
       | Panic => Panic
       | OutOfFuel => OutOfFuel
       end.

Notation "'let!' x ':=' m 'in' k" := (bind m (λ x, k))
  (at level 10, x name, m at level 100, k at level 200).
Notation "'run!' m 'in' k" := (bind m (λ _, k))
  (at level 10, m at level 100, k at level 200).

Definition lift {A} (o : option A) : M A :=
  match o with Some a => ret a | None => panic end.

Definition get_mem : M heap := λ s, Done (mem s, s).
Definition get_visited : M (gmap addr value) := λ s, Done (visited s, s).

(** [reflect.New], [reflect.MakeSlice], [reflect.MakeMap]: a fresh cell. *)
Definition alloc (c : cell) : M addr :=
  λ s, Done (length (mem s), mkState (mem s ++ [c]) (visited s)).

Definition store (a : addr) (c : cell) : M unit :=
  λ s, Done (tt, mkState (<[a := c]> (mem s)) (visited s)).

(** [visited[ptr] = cpy]. *)
Definition record_visited (a : addr) (v : value) : M unit :=
  λ s, Done (tt, mkState (mem s) (<[a := v]> (visited s))).

(** The cells a method allocated join the heap. *)
Definition extend (cs : list cell) : M unit :=
  λ s, Done (tt, mkState (mem s ++ cs) (visited s)).

(** [p.Elem()] of a non-nil pointer. *)
Definition load_val (a : addr) : M value :=
  let! h := get_mem in
  match h !! a with
  | Some (CVal v) => ret v
  | _ => panic
  end.

Definition load_arr (a : addr) : M (list value) :=
  let! h := get_mem in
  match h !! a with
  | Some (CArr vs) => ret vs
  | _ => panic
  end.

Definition load_map (a : addr) : M (list (value * value)) :=
  let! h := get_mem in
  match h !! a with
  | Some (CMap kvs) => ret kvs
  | _ => panic
  end.

(** [cpy.Index(i).Set(v)] on the backing array at [a]. *)
Definition store_index (a : addr) (i : nat) (v : value) : M unit :=
  let! vs := load_arr a in store a (CArr (<[i := v]> vs)).

(** [cpy.SetMapIndex(k, v)]. *)
Definition store_entry (a : addr) (k v : value) : M unit :=
  let! kvs := load_map a in store a (CMap (map_set k v kvs)).

Definition isTime (name : string) : bool := bool_decide (name = "time.Time").

Section WithMethods.

(** [t.MethodByName("DeepCopy")], by type identity. *)
Context (MethodByName : tkey → option Method).

(** [hasDeepCopyMethod]; [None] as argument is the invalid [reflect.Value].
    A method of an interface type has no valid [Func]. *)
Definition hasDeepCopyMethod (v : option value) : option Method :=
  match v with
  | None => None
  | Some (VIface _ _) => None
  | Some v =>
      match MethodByName (tid (type_of v)) with
      | Some method =>
          if bool_decide (NumIn method = 1) && bool_decide (NumOut method = 1)
          then Some method else None
      | None => None
      end
  end.

(** [callDeepCopy]; [None] is the invalid [reflect.Value]. *)
Definition callDeepCopy (v : value) (method : Method) : M (option value) :=
  let! h := get_mem in
  let '(r, cs) := Func method h v in
  run! extend cs in
  ret (if bool_decide (0 < NumOut method) then Some r else None).

(** [newPtr := reflect.New(result.Type()); newPtr.Elem().Set(result)]. *)
Definition boxed (result : value) : M value :=
  let! a := alloc (CVal result) in ret (VPtr (type_of result) (Some a)).

Section Loops.

(** One recursive call: source value, current content of the
    destination slot; the new content of the slot is returned. *)
Context (rec : value → value → M value).

(** The loop over the fields of a struct; [cfs] are the fields of the
    destination. *)
Fixpoint copy_fields (i : nat) (ofs cfs : list (Field value))
    : M (list (Field value)) :=
  match ofs with
  | [] => ret cfs
  | f :: ofs =>
      if fexported f then
        match cfs !! i with
        | Some c =>
            let! r := rec (FValue f) (FValue c) in
            copy_fields (S i) ofs
              (<[i := mkFieldVal (FName c) (FPkgPath c) r]> cfs)
        | None => panic
        end
      else copy_fields (S i) ofs cfs
  end.

(** The loop over the elements of an array. *)
Fixpoint copy_array (i : nat) (os cs : list value) : M (list value) :=
  match os with
  | [] => ret cs
  | o :: os =>
      match cs !! i with
      | Some c => let! r := rec o c in copy_array (S i) os (<[i := r]> cs)
      | None => panic
      end
  end.

(** The loop over the first [Len] elements of a slice; the destination
    is the backing array at [a']. *)
Fixpoint copy_slice (a' : addr) (i : nat) (os : list value) : M unit :=
  match os with
  | [] => ret tt
  | o :: os =>
      let! r := rec o (zero (type_of o)) in
      run! store_index a' i r in
      copy_slice a' (S i) os
  end.

(** The loop over the entries of a map; the destination is the map at
    [a']. *)
Fixpoint copy_map (a' : addr) (kvs : list (value * value)) : M unit :=
  match kvs with
  | [] => ret tt
  | (key, originalValue) :: kvs =>
      let! copyValue := rec originalValue (zero (type_of originalValue)) in
      let! copyKey := rec key (zero (type_of key)) in
      run! store_entry a' copyKey copyValue in
      copy_map a' kvs
  end.

End Loops.

(** [copyRecursive(original, cpy, visited)]. *)
Fixpoint copyRecursive (fuel : nat) (original cpy : value) {struct fuel}
    : M value :=
  match fuel with
  | 0 => λ _, OutOfFuel
  | S fuel =>
    match original with
    | VPtr e None => lift (Set_ cpy (zero (type_of original)))
    | VPtr e (Some ptr) =>
        let! vis := get_visited in
        match vis !! ptr with
        | Some v => lift (Set_ cpy v)
        | None =>
          match hasDeepCopyMethod (Some original) with
          | Some method =>
              let! result := callDeepCopy original method in
              let! result := lift result in
              let! cpy := (if decide (tid (type_of result) = tid (type_of original))
                     then lift (Set_ cpy result)
                     else let! newPtr := boxed result in lift (Set_ cpy newPtr)) in
              run! record_visited ptr cpy in
              ret cpy
          | None =>
            let! originalValue := load_val ptr in
            match hasDeepCopyMethod (Some originalValue) with
            | Some method =>
                let! result := callDeepCopy originalValue method in
                let! result := lift result in
                let! newPtr := boxed result in
                let! cpy := lift (Set_ cpy newPtr) in
                run! record_visited ptr cpy in
                ret cpy
            | None =>
                let! a' := alloc (CVal (zero (type_of originalValue))) in
                let! cpy := lift (Set_ cpy (VPtr (type_of originalValue) (Some a'))) in
                run! record_visited ptr cpy in
                let! r := copyRecursive fuel originalValue
                      (zero (type_of originalValue)) in
                run! store a' (CVal r) in
                ret cpy
            end
          end
        end
    | VIface _ None => lift (Set_ cpy (zero (type_of original)))
    | VIface _ (Some originalValue) =>
        let! copyValue := copyRecursive fuel originalValue
                      (zero (type_of originalValue)) in
        lift (Set_ cpy copyValue)
    | VStruct name ofs =>
        if isTime name then lift (Set_ cpy original)
        else
          match hasDeepCopyMethod (Some original) with
          | Some method =>
              let! result := callDeepCopy original method in
              let! result := lift result in
              lift (Set_ cpy result)
          | None =>
              match cpy with
              | VStruct cname cfs =>
                  let! cfs := copy_fields (copyRecursive fuel) 0 ofs cfs in
                  ret (VStruct cname cfs)
              | _ =>
                  (* [cpy.Field(i)] panics at the first exported field *)
                  if forallb (λ f, negb (fexported f)) ofs
                  then ret cpy else panic
              end
          end
    | VSlice e None => lift (Set_ cpy (zero (type_of original)))
    | VSlice e (Some s) =>
        let! a' := alloc (CArr (replicate (Cap s) (zero e))) in
        let! cpy := lift (Set_ cpy (VSlice e (Some (mkSlice a' 0 (Len s) (Cap s))))) in
        let! vs := load_arr (Data s) in
        run! (if decide (Off s + Len s ≤ length vs) then ret tt else panic) in
        run! copy_slice (copyRecursive fuel) a' 0 (take (Len s) (drop (Off s) vs)) in
        ret cpy
    | VMap k e None => lift (Set_ cpy (zero (type_of original)))
    | VMap k e (Some m) =>
        let! a' := alloc (CMap []) in
        let! cpy := lift (Set_ cpy (VMap k e (Some a'))) in
        let! kvs := load_map m in
        run! copy_map (copyRecursive fuel) a' kvs in
        ret cpy
    | VArray e os =>
        match cpy with
        | VArray ce cs =>
            let! cs := copy_array (copyRecursive fuel) 0 os cs in
            ret (VArray ce cs)
        | _ => match os with [] => ret cpy | _ => panic end
        end
    | VChan _ _ | VFunc _ _ | VUnsafePointer _ => lift (Set_ cpy original)
    | VBasic _ _ => lift (Set_ cpy original)
    end
  end.

Section CachedLoops.

Context (st : astore).
Context (rec : option nat → value → value → M value).

(** [typeInfo.FieldAnalysis[field.Name]], nil when there is none. *)
Definition fieldTypeInfo (typeInfo : option nat) (fname : string)
    : option nat :=
  match typeInfo with
  | Some p =>
      match FieldAnalysis (deref st p) with
      | Some fa => fa !! fname
      | None => None
      end
  | None => None
  end.

Fixpoint copy_fields_cached (typeInfo : option nat) (i : nat)
    (ofs cfs : list (Field value)) : M (list (Field value)) :=
  match ofs with
  | [] => ret cfs
  | f :: ofs =>
      if fexported f then
        match cfs !! i with
        | Some c =>
            let! r := rec (fieldTypeInfo typeInfo (FName f))
                        (FValue f) (FValue c) in
            copy_fields_cached typeInfo (S i) ofs
              (<[i := mkFieldVal (FName c) (FPkgPath c) r]> cfs)
        | None => panic
        end
      else copy_fields_cached typeInfo (S i) ofs cfs
  end.

End CachedLoops.

(** [copyRecursiveWithCache(original, cpy, visited, typeInfo)]; [st] is
    the store the analysis pointers refer to. *)
Fixpoint copyRecursiveWithCache (st : astore) (fuel : nat)
    (typeInfo : option nat) (original cpy : value) {struct fuel} : M value :=
  match fuel with
  | 0 => λ _, OutOfFuel
  | S fuel =>
    match original with
    | VPtr e None => lift (Set_ cpy (zero (type_of original)))
    | VPtr e (Some ptr) =>
        let! vis := get_visited in
        match vis !! ptr with
        | Some v => lift (Set_ cpy v)
        | None =>
          match hasDeepCopyMethod (Some original) with
          | Some method =>
              let! result := callDeepCopy original method in
              let! result := lift result in
              let! cpy := (if decide (tid (type_of result) = tid (type_of original))
                     then lift (Set_ cpy result)
                     else let! newPtr := boxed result in lift (Set_ cpy newPtr)) in
              run! record_visited ptr cpy in
              ret cpy
          | None =>
            let! originalValue := load_val ptr in
            match hasDeepCopyMethod (Some originalValue) with
            | Some method =>
                let! result := callDeepCopy originalValue method in
                let! result := lift result in
                let! newPtr := boxed result in
                let! cpy := lift (Set_ cpy newPtr) in
                run! record_visited ptr cpy in
                ret cpy
            | None =>
                let! a' := alloc (CVal (zero (type_of originalValue))) in
                let! cpy := lift (Set_ cpy (VPtr (type_of originalValue) (Some a'))) in
                run! record_visited ptr cpy in
                let! r := copyRecursiveWithCache st fuel None originalValue
                      (zero (type_of originalValue)) in
                run! store a' (CVal r) in
                ret cpy
            end
          end
        end
    | VIface _ None => lift (Set_ cpy (zero (type_of original)))
    | VIface _ (Some originalValue) =>
        let! copyValue := copyRecursiveWithCache st fuel None originalValue
                      (zero (type_of originalValue)) in
        lift (Set_ cpy copyValue)
    | VStruct name ofs =>
        if isTime name then lift (Set_ cpy original)
        else
          match hasDeepCopyMethod (Some original) with
          | Some method =>
              let! result := callDeepCopy original method in
              let! result := lift result in
              lift (Set_ cpy result)
          | None =>
              match cpy with
              | VStruct cname cfs =>
                  let! cfs := copy_fields_cached st
                      (copyRecursiveWithCache st fuel) typeInfo 0 ofs cfs in
                  ret (VStruct cname cfs)
              | _ =>
                  if forallb (λ f, negb (fexported f)) ofs
                  then ret cpy else panic
              end
          end
    | VSlice e None => lift (Set_ cpy (zero (type_of original)))
    | VSlice e (Some s) =>
        let! a' := alloc (CArr (replicate (Cap s) (zero e))) in
        let! cpy := lift (Set_ cpy (VSlice e (Some (mkSlice a' 0 (Len s) (Cap s))))) in
        let! vs := load_arr (Data s) in
        run! (if decide (Off s + Len s ≤ length vs) then ret tt else panic) in
        run! copy_slice (copyRecursiveWithCache st fuel None) a' 0
            (take (Len s) (drop (Off s) vs)) in
        ret cpy
    | VMap k e None => lift (Set_ cpy (zero (type_of original)))
    | VMap k e (Some m) =>
        let! a' := alloc (CMap []) in
        let! cpy := lift (Set_ cpy (VMap k e (Some a'))) in
        let! kvs := load_map m in
        run! copy_map (copyRecursiveWithCache st fuel None) a' kvs in
        ret cpy
    | VArray e os =>
        match cpy with
        | VArray ce cs =>
            let! cs := copy_array (copyRecursiveWithCache st fuel None) 0 os cs in
            ret (VArray ce cs)
        | _ => match os with [] => ret cpy | _ => panic end
        end
    | VChan _ _ | VFunc _ _ | VUnsafePointer _ => lift (Set_ cpy original)
    | VBasic _ _ => lift (Set_ cpy original)
    end
  end.

End WithMethods.

End Engine.
Import Engine.

(* ===================================================================== *)
(** ** The public entry points and their caches *)
(* ===================================================================== *)

Module Facade.

(** [BusinessCopyInfo]; the [IsOnlyValues] field is [bIsOnlyValues]. *)
Record BusinessCopyInfo := mkInfo {
  bIsOnlyValues : bool;
  analysisResult : option nat;
  brtype : option rtype
}.

(** [TypedCopyManager]; [analysis] is nil until [once] has run. *)
Record TypedCopyManager := mkTyped {
  analysis : option nat;
  trtype : option rtype
}.

(** The package-level variables [defaultManager], [businessCopyCache] and
    [typedManagers]. *)
Record globals := mkGlobals {
  defaultManager : DeepCopyManager;
  businessCopyCache : gmap string BusinessCopyInfo;
  typedManagers : list (tkey * TypedCopyManager)
}.

Definition init_globals : globals :=
  mkGlobals NewDeepCopyManager ∅ [].

(** [reflect.TypeOf(zero)] for [var zero T]: nil when [T] is an interface
    type. *)
Definition TypeOf_zero (T : rtype) : option rtype :=
  match T with
  | TInterface _ => None
  | _ => Some T
  end.

(** [reflect.ValueOf(src)] for [src] of static type [T]: the dynamic
    value of an interface, [None] (invalid) for the nil interface. *)
Definition ValueOf (src : value) : option value :=
  match src with
  | VIface _ dyn => dyn
  | _ => Some src
  end.

(** [v.Interface().(T)]; [None] is the panic of a failed assertion. *)
Definition assert_type (T : rtype) (v : value) : option value :=
  match ValueOf v with
  | None => None
  | Some d =>
      match T with
      | TInterface n => Some (VIface n (Some d))
      | _ => if decide (tid (type_of d) = tid T) then Some d else None
      end
  end.

Fixpoint lookup_typed (k : tkey) (m : list (tkey * TypedCopyManager))
    : option TypedCopyManager :=
  match m with
  | [] => None
  | (k', p) :: m => if decide (k = k') then Some p else lookup_typed k m
  end.

(** [getTypedManager[T]]. *)
Definition getTypedManager (T : rtype) (g : globals)
    : TypedCopyManager * globals :=
  match TypeOf_zero T with
  | None => (mkTyped None None, g)
  | Some rt =>
      match lookup_typed (tid rt) (typedManagers g) with
      | Some cached => (cached, g)
      | None =>
          let manager := mkTyped None (Some rt) in
          (manager,
           mkGlobals (defaultManager g) (businessCopyCache g)
             ((tid rt, manager) :: typedManagers g))
      end
  end.

(** [TypedCopyManager.getOrAnalyzeType]: the analysis is computed
    on the first call and kept in the manager. *)
Definition typed_getOrAnalyzeType (tm : TypedCopyManager) (g : globals)
    : nat * globals :=
  match analysis tm with
  | Some a => (a, g)
  | None =>
      match trtype tm with
      | None =>
          let dm := defaultManager g in
          (length (results dm),
           mkGlobals
             (mkManager (analysisCache dm)
                (results dm ++ [set_IsOnlyValues true (new_result "nil")]))
             (businessCopyCache g) (typedManagers g))
      | Some rt =>
          let '(a, dm) := getOrAnalyzeType (defaultManager g) rt in
          (a, mkGlobals dm (businessCopyCache g)
                ((tid rt, mkTyped (Some a) (Some rt)) :: typedManagers g))
      end
  end.

(** [BusinessCopyInfo.initializeCopyInfo]. *)
Definition initializeCopyInfo (rt : option rtype) (dm : DeepCopyManager)
    : BusinessCopyInfo * DeepCopyManager :=
  match rt with
  | None => (mkInfo true None None, dm)
  | Some t =>
      let '(a, dm) := getOrAnalyzeType dm t in
      (mkInfo (IsOnlyValues (deref (results dm) a)) (Some a) (Some t), dm)
  end.

(** [getOrCreateBusinessCopyInfo[T](key)]. *)
Definition getOrCreateBusinessCopyInfo (T : rtype) (key : string)
    (g : globals) : BusinessCopyInfo * globals :=
  match businessCopyCache g !! key with
  | Some cached => (cached, g)
  | None =>
      let '(copyInfo, dm) :=
        initializeCopyInfo (TypeOf_zero T) (defaultManager g) in
      (copyInfo,
       mkGlobals dm (<[key := copyInfo]> (businessCopyCache g))
         (typedManagers g))
  end.

Section WithMethods.

Context (MethodByName : tkey → option Method).

(** [DeepCopyManager.CopyValue]; [src] is the content of the
    [interface{}] argument.  An entry point returns its result with the
    heap and the manager (or package-level variables) it leaves behind. *)
Definition CopyValue (fuel : nat) (m : DeepCopyManager) (src : option value)
    (h : heap) : outcome (option value * heap * DeepCopyManager) :=
  match src with
  | None => Done (None, h, m)
  | Some srcVal =>
      let '(a, m) := getOrAnalyzeType m (type_of srcVal) in
      if IsOnlyValues (deref (results m) a) then Done (src, h, m)
      else
        let traverse s :=
          match copyRecursive MethodByName fuel srcVal (zero (type_of srcVal))
                  s with
          | Done (cpy, s) => Done (ValueOf cpy, mem s, m)
          | Panic => Panic
          | OutOfFuel => OutOfFuel
          end in
        match hasDeepCopyMethod MethodByName (Some srcVal) with
        | Some method =>
            match callDeepCopy srcVal method (mkState h ∅) with
            | Done (Some result, s) => Done (ValueOf result, mem s, m)
            | Done (None, s) => traverse s
            | Panic => Panic
            | OutOfFuel => OutOfFuel
            end
        | None => traverse (mkState h ∅)
        end
  end.

(** [result.(T)] on the content of an [interface{}]. *)
Definition assert_any (T : rtype) (r : option value) : option value :=
  match r with
  | None => None
  | Some d =>
      match T with
      | TInterface n => Some (VIface n (Some d))
      | _ => if decide (tid (type_of d) = tid T) then Some d else None
      end
  end.

(** [Copy[T](src)]. *)
Definition Copy (fuel : nat) (T : rtype) (src : value) (h : heap)
    (g : globals) : outcome (value * heap * globals) :=
  match ValueOf src with
  | None => Done (zero T, h, g)
  | Some srcVal =>
      let slow h :=
        let '(manager, g) := getTypedManager T g in
        let '(a, g) := typed_getOrAnalyzeType manager g in
        if IsOnlyValues (deref (results (defaultManager g)) a)
        then Done (src, h, g)
        else
          match CopyValue fuel (defaultManager g) (ValueOf src) h with
          | Done (result, h, dm) =>
              match assert_any T result with
              | Some r =>
                  Done (r, h, mkGlobals dm (businessCopyCache g)
                                (typedManagers g))
              | None => Panic
              end
          | Panic => Panic
          | OutOfFuel => OutOfFuel
          end in
      match hasDeepCopyMethod MethodByName (Some srcVal) with
      | Some method =>
          match callDeepCopy srcVal method (mkState h ∅) with
          | Done (Some result, s) =>
              match assert_type T result with
              | Some r => Done (r, mem s, g)
              | None => Panic
              end
          | Done (None, s) => slow (mem s)
          | Panic => Panic
          | OutOfFuel => OutOfFuel
          end
      | None => slow h
      end
  end.

(** [CopyWithKey[T](src, key)]. *)
Definition CopyWithKey (fuel : nat) (T : rtype) (src : value) (key : string)
    (h : heap) (g : globals) : outcome (value * heap * globals) :=
  let '(copyInfo, g) := getOrCreateBusinessCopyInfo T key g in
  if bIsOnlyValues copyInfo then Done (src, h, g)
  else
    match ValueOf src with
    | None => Done (zero T, h, g)
    | Some srcVal =>
        let traverse s :=
          match copyRecursiveWithCache MethodByName
                  (results (defaultManager g)) fuel
                  (analysisResult copyInfo) srcVal (zero (type_of srcVal)) s with
          | Done (cpy, s) =>
              match assert_type T cpy with
              | Some r => Done (r, mem s, g)
              | None => Panic
              end
          | Panic => Panic
          | OutOfFuel => OutOfFuel
          end in
        match hasDeepCopyMethod MethodByName (Some srcVal) with
        | Some method =>
            match callDeepCopy srcVal method (mkState h ∅) with
            | Done (Some result, s) =>
                match assert_type T result with
                | Some r => Done (r, mem s, g)
                | None => Panic
                end
            | Done (None, s) => traverse s
            | Panic => Panic
            | OutOfFuel => OutOfFuel
            end
        | None => traverse (mkState h ∅)
        end
    end.

End WithMethods.

(** [AnalyzeType[T](src)]. *)
Definition AnalyzeType (src : value) (g : globals) : nat * globals :=
  let '(a, dm) :=
    AnalyzeValue (defaultManager g) (type_of <$> ValueOf src) in
  (a, mkGlobals dm (businessCopyCache g) (typedManagers g)).

End Facade.
Import Facade.

(* ===================================================================== *)
(** ** Notions used in the statements *)
(* ===================================================================== *)

(** [extends b s s']: from [s] to [s'] the heap has only grown, the
    cells below [b] are unchanged, and no visited entry was changed. *)
Definition extends (b : nat) (s s' : cstate) : Prop :=
  length (mem s) ≤ length (mem s') ∧
  (∀ a, a < b → mem s' !! a = mem s !! a) ∧
  visited s ⊆ visited s'.

(** What the frame lemma assumes of a recursive call inside the loops. *)
Definition rec_extends (rec : value → value → M value) : Prop :=
  ∀ o c s r s', rec o c s = Done (r, s') → extends (length (mem s)) s s'.

(** A sequence of later calls of [getOrCreateBusinessCopyInfo], each with
    its type argument and its key; the package-level variables they leave. *)
Fixpoint later_calls (calls : list (rtype * string)) (g : globals) : globals :=
  match calls with
  | [] => g
  | (T, key) :: calls =>
      later_calls calls (getOrCreateBusinessCopyInfo T key g).2
  end.

(** The loop of [analyzeTypeRecursive] over the fields of a struct whose
    result is [p], as a function of its own. *)
Fixpoint analyze_fields (p : nat) (fs : list (StructField rtype))
    (visited : avisited) (st : astore) : avisited * astore :=
  match fs with
  | [] => (visited, st)
  | f :: fs =>
      if exported f then
        let '(q, visited, st) := analyzeTypeRecursive (Type_ f) visited st in
        analyze_fields p fs visited (merge_field p (Name f) q st)
      else analyze_fields p fs visited st
  end.

(** A type all of whose values are self-contained: scalars, arrays of
    them, structs of exported fields of them. *)
Fixpoint value_only (t : rtype) : bool :=
  match t with
  | TBasic _ => true
  | TArray _ e => value_only e
  | TStruct _ fs => forallb (λ f, exported f && value_only (Type_ f)) fs
  | _ => false
  end.

(** The struct names under which a type is nested, and the condition
    that no struct contains, by value, a struct of its own name. *)
Fixpoint struct_free_of (name : string) (t : rtype) : bool :=
  match t with
  | TArray _ e => struct_free_of name e
  | TStruct n fs =>
      negb (bool_decide (n = name)) &&
      forallb (λ f, struct_free_of name (Type_ f)) fs
  | _ => true
  end.

Fixpoint no_self_nesting (t : rtype) : bool :=
  match t with
  | TArray _ e => no_self_nesting e
  | TStruct n fs =>
      forallb (λ f, struct_free_of n (Type_ f) && no_self_nesting (Type_ f)) fs
  | _ => true
  end.

(** Two results that agree except, possibly, on [IsOnlyValues]. *)
Definition same_flags (r1 r2 : TypeAnalysisResult) : Prop :=
  ContainsPtr r1 = ContainsPtr r2 ∧ ContainsSlice r1 = ContainsSlice r2 ∧
  ContainsMap r1 = ContainsMap r2 ∧ ContainsChan r1 = ContainsChan r2 ∧
  ContainsFunc r1 = ContainsFunc r2 ∧ ContainsIface r1 = ContainsIface r2 ∧
  FieldAnalysis r1 = FieldAnalysis r2 ∧ TypeName r1 = TypeName r2.

(** [grows st st']: the store has only been extended; the results that
    existed are unchanged. *)
Definition grows (st st' : astore) : Prop :=
  length st ≤ length st' ∧ ∀ i, i < length st → st' !! i = st !! i.

(** Two stores whose results agree except, possibly, on [IsOnlyValues]. *)
Definition sim (st1 st2 : astore) : Prop :=
  length st1 = length st2 ∧ ∀ i, same_flags (deref st1 i) (deref st2 i).

(** The types a type contains by value, itself included. *)
Fixpoint subterms (t : rtype) : list rtype :=
  t :: match t with
       | TArray _ e => subterms e
       | TStruct _ fs => flat_map (λ f, subterms (Type_ f)) fs
       | _ => []
       end.

Definition proper_subterms (t : rtype) : list rtype :=
  match t with
  | TArray _ e => subterms e
  | TStruct _ fs => flat_map (λ f, subterms (Type_ f)) fs
  | _ => []
  end.

(** [IsOnlyValues] of the result at a pointer. *)
Definition iov (st : astore) (p : nat) : bool := IsOnlyValues (deref st p).

(** Every pointer of the visited map is allocated. *)
Definition valid (visited : avisited) (st : astore) : Prop :=
  ∀ k p, lookup_key k visited = Some p → p < length st.

(** The visited entries for the types contained in [t] are value-only. *)
Definition settled (visited : avisited) (st : astore) (t : rtype) : Prop :=
  ∀ u p, u ∈ subterms t → lookup_key (tid u) visited = Some p →
         iov st p = true.

(** What one analysis of a value-only type leaves: allocated pointers,
    the old entries of the visited map untouched, the new ones and the
    results that were value-only all value-only. *)
Definition settles (visited : avisited) (st : astore)
    (visited' : avisited) (st' : astore) : Prop :=
  valid visited' st' ∧
  length st ≤ length st' ∧
  (∀ k p, lookup_key k visited = Some p → lookup_key k visited' = Some p) ∧
  (∀ k p, lookup_key k visited' = Some p → lookup_key k visited = None →
          iov st' p = true) ∧
  (∀ i, i < length st → iov st i = true → iov st' i = true).

(** [all_addrs P v]: every address the value [v] holds (in a pointer, a
    slice header, a map, a channel, a function value, which refers to
    its closure, or an unsafe pointer, at any depth inside interfaces,
    structs and arrays) satisfies [P]. *)
Fixpoint all_addrs (P : addr → bool) (v : value) : bool :=
  match v with
  | VBasic _ _ => true
  | VPtr _ p => from_option P true p
  | VIface _ d =>
      match d with Some x => all_addrs P x | None => true end
  | VStruct _ fs => forallb (λ f, all_addrs P (FValue f)) fs
  | VSlice _ sh => from_option (λ s, P (Data s)) true sh
  | VMap _ _ m => from_option P true m
  | VArray _ vs => forallb (all_addrs P) vs
  | VChan _ c => from_option P true c
  | VFunc _ f => from_option P true f
  | VUnsafePointer p => from_option P true p
  end.

Definition cell_all (Q : value → bool) (c : cell) : bool :=
  match c with
  | CVal v => Q v
  | CArr vs => forallb Q vs
  | CMap kvs => forallb (λ kv, Q kv.1 && Q kv.2) kvs
  | CChan q => forallb Q q
  end.

(** A value of the copy: it holds addresses at or above [b] only, where
    [b] is the size of the heap before the copy.  A value of the source:
    it holds addresses below [b] only. *)
Definition fresh (b : nat) (v : value) : bool := all_addrs (λ a, b <=? a) v.
Definition closed (b : nat) (v : value) : bool := all_addrs (λ a, a <? b) v.

(** The parts of a value the traversal goes through hold no channel, no
    function, no unsafe pointer and no [time.Time]: nothing is passed
    through by reference. *)
Fixpoint plain (v : value) : bool :=
  match v with
  | VIface _ d => match d with Some x => plain x | None => true end
  | VStruct name fs =>
      negb (isTime name) &&
      forallb (λ f, negb (fexported f) || plain (FValue f)) fs
  | VArray _ vs => forallb plain vs
  | VChan _ c => bool_decide (c = None)
  | VFunc _ f => bool_decide (f = None)
  | VUnsafePointer p => bool_decide (p = None)
  | _ => true
  end.

(** The heap of a copy in progress, started on a heap of size [b]: the
    cells of the copy and the visited pointers hold fresh addresses. *)
Definition copy_region (b : nat) (s : cstate) : Prop :=
  b ≤ length (mem s) ∧
  (∀ a c, b ≤ a → mem s !! a = Some c → cell_all (fresh b) c = true) ∧
  (∀ a v, visited s !! a = Some v → fresh b v = true).

(** The source: its cells hold source addresses and are plain. *)
Definition source_region (b : nat) (h : heap) : Prop :=
  ∀ a c, a < b → h !! a = Some c →
         cell_all (closed b) c = true ∧ cell_all plain c = true.

(** What the independence proof assumes of a recursive call. *)
Definition rec_fresh (b : nat) (rec : value → value → M value) : Prop :=
  ∀ o c s r s',
    copy_region b s → source_region b (mem s) →
    closed b o = true → plain o = true → fresh b c = true →
    rec o c s = Done (r, s') →
    fresh b r = true ∧ copy_region b s' ∧ source_region b (mem s').

(** The address a pointer holds. *)
Definition target (v : value) : option addr :=
  match v with
  | VPtr _ p => p
  | _ => None
  end.

(** *** Equality in value terms *)

(** Equality of type descriptors. *)
Fixpoint rtype_eqb (t u : rtype) {struct t} : bool :=
  match t, u with
  | TBasic k, TBasic k' => bool_decide (k = k')
  | TArray n e, TArray n' e' => bool_decide (n = n') && rtype_eqb e e'
  | TStruct n fs, TStruct n' fs' =>
      bool_decide (n = n') &&
      (fix all (fs fs' : list (StructField rtype)) {struct fs} : bool :=
         match fs, fs' with
         | [], [] => true
         | f :: fs, f' :: fs' =>
             bool_decide (Name f = Name f') &&
             bool_decide (PkgPath f = PkgPath f') &&
             rtype_eqb (Type_ f) (Type_ f') && all fs fs'
         | _, _ => false
         end) fs fs'
  | TNamed n, TNamed n' => bool_decide (n = n')
  | TPtr e, TPtr e' => rtype_eqb e e'
  | TSlice e, TSlice e' => rtype_eqb e e'
  | TMap k e, TMap k' e' => rtype_eqb k k' && rtype_eqb e e'
  | TChan e, TChan e' => rtype_eqb e e'
  | TFunc s, TFunc s' => bool_decide (s = s')
  | TInterface n, TInterface n' => bool_decide (n = n')
  | TUnsafePointer, TUnsafePointer => true
  | _, _ => false
  end.

Fixpoint forall2b {A B} (f : A → B → bool) (l : list A) (l' : list B) : bool :=
  match l, l' with
  | [], [] => true
  | x :: l, y :: l' => f x y && forall2b f l l'
  | _, _ => false
  end.

(** The keys of a map are pairwise different. *)
Fixpoint distinct_keys (kvs : list (value * value)) : bool :=
  match kvs with
  | [] => true
  | (k, _) :: kvs =>
      forallb (λ kv, negb (key_eqb kv.1 k)) kvs && distinct_keys kvs
  end.

(** A value as the language builds it, in the parts the traversal goes
    through: the dynamic value of an interface is not an interface, a
    slice is no longer than its capacity, the elements of an array have
    its element type; and the fields of its structs are exported. *)
Fixpoint regular (v : value) : bool :=
  match v with
  | VIface _ (Some x) =>
      match x with VIface _ _ => false | _ => regular x end
  | VStruct _ fs => forallb (λ f, fexported f && regular (FValue f)) fs
  | VSlice _ (Some sh) => Len sh <=? Cap sh
  | VArray e vs => forallb (λ o, rtype_eqb (type_of o) e && regular o) vs
  | _ => true
  end.

Definition cell_regular (c : cell) : bool :=
  match c with
  | CVal v => regular v
  | CArr vs => forallb regular vs
  | CMap kvs =>
      forallb (λ kv, regular kv.1 && regular kv.2) kvs && distinct_keys kvs
  | CChan _ => true
  end.

(** Equality in value terms, to depth [n]: [v] in the heap [h] and [v']
    in the heap [h'] have the same shape and the same scalars; pointers,
    slices and maps are followed, their addresses are not compared. *)
Fixpoint deep_equal (n : nat) (h : heap) (v : value) (h' : heap) (v' : value)
    {struct n} : bool :=
  match n with
  | 0 => true
  | S n =>
    match v, v' with
    | VBasic k d, VBasic k' d' => bool_decide (k = k') && datum_eqb d d'
    | VPtr e p, VPtr e' p' =>
        bool_decide (tid e = tid e') &&
        match p, p' with
        | None, None => true
        | Some a, Some a' =>
            match h !! a, h' !! a' with
            | Some (CVal x), Some (CVal x') => deep_equal n h x h' x'
            | _, _ => false
            end
        | _, _ => false
        end
    | VIface i d, VIface i' d' =>
        bool_decide (i = i') &&
        match d, d' with
        | None, None => true
        | Some x, Some x' =>
            bool_decide (tid (type_of x) = tid (type_of x')) &&
            deep_equal n h x h' x'
        | _, _ => false
        end
    | VStruct s fs, VStruct s' fs' =>
        bool_decide (s = s') &&
        forall2b (λ f f', bool_decide (FName f = FName f') &&
                          deep_equal n h (FValue f) h' (FValue f')) fs fs'
    | VSlice e s, VSlice e' s' =>
        bool_decide (tid e = tid e') &&
        match s, s' with
        | None, None => true
        | Some sh, Some sh' =>
            bool_decide (Len sh = Len sh') &&
            match h !! Data sh, h' !! Data sh' with
            | Some (CArr vs), Some (CArr vs') =>
                forall2b (λ x x', deep_equal n h x h' x')
                  (take (Len sh) (drop (Off sh) vs))
                  (take (Len sh') (drop (Off sh') vs'))
            | _, _ => false
            end
        | _, _ => false
        end
    | VMap k e m, VMap k' e' m' =>
        bool_decide (tid k = tid k') && bool_decide (tid e = tid e') &&
        match m, m' with
        | None, None => true
        | Some a, Some a' =>
            match h !! a, h' !! a' with
            | Some (CMap kvs), Some (CMap kvs') =>
                forall2b (λ kv kv', deep_equal n h kv.1 h' kv'.1 &&
                                    deep_equal n h kv.2 h' kv'.2) kvs kvs'
            | _, _ => false
            end
        | _, _ => false
        end
    | VArray e vs, VArray e' vs' =>
        bool_decide (tid e = tid e') &&
        forall2b (λ x x', deep_equal n h x h' x') vs vs'
    | VChan e c, VChan e' c' => bool_decide (tid e = tid e') && bool_decide (c = c')
    | VFunc s f, VFunc s' f' => bool_decide (s = s') && bool_decide (f = f')
    | VUnsafePointer p, VUnsafePointer p' => bool_decide (p = p')
    | _, _ => false
    end
  end.

(** [copied n lo vis h0 H v r]: to depth [n], [r] in the heap [H] is a
    copy of [v] in the source heap [h0]: same shape and scalars, a
    pointer of [v] answered by the pointer the visited map [vis] records
    for it, slices and maps by cells at or above [lo]. *)
Fixpoint copied (n : nat) (lo : nat) (vis : gmap addr value) (h0 H : heap)
    (v r : value) {struct n} : Prop :=
  match n with
  | 0 => True
  | S n =>
    match v, r with
    | VBasic k d, VBasic k' d' => k = k' ∧ d = d'
    | VPtr e None, VPtr e' None => tid e = tid e'
    | VPtr e (Some a), VPtr e' (Some a') =>
        tid e = tid e' ∧ ∃ e'', vis !! a = Some (VPtr e'' (Some a'))
    | VIface i None, VIface i' None => i = i'
    | VIface i (Some x), VIface i' (Some x') =>
        i = i' ∧ tid (type_of x) = tid (type_of x') ∧
        copied n lo vis h0 H x x'
    | VStruct s fs, VStruct s' fs' =>
        s = s' ∧
        Forall2 (λ f f', FName f = FName f' ∧
                         copied n lo vis h0 H (FValue f) (FValue f')) fs fs'
    | VSlice e None, VSlice e' None => tid e = tid e'
    | VSlice e (Some sh), VSlice e' (Some sh') =>
        tid e = tid e' ∧ Len sh = Len sh' ∧ lo ≤ Data sh' ∧
        ∃ vs vs', h0 !! Data sh = Some (CArr vs) ∧
                  H !! Data sh' = Some (CArr vs') ∧
                  Forall2 (copied n lo vis h0 H)
                    (take (Len sh) (drop (Off sh) vs))
                    (take (Len sh') (drop (Off sh') vs'))
    | VMap k e None, VMap k' e' None => tid k = tid k' ∧ tid e = tid e'
    | VMap k e (Some a), VMap k' e' (Some a') =>
        tid k = tid k' ∧ tid e = tid e' ∧ lo ≤ a' ∧
        ∃ kvs kvs', h0 !! a = Some (CMap kvs) ∧
                    H !! a' = Some (CMap kvs') ∧
                    Forall2 (λ kv kv', copied n lo vis h0 H kv.1 kv'.1 ∧
                                       copied n lo vis h0 H kv.2 kv'.2)
                      kvs kvs'
    | VArray e vs, VArray e' vs' =>
        tid e = tid e' ∧ Forall2 (copied n lo vis h0 H) vs vs'
    | VChan e c, VChan e' c' => tid e = tid e' ∧ c = c'
    | VFunc s f, VFunc s' f' => s = s' ∧ f = f'
    | VUnsafePointer p, VUnsafePointer p' => p = p'
    | _, _ => False
    end
  end.

(** A copy to every depth. *)
Definition copy_of (lo : nat) (vis : gmap addr value) (h0 H : heap)
    (v r : value) : Prop :=
  ∀ n, copied n lo vis h0 H v r.

(** The state of a copy in progress, started on the heap [h0]: the
    source cells are as they were; the visited map sends source
    addresses to pointers to allocated cells of the copy, different
    addresses to different cells. *)
Definition copy_state (h0 : heap) (s : cstate) : Prop :=
  length h0 ≤ length (mem s) ∧
  (∀ a, a < length h0 → mem s !! a = h0 !! a) ∧
  (∀ a v, visited s !! a = Some v →
     ∃ e a', v = VPtr e (Some a') ∧ length h0 ≤ a' ∧ a' < length (mem s)) ∧
  (∀ a1 a2 e1 e2 a', visited s !! a1 = Some (VPtr e1 (Some a')) →
     visited s !! a2 = Some (VPtr e2 (Some a')) → a1 = a2).

(** The visited entries added since the visited map was [vis0] are
    complete: the cell of the copy holds a copy of what the source cell
    holds. *)
Definition entries_copied (h0 : heap) (lo : nat) (vis0 : gmap addr value)
    (s' : cstate) : Prop :=
  ∀ a v, vis0 !! a = None → visited s' !! a = Some v →
    ∃ e' a' x x', v = VPtr e' (Some a') ∧ lo ≤ a' ∧
      h0 !! a = Some (CVal x) ∧ mem s' !! a' = Some (CVal x') ∧
      ∀ n, copied n lo (visited s') h0 (mem s') x x'.

(** The source heap: its cells hold source addresses, nothing that is
    passed through by reference, and regular values. *)
Definition source_heap (h0 : heap) : Prop :=
  ∀ a c, h0 !! a = Some c →
    cell_all (closed (length h0)) c = true ∧ cell_all plain c = true ∧
    cell_regular c = true.

(** What the equality proof assumes of a recursive call. *)
Definition rec_copied (h0 : heap) (rec : value → value → M value) : Prop :=
  ∀ o s r s',
    copy_state h0 s →
    closed (length h0) o = true → plain o = true → regular o = true →
    rec o (zero (type_of o)) s = Done (r, s') →
    copy_state h0 s' ∧
    extends (length (mem s)) s s' ∧
    (∀ n, copied n (length (mem s)) (visited s') h0 (mem s') o r) ∧
    entries_copied h0 (length (mem s)) (visited s) s'.

(** What the equality proof assumes of a source value. *)
Definition src_ok (h0 : heap) (o : value) : Prop :=
  closed (length h0) o = true ∧ plain o = true ∧ regular o = true.

(** The destination field [reflect.New] makes for a field. *)
Definition zero_field (f : Field value) : Field value :=
  mkFieldVal (FName f) (FPkgPath f) (zero (type_of (FValue f))).

(** What [reflect.ValueOf] sees of a value and of its copy. *)
Definition deep_equal_any (n : nat) (h : heap) (src : value) (h' : heap)
    (r : option value) : bool :=
  match ValueOf src, r with
  | Some x, Some d => deep_equal n h x h' d
  | None, None => true
  | _, _ => false
  end.

(** *** Frames, kinds and the exactness of the classifier *)

(** The cells of [h] are in [h'] as they were: [h'] is [h] with cells
    added. *)
Definition untouched (h h' : heap) : Prop :=
  length h ≤ length h' ∧ ∀ a, a < length h → h' !! a = h !! a.

(** What the analysis must report for a type of a reference kind. *)
Definition kind_flags (t : rtype) (r : TypeAnalysisResult) : Prop :=
  match t with
  | TPtr _ => IsOnlyValues r = false ∧ ContainsPtr r = true
  | TSlice _ => IsOnlyValues r = false ∧ ContainsSlice r = true
  | TMap _ _ => IsOnlyValues r = false ∧ ContainsMap r = true
  | TChan _ => IsOnlyValues r = false ∧ ContainsChan r = true
  | TFunc _ => IsOnlyValues r = false ∧ ContainsFunc r = true
  | TInterface _ => IsOnlyValues r = false ∧ ContainsIface r = true
  | TUnsafePointer => IsOnlyValues r = false
  | _ => True
  end.

(** The types the analysis of a type goes through, itself included. *)
Fixpoint components (t : rtype) : list rtype :=
  t :: match t with
       | TArray _ e | TPtr e | TSlice e => components e
       | TMap k e => components k ++ components e
       | TStruct _ fs => flat_map (λ f, components (Type_ f)) fs
       | _ => []
       end.

(** Among the types the analysis goes through, an identity denotes one
    type. *)
Definition one_type_per_id (t : rtype) : Prop :=
  ∀ u1 u2, u1 ∈ components t → u2 ∈ components t → tid u1 = tid u2 → u1 = u2.

(** The size of a type descriptor. *)
Fixpoint type_size (t : rtype) : nat :=
  S match t with
    | TArray _ e | TPtr e | TSlice e => type_size e
    | TMap k e => type_size k + type_size e
    | TStruct _ fs => list_sum (map (λ f, type_size (Type_ f)) fs)
    | _ => 0
    end.

(** The visited entries for the types of [us] that say value-only are
    right. *)
Definition sound_at (us : list rtype) (visited : avisited) (st : astore)
    : Prop :=
  ∀ u p, u ∈ us → lookup_key (tid u) visited = Some p → iov st p = true →
         value_only u = true.

(** What one analysis leaves: allocated pointers, the old entries of the
    visited map untouched, and new entries, for types of [us], that are
    right when they say value-only. *)
Definition tracks (us : list rtype) (visited : avisited) (st : astore)
    (visited' : avisited) (st' : astore) : Prop :=
  valid visited' st' ∧
  length st ≤ length st' ∧
  (∀ k p, lookup_key k visited = Some p → lookup_key k visited' = Some p) ∧
  (∀ k p, lookup_key k visited' = Some p → lookup_key k visited = None →
     length st ≤ p ∧
     ∃ w, w ∈ us ∧ tid w = k ∧ (iov st' p = true → value_only w = true)).

(** What the analysis of [t], inside a type [root], is shown to do. *)
Definition sound_step (root t : rtype) : Prop :=
  (∀ u, u ∈ components t → u ∈ components root) →
  ∀ visited st, valid visited st → sound_at (components t) visited st →
    let r := analyzeTypeRecursive t visited st in
    (iov r.2 r.1.1 = true → value_only t = true) ∧
    tracks (components t) visited st r.1.2 r.2.

(** *** Self-contained values and the entry points *)

(** A value that holds no reference: scalars, arrays of them, structs of
    exported fields of them, and [time.Time]. *)
Fixpoint self_contained (v : value) : bool :=
  match v with
  | VBasic _ _ => true
  | VStruct name fs =>
      isTime name ||
      forallb (λ f, fexported f && self_contained (FValue f)) fs
  | VArray e vs =>
      forallb (λ o, rtype_eqb (type_of o) e && self_contained o) vs
  | _ => false
  end.

(** The nesting depth of a value. *)
Fixpoint vdepth (v : value) : nat :=
  match v with
  | VStruct _ fs => S (list_max (map (λ f, vdepth (FValue f)) fs))
  | VArray _ vs => S (list_max (map vdepth vs))
  | VIface _ (Some x) => S (vdepth x)
  | _ => 0
  end.

(** The cache of typed managers is keyed by the type of each manager. *)
Definition typed_cache_ok (g : globals) : Prop :=
  ∀ k tm, lookup_typed k (typedManagers g) = Some tm →
    ∃ rt, trtype tm = Some rt ∧ tid rt = k.

(** Two outcomes with the same result and the same heap. *)
Definition same_copy {G G'} (o : outcome (value * heap * G))
    (o' : outcome (value * heap * G')) : Prop :=
  match o, o' with
  | Done (r, h, _), Done (r', h', _) => r = r' ∧ h = h'
  | Panic, Panic => True
  | OutOfFuel, OutOfFuel => True
  | _, _ => False
  end.

(** *** Types and values of the test suite *)

Module Examples.

Definition TestStruct : rtype :=
  TStruct "TestStruct"
    [mkField "Int" "" (TBasic Int); mkField "String" "" (TBasic String);
     mkField "Float" "" (TBasic Float64);
     mkField "unexported" "deepcopy" (TBasic String)].

Definition OnlyValueStruct : rtype :=
  TStruct "OnlyValueStruct"
    [mkField "Name" "" (TBasic String); mkField "Age" "" (TBasic Int);
     mkField "Score" "" (TBasic Float64); mkField "Valid" "" (TBasic Bool)].

Definition NestedValueStruct : rtype :=
  TStruct "NestedValueStruct"
    [mkField "Basic" "" OnlyValueStruct; mkField "Count" "" (TBasic Int)].

(** [Unexported] of the tests, with the source value of
    [TestUnexportedFields]: [cc] is a non-nil slice at address 0, [dd] a
    non-nil map at address 1. *)
Definition UnexportedFields : list (Field value) :=
  [mkFieldVal "A" "" (VBasic String (DStr "A"));
   mkFieldVal "B" "" (VBasic Int (DNum 42));
   mkFieldVal "aa" "deepcopy" (VBasic String (DStr "aa"));
   mkFieldVal "bb" "deepcopy" (VBasic Int (DNum 11));
   mkFieldVal "cc" "deepcopy"
     (VSlice (TBasic Int) (Some (mkSlice 0 0 3 3)));
   mkFieldVal "dd" "deepcopy"
     (VMap (TBasic String) (TBasic String) (Some 1))].

Definition UnexportedHeap : heap :=
  [CArr [VBasic Int (DNum 1); VBasic Int (DNum 2); VBasic Int (DNum 3)];
   CMap [(VBasic String (DStr "a"), VBasic String (DStr "b"))]].

(** No type has a [DeepCopy] method. *)
Definition no_methods : tkey → option Method := λ _, None.

(** [User] of the documentation, whose [DeepCopy] (value receiver)
    replaces the password by a placeholder. *)
Definition User : rtype :=
  TStruct "User"
    [mkField "ID" "" (TBasic Int); mkField "Name" "" (TBasic String);
     mkField "Password" "" (TBasic String)].

Definition user (id : Z) (name password : string) : value :=
  VStruct "User"
    [mkFieldVal "ID" "" (VBasic Int (DNum id));
     mkFieldVal "Name" "" (VBasic String (DStr name));
     mkFieldVal "Password" "" (VBasic String (DStr password))].

Definition User_DeepCopy_body (u : value) : value :=
  match u with
  | VStruct "User" [id; name; _] =>
      VStruct "User"
        [id; name;
         mkFieldVal "Password" "" (VBasic String (DStr "[REDACTED]"))]
  | _ => u
  end.

Definition User_DeepCopy : Method :=
  mkMethod 1 1 (λ _ u, (User_DeepCopy_body u, [])).

(** The method set of [*User] holds the method too; it reads the
    receiver through the pointer. *)
Definition User_DeepCopy_ptr : Method :=
  mkMethod 1 1
    (λ h p,
       match p with
       | VPtr _ (Some a) =>
           match h !! a with
           | Some (CVal u) => (User_DeepCopy_body u, [])
           | _ => (p, [])
           end
       | _ => (p, [])
       end).

Definition user_methods (k : tkey) : option Method :=
  if decide (k = KNamed "User") then Some User_DeepCopy
  else if decide (k = KPtr (KNamed "User")) then Some User_DeepCopy_ptr
  else None.

(** A struct with an exported [unsafe.Pointer] field that points to the
    integer at address 0. *)
Definition holder : value :=
  VStruct "Holder" [mkFieldVal "P" "" (VUnsafePointer (Some 0))].

Definition holder_heap : heap := [CVal (VBasic Int (DNum 42))].

(** A pointer to a struct with a non-exported field. *)
Definition Hidden : rtype :=
  TStruct "Hidden"
    [mkField "A" "" (TBasic Int); mkField "b" "deepcopy" (TBasic Int)].

Definition hidden_struct (a b : Z) : value :=
  VStruct "Hidden"
    [mkFieldVal "A" "" (VBasic Int (DNum a));
     mkFieldVal "b" "deepcopy" (VBasic Int (DNum b))].

Definition hidden : value := VPtr Hidden (Some 0).

Definition hidden_heap : heap := [CVal (hidden_struct 1 2)].

(** A slice that contains itself: [s := make([]any, 1); s[0] = s].  Its
    backing array is the cell at address 0. *)
Definition self_slice : value :=
  VSlice (TInterface "any") (Some (mkSlice 0 0 1 1)).

Definition self_slice_heap : heap :=
  [CArr [VIface "any" (Some self_slice)]].

(** A map that contains itself: [m := map[string]any{}; m["self"] = m]. *)
Definition self_map : value :=
  VMap (TBasic String) (TInterface "any") (Some 0).

Definition self_map_heap : heap :=
  [CMap [(VBasic String (DStr "self"), VIface "any" (Some self_map))]].

(** [Node] of the tests, and a ring of [n] nodes laid out from address
    [base]: node [i] points to node [i + 1], the last one to the first. *)
Definition Node : rtype :=
  TStruct "Node"
    [mkField "Name" "" (TBasic String);
     mkField "Next" "" (TPtr (TNamed "Node"))].

Definition node (name : string) (next : option addr) : value :=
  VStruct "Node"
    [mkFieldVal "Name" "" (VBasic String (DStr name));
     mkFieldVal "Next" "" (VPtr Node next)].

(** The zero value of [Node]. *)
Definition zero_node : value :=
  VStruct "Node"
    [mkFieldVal "Name" "" (VBasic String (DStr ""));
     mkFieldVal "Next" "" (VPtr Node None)].

Definition ring_cell (n base i : nat) : cell :=
  CVal (node (pretty i) (Some (base + (S i) mod n))).

Definition ring (n base : nat) : heap :=
  map (ring_cell n base) (seq 0 n).

(** The visited map once the first [i] nodes of a ring of [n] have been
    entered. *)
Fixpoint ring_visited (n i : nat) : gmap addr value :=
  match i with
  | 0 => ∅
  | S i => <[i := VPtr Node (Some (n + i))]> (ring_visited n i)
  end.

(** A [DeepCopy] that takes a parameter, on [User]. *)
Definition two_args : tkey → option Method :=
  λ k, if decide (k = KNamed "User")
       then Some (mkMethod 2 1 (λ _ v, (v, []))) else None.

End Examples.

(* ===================================================================== *)
(** ** Reasoning about the state monad *)
(* ===================================================================== *)

Lemma bind_Done {A B} (m : M A) (k : A → M B) s b s' :
  bind m k s = Done (b, s') →
  ∃ a s1, m s = Done (a, s1) ∧ k a s1 = Done (b, s').
Proof.
  unfold bind. destruct (m s) as [[a s1]| |]; [eauto | done | done].
Qed.

Lemma lift_Done {A} (o : option A) s a s' :
  lift o s = Done (a, s') → o = Some a ∧ s' = s.
Proof. destruct o; cbn; [|done]. by intros [= -> ->]. Qed.

Lemma ret_Done {A} (x : A) s a s' : ret x s = Done (a, s') → a = x ∧ s' = s.
Proof. by intros [= -> ->]. Qed.

Lemma bind_not_fuel {A B} (m : M A) (k : A → M B) s :
  m s ≠ OutOfFuel →
  (∀ a s1, m s = Done (a, s1) → k a s1 ≠ OutOfFuel) →
  bind m k s ≠ OutOfFuel.
Proof.
  unfold bind. destruct (m s) as [[a s1]| |]; [eauto | done | done].
Qed.

Lemma alloc_Done c s a s' :
  alloc c s = Done (a, s') →
  a = length (mem s) ∧ s' = mkState (mem s ++ [c]) (visited s).
Proof. by intros [= <- <-]. Qed.

Lemma store_Done a c s u s' :
  store a c s = Done (u, s') → s' = mkState (<[a := c]> (mem s)) (visited s).
Proof. by intros [= <- <-]. Qed.

Lemma record_visited_Done a v s u s' :
  record_visited a v s = Done (u, s') →
  s' = mkState (mem s) (<[a := v]> (visited s)).
Proof. by intros [= <- <-]. Qed.

Lemma get_visited_Done s v s' :
  get_visited s = Done (v, s') → v = visited s ∧ s' = s.
Proof. by intros [= <- <-]. Qed.

Lemma load_val_Done a s v s' :
  load_val a s = Done (v, s') → s' = s ∧ mem s !! a = Some (CVal v).
Proof.
  unfold load_val, bind, get_mem. cbn.
  destruct (mem s !! a) as [[]|]; cbn; try done. by intros [= -> ->].
Qed.

Lemma load_arr_Done a s v s' :
  load_arr a s = Done (v, s') → s' = s ∧ mem s !! a = Some (CArr v).
Proof.
  unfold load_arr, bind, get_mem. cbn.
  destruct (mem s !! a) as [[]|]; cbn; try done. by intros [= -> ->].
Qed.

Lemma load_map_Done a s v s' :
  load_map a s = Done (v, s') → s' = s ∧ mem s !! a = Some (CMap v).
Proof.
  unfold load_map, bind, get_mem. cbn.
  destruct (mem s !! a) as [[]|]; cbn; try done. by intros [= -> ->].
Qed.

Lemma store_index_Done a i v s u s' :
  store_index a i v s = Done (u, s') →
  ∃ vs, mem s !! a = Some (CArr vs) ∧
        s' = mkState (<[a := CArr (<[i := v]> vs)]> (mem s)) (visited s).
Proof.
  intros H. unfold store_index in H. apply bind_Done in H as (vs & s1 & H1 & H).
  apply load_arr_Done in H1 as [-> ?]. apply store_Done in H. eauto.
Qed.

Lemma store_entry_Done a k v s u s' :
  store_entry a k v s = Done (u, s') →
  ∃ kvs, mem s !! a = Some (CMap kvs) ∧
         s' = mkState (<[a := CMap (map_set k v kvs)]> (mem s)) (visited s).
Proof.
  intros H. unfold store_entry in H. apply bind_Done in H as (vs & s1 & H1 & H).
  apply load_map_Done in H1 as [-> ?]. apply store_Done in H. eauto.
Qed.

Lemma callDeepCopy_Done v m s r s' :
  callDeepCopy v m s = Done (r, s') →
  s' = mkState (mem s ++ (Func m (mem s) v).2) (visited s) ∧
  r = if bool_decide (0 < NumOut m) then Some (Func m (mem s) v).1 else None.
Proof.
  unfold callDeepCopy, bind, get_mem. cbn.
  destruct (Func m (mem s) v) as [x cs]. cbn. by intros [= <- <-].
Qed.

Lemma boxed_Done v s r s' :
  boxed v s = Done (r, s') →
  r = VPtr (type_of v) (Some (length (mem s))) ∧
  s' = mkState (mem s ++ [CVal v]) (visited s).
Proof. by intros [= <- <-]. Qed.

(** Breaks the hypotheses [c s = Done (r, s')] along the binds of [c]
    and replaces the primitive steps by what they did. *)
Ltac simp_run :=
  repeat match goal with
  | H : bind (lift _) _ _ = Done _ |- _ =>
      let H1 := fresh "E" in
      apply bind_Done in H as (? & ? & H1 & H);
      apply lift_Done in H1 as [H1 ?]; subst
  | H : bind get_visited _ _ = Done _ |- _ =>
      let H1 := fresh in
      apply bind_Done in H as (? & ? & H1 & H);
      apply get_visited_Done in H1 as [? ?]; subst
  | H : bind (alloc _) _ _ = Done _ |- _ =>
      let H1 := fresh in
      apply bind_Done in H as (? & ? & H1 & H);
      apply alloc_Done in H1 as [? ?]; subst
  | H : bind (store _ _) _ _ = Done _ |- _ =>
      let H1 := fresh in
      apply bind_Done in H as (? & ? & H1 & H);
      apply store_Done in H1; subst
  | H : bind (record_visited _ _) _ _ = Done _ |- _ =>
      let H1 := fresh in
      apply bind_Done in H as (? & ? & H1 & H);
      apply record_visited_Done in H1; subst
  | H : bind (boxed _) _ _ = Done _ |- _ =>
      let H1 := fresh in
      apply bind_Done in H as (? & ? & H1 & H);
      apply boxed_Done in H1 as [? ?]; subst
  | H : bind (load_val _) _ _ = Done _ |- _ =>
      let H1 := fresh "Hcell" in
      apply bind_Done in H as (? & ? & H1 & H);
      apply load_val_Done in H1 as [? H1]; subst
  | H : bind (load_arr _) _ _ = Done _ |- _ =>
      let H1 := fresh "Hcell" in
      apply bind_Done in H as (? & ? & H1 & H);
      apply load_arr_Done in H1 as [? H1]; subst
  | H : bind (load_map _) _ _ = Done _ |- _ =>
      let H1 := fresh "Hcell" in
      apply bind_Done in H as (? & ? & H1 & H);
      apply load_map_Done in H1 as [? H1]; subst
  | H : bind (store_index _ _ _) _ _ = Done _ |- _ =>
      let H1 := fresh "Hcell" in
      apply bind_Done in H as (? & ? & H1 & H);
      apply store_index_Done in H1 as (? & H1 & ?); subst
  | H : bind (store_entry _ _ _) _ _ = Done _ |- _ =>
      let H1 := fresh "Hcell" in
      apply bind_Done in H as (? & ? & H1 & H);
      apply store_entry_Done in H1 as (? & H1 & ?); subst
  | H : bind (callDeepCopy _ _) _ _ = Done _ |- _ =>
      let H1 := fresh in
      apply bind_Done in H as (? & ? & H1 & H);
      apply callDeepCopy_Done in H1 as [? ?]; subst
  | H : lift _ _ = Done _ |- _ =>
      let H1 := fresh "E" in
      apply lift_Done in H as [H1 ?]; subst
  | H : ret _ _ = Done _ |- _ => apply ret_Done in H as [? ?]; subst
  | H : panic _ = Done _ |- _ => discriminate H
  end.


Lemma extends_refl b s : extends b s s.
Proof. by split_and!. Qed.

Lemma extends_trans b s1 s2 s3 :
  extends b s1 s2 → extends b s2 s3 → extends b s1 s3.
Proof.
  intros (L1 & F1 & V1) (L2 & F2 & V2). split_and!.
  - lia.
  - intros a Ha. rewrite F2, F1; auto.
  - by etrans.
Qed.

Lemma extends_mono b b' s s' : b' ≤ b → extends b s s' → extends b' s s'.
Proof. intros Hb (L & F & V). split_and!; auto. intros; apply F; lia. Qed.


(* ===================================================================== *)
(** ** The traversal only allocates *)
(* ===================================================================== *)

Lemma extends_length b s s' : extends b s s' → length (mem s) ≤ length (mem s').
Proof. by intros (? & _). Qed.

Lemma extends_step b s1 s2 s3 :
  b ≤ length (mem s1) →
  extends b s1 s2 → extends (length (mem s2)) s2 s3 → extends b s1 s3.
Proof.
  intros Hb H12 H23. eapply extends_trans; [done|].
  eapply extends_mono; [|done]. apply extends_length in H12. lia.
Qed.

Lemma extends_app b h cs vis :
  b ≤ length h → extends b (mkState h vis) (mkState (h ++ cs) vis).
Proof.
  intros Hb. split_and!; cbn; [rewrite length_app; lia | | done].
  intros a Ha. rewrite lookup_app_l; [done | lia].
Qed.

Lemma extends_insert b h a c vis :
  b ≤ a → extends b (mkState h vis) (mkState (<[a := c]> h) vis).
Proof.
  intros Hb. split_and!; cbn; [by rewrite length_insert | | done].
  intros a' Ha. rewrite list_lookup_insert_ne; [done | lia].
Qed.

Lemma extends_record b h a v vis :
  vis !! a = None → extends b (mkState h vis) (mkState h (<[a := v]> vis)).
Proof. intros Hn. split_and!; cbn; [done | done |]. by apply insert_subseteq. Qed.

Lemma cstate_eta s : s = mkState (mem s) (visited s).
Proof. by destruct s. Qed.

(** Closes a goal [extends b s s'] where the states are spelled out, from
    the [extends] facts of the recursive calls. *)
Ltac solve_ext :=
  repeat match goal with
  | H : extends _ _ _ |- _ => destruct H as (? & ? & ?)
  end;
  unfold extends; cbn [mem visited] in *;
  repeat match goal with
  | H : context [length (_ ++ _)] |- _ => rewrite length_app in H
  | H : context [length (<[_ := _]> _)] |- _ => rewrite length_insert in H
  end;
  cbn [length] in *;
  split_and!;
  [ rewrite ?length_app, ?length_insert; cbn [length]; lia
  | intros ? ?;
    repeat first
      [ rewrite list_lookup_insert_ne by lia
      | rewrite lookup_app_l by (rewrite ?length_app; cbn [length]; lia)
      | match goal with
        | F : ∀ a, _ → _ !! a = _ |- _ => rewrite F by lia
        end ];
    done
  | first
      [ done
      | apply insert_subseteq; done
      | etrans; [|eassumption]; first [done | apply insert_subseteq; done] ] ].

Section Frame.

Context (MethodByName : tkey → option Method).


Lemma copy_fields_extends rec (Hrec : rec_extends rec) ofs :
  ∀ i cfs s r s',
    copy_fields rec i ofs cfs s = Done (r, s') →
    extends (length (mem s)) s s'.
Proof.
  induction ofs as [|f ofs IH]; intros i cfs s r s' H; cbn in H.
  - simp_run. apply extends_refl.
  - destruct (fexported f); [|by eauto].
    destruct (cfs !! i); [|done].
    apply bind_Done in H as (? & ? & H0 & H).
    apply Hrec in H0. apply IH in H. by eapply extends_step.
Qed.

Lemma copy_array_extends rec (Hrec : rec_extends rec) os :
  ∀ i cs s r s',
    copy_array rec i os cs s = Done (r, s') →
    extends (length (mem s)) s s'.
Proof.
  induction os as [|o os IH]; intros i cs s r s' H; cbn in H.
  - simp_run. apply extends_refl.
  - destruct (cs !! i); [|done].
    apply bind_Done in H as (? & ? & H0 & H).
    apply Hrec in H0. apply IH in H. by eapply extends_step.
Qed.

Lemma copy_slice_extends rec (Hrec : rec_extends rec) b a' os :
  ∀ i s r s',
    b ≤ a' → b ≤ length (mem s) →
    copy_slice rec a' i os s = Done (r, s') →
    extends b s s'.
Proof.
  induction os as [|o os IH]; intros i s r s' Ha Hb H; cbn in H.
  - simp_run. apply extends_refl.
  - apply bind_Done in H as (? & s1 & H0 & H). simp_run.
    apply Hrec in H0. pose proof (extends_length _ _ _ H0).
    apply IH in H; [|done|cbn; rewrite length_insert; lia].
    eapply extends_trans; [by eapply extends_mono|].
    eapply extends_trans; [|done].
    rewrite (cstate_eta s1) at 1. by apply extends_insert.
Qed.

Lemma copy_map_extends rec (Hrec : rec_extends rec) b a' kvs :
  ∀ s r s',
    b ≤ a' → b ≤ length (mem s) →
    copy_map rec a' kvs s = Done (r, s') →
    extends b s s'.
Proof.
  induction kvs as [|[k v] kvs IH]; intros s r s' Ha Hb H; cbn in H.
  - simp_run. apply extends_refl.
  - apply bind_Done in H as (? & s1 & H0 & H).
    apply bind_Done in H as (? & s2 & H1 & H). simp_run.
    apply Hrec in H0, H1.
    pose proof (extends_length _ _ _ H0). pose proof (extends_length _ _ _ H1).
    apply IH in H; [|done|cbn; rewrite length_insert; lia].
    eapply extends_trans; [by eapply extends_mono|].
    eapply extends_trans; [eapply extends_mono; [|done]; lia|].
    eapply extends_trans; [|done].
    rewrite (cstate_eta s2) at 1. by apply extends_insert.
Qed.

Lemma copyRecursive_extends fuel :
  rec_extends (copyRecursive MethodByName fuel).
Proof.
  induction fuel as [|fuel IH]; intros o c [h vis] r s' H; [done|].
  cbn [copyRecursive] in H.
  destruct o as [k d|e [ptr|]|n [ov|]|name ofs|e [sh|]|kt e [m|]|e os|e ch|sg f|p];
    try (simp_run; apply extends_refl).
  - (* non-nil pointer *)
    simp_run. cbn [visited] in H. destruct (vis !! ptr) as [v|] eqn:Hvis.
    { simp_run. apply extends_refl. }
    destruct (hasDeepCopyMethod _ (Some (VPtr e (Some ptr)))) as [method|].
    { simp_run. apply bind_Done in H as (? & s1 & H0 & H).
      destruct (decide _) in H0; simp_run; solve_ext. }
    simp_run. destruct (hasDeepCopyMethod _ (Some _)) as [method|].
    { simp_run. solve_ext. }
    simp_run. apply bind_Done in H as (? & s1 & H0 & H). simp_run.
    apply IH in H0. solve_ext.
  - (* interface *)
    apply bind_Done in H as (? & s1 & H0 & H). simp_run. by apply IH in H0.
  - (* struct *)
    destruct (isTime name). { simp_run. apply extends_refl. }
    destruct (hasDeepCopyMethod _ _) as [method|].
    { simp_run. solve_ext. }
    destruct c; try (destruct (forallb _ _); [simp_run; apply extends_refl | done]).
    apply bind_Done in H as (? & s1 & H0 & H). simp_run.
    by eapply copy_fields_extends in H0.
  - (* slice *)
    simp_run. apply bind_Done in H as (? & s1 & H0 & H).
    destruct (decide _) in H0; [|done]. simp_run.
    apply bind_Done in H as (? & s2 & H0 & H). simp_run.
    eapply (copy_slice_extends _ IH (length h)) in H0;
      [| done | cbn; rewrite length_app; lia].
    solve_ext.
  - (* map *)
    simp_run. apply bind_Done in H as (? & s2 & H0 & H). simp_run.
    eapply (copy_map_extends _ IH (length h)) in H0;
      [| done | cbn; rewrite length_app; lia].
    solve_ext.
  - (* array *)
    destruct c; try (destruct os; [simp_run; apply extends_refl | done]).
    apply bind_Done in H as (? & s1 & H0 & H). simp_run.
    by eapply copy_array_extends in H0.
Qed.

End Frame.

(* ===================================================================== *)
(** ** The type analysis *)
(* ===================================================================== *)

(** Induction over type descriptors, through the fields of structs. *)
Lemma rtype_induction (P : rtype → Prop)
    (Hbasic : ∀ k, P (TBasic k))
    (Harray : ∀ n e, P e → P (TArray n e))
    (Hstruct : ∀ name fs, Forall (λ f, P (Type_ f)) fs → P (TStruct name fs))
    (Hnamed : ∀ name, P (TNamed name))
    (Hptr : ∀ e, P e → P (TPtr e))
    (Hslice : ∀ e, P e → P (TSlice e))
    (Hmap : ∀ k e, P k → P e → P (TMap k e))
    (Hchan : ∀ e, P e → P (TChan e))
    (Hfunc : ∀ s, P (TFunc s))
    (Hiface : ∀ n, P (TInterface n))
    (Hunsafe : P TUnsafePointer) :
  ∀ t, P t.
Proof.
  fix IH 1. intros [k|n e|name fs|name|e|e|k e|e|s|n|].
  - apply Hbasic.
  - apply Harray, IH.
  - apply Hstruct. induction fs as [|f fs IHfs]; constructor; [apply IH | apply IHfs].
  - apply Hnamed.
  - apply Hptr, IH.
  - apply Hslice, IH.
  - apply Hmap; apply IH.
  - apply Hchan, IH.
  - apply Hfunc.
  - apply Hiface.
  - apply Hunsafe.
Qed.

Lemma analyzeTypeRecursive_struct name fs visited st :
  analyzeTypeRecursive (TStruct name fs) visited st =
  match lookup_key (KNamed name) visited with
  | Some p => (p, visited, st)
  | None =>
      let p := length st in
      let st := st ++ [new_result name] in
      let st := upd p (set_IsOnlyValues true) st in
      let st := upd p (set_FieldAnalysis (Some ∅)) st in
      let st := if hasUnexportedFields fs
                then upd p (set_IsOnlyValues false) st else st in
      let '(visited, st) :=
        analyze_fields p fs ((KNamed name, p) :: visited) st in
      (p, visited, st)
  end.
Proof.
  cbn [analyzeTypeRecursive tid type_string].
  destruct (lookup_key (KNamed name) visited); [done|].
  cbn zeta.
  generalize ((KNamed name, length st) :: visited).
  generalize (if hasUnexportedFields fs
     then
      upd (length st) (set_IsOnlyValues false)
        (upd (length st) (set_FieldAnalysis (Some ∅))
           (upd (length st) (set_IsOnlyValues true)
              (st ++ [new_result name])))
     else
      upd (length st) (set_FieldAnalysis (Some ∅))
        (upd (length st) (set_IsOnlyValues true) (st ++ [new_result name]))).
  generalize (length st) as p.
  intros p st0 vis0.
  match goal with
  | |- (let '(_, _) := ?F fs vis0 st0 in _) = _ =>
      assert (∀ fs vis st, F fs vis st = analyze_fields p fs vis st) as ->;
        [|done]
  end.
  clear. induction fs as [|f fs IH]; intros vis st; [done|].
  cbn [analyze_fields]. destruct (exported f); [|apply IH].
  destruct (analyzeTypeRecursive (Type_ f) vis st) as [[q vis'] st'].
  apply IH.
Qed.

Lemma length_upd p f (st : astore) : length (upd p f st) = length st.
Proof. apply length_alter. Qed.

Lemma deref_upd_eq p f (st : astore) :
  p < length st → deref (upd p f st) p = f (deref st p).
Proof.
  intros Hp. unfold deref, upd. rewrite list_lookup_alter_eq.
  destruct (lookup_lt_is_Some_2 st p Hp) as [r ->]. done.
Qed.

Lemma deref_upd_ne p q f (st : astore) :
  p ≠ q → deref (upd p f st) q = deref st q.
Proof. intros Hp. unfold deref, upd. by rewrite list_lookup_alter_ne. Qed.

Lemma lookup_upd_ne p q f (st : astore) :
  p ≠ q → upd p f st !! q = st !! q.
Proof. intros Hp. unfold upd. by rewrite list_lookup_alter_ne. Qed.

Lemma grows_refl st : grows st st.
Proof. by split. Qed.

Lemma grows_trans st1 st2 st3 : grows st1 st2 → grows st2 st3 → grows st1 st3.
Proof.
  intros [L1 F1] [L2 F2]. split; [lia|].
  intros i Hi. rewrite F2, F1; [done | lia | lia].
Qed.

Lemma grows_app st x : grows st (st ++ [x]).
Proof.
  split; [rewrite length_app; lia|]. intros i Hi. by rewrite lookup_app_l.
Qed.

Lemma grows_upd st st1 p f :
  length st ≤ p → grows st st1 → grows st (upd p f st1).
Proof.
  intros Hp [L F]. split; [by rewrite length_upd|].
  intros i Hi. rewrite lookup_upd_ne by lia. by apply F.
Qed.

Lemma grows_deref st st' i : grows st st' → i < length st → deref st' i = deref st i.
Proof. intros [_ F] Hi. unfold deref. by rewrite F. Qed.

Lemma merge_field_grows st st1 p n q :
  length st ≤ p → grows st st1 → grows st (merge_field p n q st1).
Proof.
  intros Hp H. unfold merge_field.
  repeat first [ apply grows_upd; [done|] | case_match | done ].
Qed.

Lemma length_merge_field p n q st : length (merge_field p n q st) = length st.
Proof.
  unfold merge_field. repeat first [rewrite length_upd | case_match | done].
Qed.

(** The analysis of a type never touches an existing result: it fills in
    only the results it allocates. *)
Lemma analyzeTypeRecursive_grows t :
  ∀ visited st, grows st (analyzeTypeRecursive t visited st).2.
Proof.
  induction t as [k|n e IH|name fs IH|name|e IH|e IH|k e IHk IHe|e IH|s|n|]
    using rtype_induction; intros visited st;
    [| | rewrite analyzeTypeRecursive_struct | ..];
    cbn [analyzeTypeRecursive tid];
    (destruct (lookup_key _ visited); [apply grows_refl|]); cbn zeta.
  - apply grows_upd, grows_app. done.
  - match goal with |- context [analyzeTypeRecursive e ?v ?s] =>
      pose proof (IH v s) as H; destruct (analyzeTypeRecursive e v s) as [[q vis'] st'] end.
    cbn in *. repeat (apply grows_upd; [done|]).
    eapply grows_trans; [apply grows_app | done].
  - set (st0 := if hasUnexportedFields fs then _ else _).
    assert (grows st st0) as H0.
    { subst st0. case_match; repeat (apply grows_upd; [done|]); apply grows_app. }
    generalize dependent st0. generalize ((KNamed name, length st) :: visited).
    induction IH as [|f fs Hf _ IHfs]; intros vis st0 H0; cbn [analyze_fields].
    + done.
    + destruct (exported f); [|by apply IHfs].
      pose proof (Hf vis st0) as H.
      destruct (analyzeTypeRecursive (Type_ f) vis st0) as [[q vis'] st'].
      apply IHfs. apply merge_field_grows; [done|].
      by eapply grows_trans.
  - apply grows_upd, grows_app. done.
  - match goal with |- context [analyzeTypeRecursive e ?v ?s] =>
      pose proof (IH v s) as H; destruct (analyzeTypeRecursive e v s) as [[q vis'] st'] end.
    cbn in *. repeat (apply grows_upd; [done|]).
    eapply grows_trans; [|done]. repeat (apply grows_upd; [done|]). apply grows_app.
  - match goal with |- context [analyzeTypeRecursive e ?v ?s] =>
      pose proof (IH v s) as H; destruct (analyzeTypeRecursive e v s) as [[q vis'] st'] end.
    cbn in *. repeat (apply grows_upd; [done|]).
    eapply grows_trans; [|done]. repeat (apply grows_upd; [done|]). apply grows_app.
  - match goal with |- context [analyzeTypeRecursive k ?v ?s] =>
      pose proof (IHk v s) as H; destruct (analyzeTypeRecursive k v s) as [[qk vis'] st'] end.
    pose proof (IHe vis' st') as H'.
    destruct (analyzeTypeRecursive e vis' st') as [[qv vis''] st''].
    cbn in *. repeat (apply grows_upd; [done|]).
    eapply grows_trans; [|done]. eapply grows_trans; [|done].
    repeat (apply grows_upd; [done|]). apply grows_app.
  - repeat (apply grows_upd; [done|]). apply grows_app.
  - repeat (apply grows_upd; [done|]). apply grows_app.
  - repeat (apply grows_upd; [done|]). apply grows_app.
  - repeat (apply grows_upd; [done|]). apply grows_app.
Qed.

Lemma deref_upd p f (st : astore) i :
  deref (upd p f st) i =
  if decide (i = p ∧ p < length st) then f (deref st p) else deref st i.
Proof.
  case_decide as H.
  - destruct H as [-> H]. by apply deref_upd_eq.
  - destruct (decide (i = p)) as [->|]; [|by apply deref_upd_ne].
    unfold deref, upd. rewrite list_lookup_alter_eq.
    rewrite (lookup_ge_None_2 st p); [done | lia].
Qed.

Lemma merge_field_IsOnlyValues_false p n q st :
  p < length st →
  IsOnlyValues (deref st p) = false →
  IsOnlyValues (deref (merge_field p n q st) p) = false.
Proof.
  intros Hp H. unfold merge_field.
  repeat first
    [ done
    | rewrite deref_upd_eq by (rewrite ?length_upd; lia); cbn
    | case_match ].
Qed.

Lemma analyze_fields_IsOnlyValues_false p fs :
  ∀ visited st,
    p < length st →
    IsOnlyValues (deref st p) = false →
    IsOnlyValues (deref (analyze_fields p fs visited st).2 p) = false.
Proof.
  induction fs as [|f fs IH]; intros visited st Hp H; cbn [analyze_fields].
  - done.
  - destruct (exported f); [|by apply IH].
    pose proof (analyzeTypeRecursive_grows (Type_ f) visited st) as Hg.
    destruct (analyzeTypeRecursive (Type_ f) visited st) as [[q vis'] st'].
    cbn in Hg. apply IH.
    + rewrite length_merge_field. destruct Hg. lia.
    + apply merge_field_IsOnlyValues_false; [destruct Hg; lia|].
      by rewrite (grows_deref st st').
Qed.

Lemma analyze_fields_skip p fs :
  ∀ visited st,
    analyze_fields p fs visited st
    = analyze_fields p (filter (λ f, exported f = true) fs) visited st.
Proof.
  induction fs as [|f fs IH]; intros visited st; [done|].
  cbn [analyze_fields]. rewrite filter_cons.
  destruct (decide (exported f = true)) as [E|E].
  - cbn [analyze_fields]. rewrite E.
    destruct (analyzeTypeRecursive _ _ _) as [[q vis'] st']. apply IH.
  - apply not_true_is_false in E. rewrite E. apply IH.
Qed.

(** *** Reading [IsOnlyValues] does not influence the other fields *)

Lemma same_flags_refl r : same_flags r r.
Proof. by repeat split. Qed.

Lemma sim_refl st : sim st st.
Proof. split; [done|]. intros; apply same_flags_refl. Qed.

Lemma sim_app st1 st2 r : sim st1 st2 → sim (st1 ++ [r]) (st2 ++ [r]).
Proof.
  intros [L S]. split; [rewrite !length_app; lia|].
  intros i. unfold deref. destruct (decide (i < length st1)).
  - rewrite !lookup_app_l by lia. apply S.
  - rewrite !lookup_app_r by lia. rewrite L. apply same_flags_refl.
Qed.

Lemma sim_upd st1 st2 p f1 f2 :
  sim st1 st2 →
  (∀ r1 r2, same_flags r1 r2 → same_flags (f1 r1) (f2 r2)) →
  sim (upd p f1 st1) (upd p f2 st2).
Proof.
  intros [L S] Hf. split; [by rewrite !length_upd|].
  intros i. rewrite !deref_upd, <- L.
  case_decide; [apply Hf|]; apply S.
Qed.

(** The setters, applied on both sides, keep [same_flags]. *)
Ltac same_flags_setters :=
  let r1 := fresh in let r2 := fresh in
  intros r1 r2 (? & ? & ? & ? & ? & ? & ? & ?);
  unfold same_flags; cbn; split_and!; congruence.

Ltac sim_step :=
  match goal with
  | |- sim (upd _ _ _) (upd _ _ _) => apply sim_upd; [|same_flags_setters]
  | |- sim (_ ++ [_]) (_ ++ [_]) => apply sim_app
  | |- sim _ _ => assumption
  end.

Lemma sim_flag st1 st2 q :
  sim st1 st2 →
  ContainsPtr (deref st1 q) = ContainsPtr (deref st2 q) ∧
  ContainsSlice (deref st1 q) = ContainsSlice (deref st2 q) ∧
  ContainsMap (deref st1 q) = ContainsMap (deref st2 q) ∧
  ContainsChan (deref st1 q) = ContainsChan (deref st2 q) ∧
  ContainsFunc (deref st1 q) = ContainsFunc (deref st2 q) ∧
  ContainsIface (deref st1 q) = ContainsIface (deref st2 q).
Proof. intros [_ S]. destruct (S q) as (?&?&?&?&?&?&?&?). by split_and!. Qed.

Lemma sim_upd_l st1 st2 p b :
  sim st1 st2 → sim (upd p (set_IsOnlyValues b) st1) st2.
Proof.
  intros [L S]. split; [by rewrite length_upd|].
  intros i. rewrite deref_upd. case_decide as H; [|apply S].
  destruct H as [-> _]. destruct (S p) as (?&?&?&?&?&?&?&?).
  unfold same_flags; cbn; by split_and!.
Qed.

Lemma sim_sym st1 st2 : sim st1 st2 → sim st2 st1.
Proof.
  intros [L S]. split; [done|]. intros i.
  destruct (S i) as (?&?&?&?&?&?&?&?). unfold same_flags; by split_and!.
Qed.

Lemma sim_upd_r st1 st2 p b :
  sim st1 st2 → sim st1 (upd p (set_IsOnlyValues b) st2).
Proof. intros H. by apply sim_sym, sim_upd_l, sim_sym. Qed.

Lemma sim_if (X : TypeAnalysisResult → bool) f p q st1 st2 :
  (∀ s1 s2, sim s1 s2 → X (deref s1 q) = X (deref s2 q)) →
  (∀ r1 r2, same_flags r1 r2 → same_flags (f r1) (f r2)) →
  sim st1 st2 →
  sim (if X (deref st1 q) then upd p f st1 else st1)
      (if X (deref st2 q) then upd p f st2 else st2).
Proof.
  intros HX Hf H. rewrite (HX _ _ H).
  destruct (X (deref st2 q)); [by apply sim_upd | done].
Qed.

Lemma merge_field_sim st1 st2 p n q :
  sim st1 st2 → sim (merge_field p n q st1) (merge_field p n q st2).
Proof.
  intros H. unfold merge_field. cbv zeta.
  apply (sim_if ContainsIface); [intros; by apply sim_flag | same_flags_setters |].
  apply (sim_if ContainsFunc); [intros; by apply sim_flag | same_flags_setters |].
  apply (sim_if ContainsChan); [intros; by apply sim_flag | same_flags_setters |].
  apply (sim_if ContainsMap); [intros; by apply sim_flag | same_flags_setters |].
  apply (sim_if ContainsSlice); [intros; by apply sim_flag | same_flags_setters |].
  apply (sim_if ContainsPtr); [intros; by apply sim_flag | same_flags_setters |].
  assert (sim (upd p (λ r, set_FieldAnalysis
                 (Some (<[n:=q]> (default ∅ (FieldAnalysis r)))) r) st1)
              (upd p (λ r, set_FieldAnalysis
                 (Some (<[n:=q]> (default ∅ (FieldAnalysis r)))) r) st2)) as H0.
  { apply sim_upd; [done|]. intros r1 r2 (?&?&?&?&?&?&E&?).
    unfold same_flags; cbn. rewrite E. by split_and!. }
  repeat case_match; auto using sim_upd_l, sim_upd_r.
Qed.

(** Proves [sim] of two stores built by the same updates. *)
Ltac sim_auto :=
  lazymatch goal with
  | |- sim (upd _ (set_IsOnlyValues _) _) _ => apply sim_upd_l; sim_auto
  | |- sim _ (upd _ (set_IsOnlyValues _) _) => apply sim_upd_r; sim_auto
  | |- sim (upd _ _ ?A1) (upd _ _ ?A2) =>
      let H := fresh "Hs" in
      assert (sim A1 A2) as H by sim_auto;
      repeat match goal with
      | |- context [deref A1 ?q] =>
          let E1 := fresh in let E2 := fresh in let E3 := fresh in
          let E4 := fresh in let E5 := fresh in let E6 := fresh in
          pose proof (sim_flag A1 A2 q H) as (E1 & E2 & E3 & E4 & E5 & E6);
          rewrite ?E1, ?E2, ?E3, ?E4, ?E5, ?E6;
          clear E1 E2 E3 E4 E5 E6
      end;
      apply sim_upd; [exact H | same_flags_setters]
  | |- sim (_ ++ [_]) (_ ++ [_]) => apply sim_app; sim_auto
  | |- sim _ _ => assumption
  end.

Lemma analyze_fields_sim p fs
    (IH : Forall (λ f, ∀ visited st1 st2, sim st1 st2 →
             (analyzeTypeRecursive (Type_ f) visited st1).1
             = (analyzeTypeRecursive (Type_ f) visited st2).1 ∧
             sim (analyzeTypeRecursive (Type_ f) visited st1).2
                 (analyzeTypeRecursive (Type_ f) visited st2).2) fs) :
  ∀ visited st1 st2, sim st1 st2 →
    (analyze_fields p fs visited st1).1 = (analyze_fields p fs visited st2).1 ∧
    sim (analyze_fields p fs visited st1).2 (analyze_fields p fs visited st2).2.
Proof.
  induction IH as [|f fs Hf _ IHfs]; intros visited st1 st2 H;
    cbn [analyze_fields]; [done|].
  destruct (exported f); [|by apply IHfs].
  specialize (Hf visited st1 st2 H).
  destruct (analyzeTypeRecursive (Type_ f) visited st1) as [[q1 v1] s1].
  destruct (analyzeTypeRecursive (Type_ f) visited st2) as [[q2 v2] s2].
  cbn in Hf. destruct Hf as [[= -> ->] Hs].
  apply IHfs. by apply merge_field_sim.
Qed.

(** The analysis computes the same pointers, the same visited map and,
    [IsOnlyValues] apart, the same results from two stores that differ
    only in [IsOnlyValues]. *)
Lemma analyzeTypeRecursive_sim t :
  ∀ visited st1 st2, sim st1 st2 →
    (analyzeTypeRecursive t visited st1).1
    = (analyzeTypeRecursive t visited st2).1 ∧
    sim (analyzeTypeRecursive t visited st1).2
        (analyzeTypeRecursive t visited st2).2.
Proof.
  induction t as [k|n e IH|name fs IH|name|e IH|e IH|k e IHk IHe|e IH|s|n|]
    using rtype_induction; intros visited st1 st2 H;
    [| | rewrite !analyzeTypeRecursive_struct | ..];
    cbn [analyzeTypeRecursive tid];
    (destruct (lookup_key _ visited); [done|]); cbn zeta;
    pose proof (proj1 H) as L; rewrite <- L.
  - cbn. split; [done|]. sim_auto.
  - match goal with |- context [analyzeTypeRecursive e ?v (st1 ++ ?x)] =>
      specialize (IH v (st1 ++ x) (st2 ++ x) ltac:(sim_auto)) end.
    destruct (analyzeTypeRecursive e _ (st1 ++ _)) as [[q1 v1] s1].
    destruct (analyzeTypeRecursive e _ (st2 ++ _)) as [[q2 v2] s2].
    cbn in IH. destruct IH as [[= -> ->] Hs]. cbn. split; [done|]. sim_auto.
  - match goal with
    | |- context [analyze_fields ?p fs ?v ?a1] =>
      match goal with
      | |- context [analyze_fields p fs v ?a2] =>
          lazymatch a2 with
          | a1 => fail
          | _ => pose proof (analyze_fields_sim p fs IH v a1 a2) as Hf
          end
      end
    end.
    destruct Hf as [Hf1 Hf2]. { case_match; sim_auto. }
    destruct (analyze_fields _ fs _ _) as [v1 s1].
    destruct (analyze_fields _ fs _ _) as [v2 s2].
    cbn in *. by subst.
  - cbn. split; [done|]. sim_auto.
  - match goal with |- context [analyzeTypeRecursive e ?v ?a1] =>
      match goal with |- context [analyzeTypeRecursive e v ?a2] =>
        lazymatch a2 with a1 => fail | _ =>
          specialize (IH v a1 a2 ltac:(sim_auto)) end end end.
    destruct (analyzeTypeRecursive e _ _) as [[q1 v1] s1].
    destruct (analyzeTypeRecursive e _ _) as [[q2 v2] s2].
    cbn in IH. destruct IH as [[= -> ->] Hs]. cbn. split; [done|]. sim_auto.
  - match goal with |- context [analyzeTypeRecursive e ?v ?a1] =>
      match goal with |- context [analyzeTypeRecursive e v ?a2] =>
        lazymatch a2 with a1 => fail | _ =>
          specialize (IH v a1 a2 ltac:(sim_auto)) end end end.
    destruct (analyzeTypeRecursive e _ _) as [[q1 v1] s1].
    destruct (analyzeTypeRecursive e _ _) as [[q2 v2] s2].
    cbn in IH. destruct IH as [[= -> ->] Hs]. cbn. split; [done|]. sim_auto.
  - match goal with |- context [analyzeTypeRecursive k ?v ?a1] =>
      match goal with |- context [analyzeTypeRecursive k v ?a2] =>
        lazymatch a2 with a1 => fail | _ =>
          specialize (IHk v a1 a2 ltac:(sim_auto)) end end end.
    destruct (analyzeTypeRecursive k _ _) as [[q1 v1] s1].
    destruct (analyzeTypeRecursive k _ _) as [[q2 v2] s2].
    cbn in IHk. destruct IHk as [[= -> ->] Hs].
    specialize (IHe v2 s1 s2 Hs).
    destruct (analyzeTypeRecursive e _ s1) as [[q1' v1'] s1'].
    destruct (analyzeTypeRecursive e _ s2) as [[q2' v2'] s2'].
    cbn in IHe. destruct IHe as [[= -> ->] Hs'].
    cbn. split; [done|]. sim_auto.
  - cbn. split; [done|]. sim_auto.
  - cbn. split; [done|]. sim_auto.
  - cbn. split; [done|]. sim_auto.
  - cbn. split; [done|]. sim_auto.
Qed.

(** *** Value-only types are classified as such *)

Lemma subterms_self t : t ∈ subterms t.
Proof. destruct t; cbn; apply list_elem_of_here. Qed.

Lemma subterms_cons t : subterms t = t :: proper_subterms t.
Proof. by destruct t. Qed.

Lemma subterms_trans t :
  ∀ u v, u ∈ subterms t → v ∈ subterms u → v ∈ subterms t.
Proof.
  induction t as [k|n e IH|name fs IH|name|e IH|e IH|k e IHk IHe|e IH|s|n|]
    using rtype_induction; intros u v Hu Hv;
    try (cbn in Hu; apply list_elem_of_singleton in Hu as ->; exact Hv).
  - cbn in Hu. apply elem_of_cons in Hu as [->|Hu]; [done|].
    cbn. right. by eapply IH.
  - cbn in Hu. apply elem_of_cons in Hu as [->|Hu]; [done|].
    cbn. right. apply list_elem_of_In, in_flat_map in Hu as (f & Hf & Hu).
    apply list_elem_of_In, in_flat_map. exists f. split; [done|].
    apply list_elem_of_In. rewrite Forall_forall in IH.
    eapply IH; [by apply list_elem_of_In | by apply list_elem_of_In | done].
Qed.

Lemma proper_subterms_trans t u v :
  u ∈ subterms t → v ∈ proper_subterms u → v ∈ proper_subterms t.
Proof.
  intros Hu Hv. rewrite subterms_cons in Hu.
  apply elem_of_cons in Hu as [->|Hu]; [done|].
  assert (v ∈ subterms u) as Hv' by (rewrite subterms_cons; by right).
  destruct t; cbn in *; try by apply elem_of_nil in Hu.
  - by eapply subterms_trans.
  - apply list_elem_of_In, in_flat_map in Hu as (f & Hf & Hu).
    apply list_elem_of_In, in_flat_map. exists f. split; [done|].
    apply list_elem_of_In. eapply subterms_trans; [|done]. by apply list_elem_of_In.
Qed.

Lemma value_only_subterm t :
  value_only t = true → ∀ u, u ∈ subterms t → value_only u = true.
Proof.
  induction t as [k|n e IH|name fs IH|name|e IH|e IH|k e IHk IHe|e IH|s|n|]
    using rtype_induction; intros H u Hu; try done.
  - cbn in Hu. by apply list_elem_of_singleton in Hu as ->.
  - cbn in Hu. apply elem_of_cons in Hu as [->|Hu]; [done|]. by apply IH.
  - cbn in Hu. apply elem_of_cons in Hu as [->|Hu]; [done|].
    apply list_elem_of_In, in_flat_map in Hu as (f & Hf & Hu).
    cbn in H. rewrite forallb_forall in H. specialize (H f Hf).
    apply andb_true_iff in H as [_ H].
    rewrite Forall_forall in IH.
    apply (IH f); [by apply list_elem_of_In | done | by apply list_elem_of_In].
Qed.

Lemma no_self_nesting_subterm t :
  no_self_nesting t = true → ∀ u, u ∈ subterms t → no_self_nesting u = true.
Proof.
  induction t as [k|n e IH|name fs IH|name|e IH|e IH|k e IHk IHe|e IH|s|n|]
    using rtype_induction; intros H u Hu;
    try (cbn in Hu; by apply list_elem_of_singleton in Hu as ->).
  - cbn in Hu. apply elem_of_cons in Hu as [->|Hu]; [done|]. by apply IH.
  - cbn in Hu. apply elem_of_cons in Hu as [->|Hu]; [done|].
    apply list_elem_of_In, in_flat_map in Hu as (f & Hf & Hu).
    cbn in H. rewrite forallb_forall in H. specialize (H f Hf).
    apply andb_true_iff in H as [_ H].
    rewrite Forall_forall in IH.
    apply (IH f); [by apply list_elem_of_In | done | by apply list_elem_of_In].
Qed.

Lemma struct_free_of_subterm name t :
  struct_free_of name t = true →
  ∀ u fs, u ∈ subterms t → u ≠ TStruct name fs.
Proof.
  induction t as [k|n e IH|name' fs' IH|name'|e IH|e IH|k e IHk IHe|e IH|s|n|]
    using rtype_induction; intros H u fs Hu;
    try (cbn in Hu; by apply list_elem_of_singleton in Hu as ->).
  - cbn in Hu. apply elem_of_cons in Hu as [->|Hu]; [done|]. by apply IH.
  - cbn in H. apply andb_true_iff in H as [Hn H].
    cbn in Hu. apply elem_of_cons in Hu as [->|Hu].
    + intros [= -> _]. by rewrite bool_decide_eq_true_2 in Hn.
    + apply list_elem_of_In, in_flat_map in Hu as (f & Hf & Hu).
      rewrite forallb_forall in H. specialize (H f Hf).
      rewrite Forall_forall in IH.
      apply (IH f); [by apply list_elem_of_In | done | by apply list_elem_of_In].
Qed.

(** A value-only type without self-nesting does not contain a type of
    its own identity. *)
Lemma proper_subterm_tid t :
  value_only t = true → no_self_nesting t = true →
  ∀ u, u ∈ proper_subterms t → tid u ≠ tid t.
Proof.
  induction t as [k|n e IH|name fs IH|name|e IH|e IH|k e IHk IHe|e IH|s|n|]
    using rtype_induction; intros Hv Hn u Hu; try done.
  - by apply elem_of_nil in Hu.
  - cbn in Hu, Hv, Hn. intros E.
    pose proof (value_only_subterm e Hv u Hu) as Hvu.
    destruct u; try done. cbn in E. injection E as -> E.
    apply (IH Hv Hn u); [|done].
    eapply proper_subterms_trans; [done|]. cbn. apply subterms_self.
  - cbn in Hu. apply list_elem_of_In, in_flat_map in Hu as (f & Hf & Hu).
    cbn in Hn, Hv. rewrite forallb_forall in Hn, Hv.
    specialize (Hn f Hf). apply andb_true_iff in Hn as [Hs _].
    specialize (Hv f Hf). apply andb_true_iff in Hv as [_ Hv].
    apply list_elem_of_In in Hu.
    pose proof (value_only_subterm _ Hv u Hu) as Hvu.
    intros E. destruct u; try done. cbn in E. injection E as ->.
    by eapply struct_free_of_subterm.
Qed.

Lemma iov_upd_flag p f st i :
  (∀ r, IsOnlyValues (f r) = IsOnlyValues r) →
  iov (upd p f st) i = iov st i.
Proof.
  intros Hf. unfold iov. rewrite deref_upd.
  case_decide as H; [destruct H as [-> _]; apply Hf | done].
Qed.

Lemma iov_upd_true p st i :
  iov st i = true → iov (upd p (set_IsOnlyValues true) st) i = true.
Proof. intros H. unfold iov. rewrite deref_upd. by case_decide. Qed.

Lemma iov_upd_true_eq p st :
  p < length st → iov (upd p (set_IsOnlyValues true) st) p = true.
Proof. intros H. unfold iov. by rewrite deref_upd_eq. Qed.

Lemma iov_app st r i : i < length st → iov (st ++ [r]) i = iov st i.
Proof. intros H. unfold iov, deref. by rewrite lookup_app_l. Qed.

Lemma iov_merge_field p n q st i :
  iov st q = true → iov (merge_field p n q st) i = iov st i.
Proof.
  intros H. unfold merge_field. cbv zeta.
  assert (iov (upd p (λ r, set_FieldAnalysis
            (Some (<[n:=q]> (default ∅ (FieldAnalysis r)))) r) st) q = true) as H'
    by (by rewrite iov_upd_flag).
  unfold iov in H'. rewrite H'.
  repeat first [ case_match | rewrite iov_upd_flag by done | done ].
Qed.

Lemma settles_refl visited st : valid visited st → settles visited st visited st.
Proof. intros H. split_and!; auto. intros k p E1 E2. congruence. Qed.

Lemma analyze_fields_value_only p fs
    (IH : Forall (λ f, value_only (Type_ f) = true →
                       no_self_nesting (Type_ f) = true →
             ∀ visited st, valid visited st → settled visited st (Type_ f) →
               let r := analyzeTypeRecursive (Type_ f) visited st in
               iov r.2 r.1.1 = true ∧ r.1.1 < length r.2 ∧
               settles visited st r.1.2 r.2) fs) :
  Forall (λ f, exported f = true ∧ value_only (Type_ f) = true ∧
               no_self_nesting (Type_ f) = true) fs →
  ∀ visited st,
    valid visited st → p < length st → iov st p = true →
    Forall (λ f, settled visited st (Type_ f)) fs →
    let r := analyze_fields p fs visited st in
    iov r.2 p = true ∧ settles visited st r.1 r.2.
Proof.
  induction IH as [|f fs Hf _ IHfs]; intros Hfs visited st Hval Hp Hiov Hset;
    cbn [analyze_fields].
  - split; [done|]. by apply settles_refl.
  - apply Forall_cons in Hfs as [(He & Hv & Hn) Hfs].
    apply Forall_cons in Hset as [Hs Hset]. rewrite He.
    specialize (Hf Hv Hn visited st Hval Hs).
    pose proof (analyzeTypeRecursive_grows (Type_ f) visited st) as Hg.
    destruct (analyzeTypeRecursive (Type_ f) visited st) as [[q vis1] st1].
    cbn in Hf, Hg. destruct Hf as (Hq & Hql & Hval1 & Hlen & Hmono & Hnew & Hkeep).
    assert (∀ i, iov (merge_field p (Name f) q st1) i = iov st1 i) as Hm
      by (intros; by apply iov_merge_field).
    specialize (IHfs Hfs vis1 (merge_field p (Name f) q st1)).
    destruct IHfs as (Hp' & Hval2 & Hlen2 & Hmono2 & Hnew2 & Hkeep2).
    + intros k p0 E. rewrite length_merge_field. by eapply Hval1.
    + rewrite length_merge_field. lia.
    + rewrite Hm. by apply Hkeep.
    + apply Forall_forall. intros f' Hf' u p0 Hu E.
      rewrite Forall_forall in Hset. rewrite Hm.
      destruct (lookup_key (tid u) visited) as [p1|] eqn:E1.
      * pose proof (Hmono _ _ E1) as E2. rewrite E in E2. injection E2 as ->.
        apply Hkeep; [by eapply Hval|]. by eapply (Hset f').
      * by eapply Hnew.
    + split; [done|]. rewrite length_merge_field in *. split_and!.
      * done.
      * lia.
      * auto.
      * intros k p0 E E0.
        destruct (lookup_key k vis1) as [p1|] eqn:E1.
        -- pose proof (Hmono2 _ _ E1) as E2. rewrite E in E2. injection E2 as ->.
           apply Hkeep2; [by eapply Hval1|]. rewrite Hm. by eapply Hnew.
        -- by eapply Hnew2.
      * intros i Hi Ht. apply Hkeep2; [lia|]. rewrite Hm. by apply Hkeep.
Qed.

Lemma lookup_key_cons k k' p visited :
  lookup_key k ((k', p) :: visited) =
  if decide (k = k') then Some p else lookup_key k visited.
Proof. done. Qed.

Lemma valid_cons k visited st r :
  valid visited st → valid ((k, length st) :: visited) (st ++ [r]).
Proof.
  intros H k' p. rewrite lookup_key_cons, length_app. cbn.
  case_decide; [intros [= <-]; lia|]. intros E. apply H in E. lia.
Qed.

Lemma valid_length visited st st' :
  length st ≤ length st' → valid visited st → valid visited st'.
Proof. intros L H k p E. apply H in E. lia. Qed.

Lemma hasUnexportedFields_false fs :
  Forall (λ f, exported f = true) fs → hasUnexportedFields fs = false.
Proof.
  unfold hasUnexportedFields.
  induction 1 as [|f fs Hf _ IH]; [done|]. cbn. by rewrite Hf, IH.
Qed.

(** A value-only type is classified as value-only, whatever has been
    analysed before, provided the earlier results for its components
    are value-only. *)
Lemma analyzeTypeRecursive_value_only t :
  value_only t = true → no_self_nesting t = true →
  ∀ visited st, valid visited st → settled visited st t →
    let r := analyzeTypeRecursive t visited st in
    iov r.2 r.1.1 = true ∧ r.1.1 < length r.2 ∧ settles visited st r.1.2 r.2.
Proof.
  induction t as [k|n e IH|name fs IH|name|e IH|e IH|k e IHk IHe|e IH|s|n|]
    using rtype_induction; intros Hv Hn visited st Hval Hset; try done;
    [| | rewrite analyzeTypeRecursive_struct];
    cbn [analyzeTypeRecursive tid];
    (destruct (lookup_key _ visited) as [p|] eqn:Hmiss;
     [ cbn; split; [|split];
       [ by eapply (Hset _ _ (subterms_self _))
       | by eapply Hval
       | by apply settles_refl ] |]); cbn zeta.
  - (* scalar *)
    cbn. rewrite iov_upd_true_eq by (rewrite length_app; cbn; lia).
    rewrite length_upd, length_app. cbn.
    split; [done|]. split; [lia|]. unfold settles. split_and!.
    + eapply valid_length; [|by apply valid_cons]. by rewrite length_upd.
    + rewrite length_upd, length_app. lia.
    + intros k' p E. rewrite lookup_key_cons. case_decide; [congruence | done].
    + intros k' p. rewrite lookup_key_cons. case_decide; [|congruence].
      intros [= <-] _. apply iov_upd_true_eq. rewrite length_app; cbn; lia.
    + intros i Hi Ht. apply iov_upd_true. by rewrite iov_app.
  - (* array *)
    cbn in Hv, Hn.
    specialize (IH Hv Hn ((KArray n (tid e), length st) :: visited)
                  (st ++ [new_result (type_string (TArray n e))])).
    pose proof (analyzeTypeRecursive_grows e
      ((KArray n (tid e), length st) :: visited)
      (st ++ [new_result (type_string (TArray n e))])) as Hg.
    destruct (analyzeTypeRecursive e _ _) as [[q vis1] st1].
    cbn in IH, Hg.
    destruct IH as (Hq & Hql & Hval1 & Hlen & Hmono & Hnew & Hkeep).
    { by apply valid_cons. }
    { intros u p Hu. rewrite lookup_key_cons. case_decide as E.
      - exfalso. by eapply (proper_subterm_tid (TArray n e)).
      - intros E'. rewrite iov_app by (by eapply Hval).
        eapply Hset; [|done]. cbn. by right. }
    rewrite length_app in Hlen. cbn in Hlen. cbn.
    unfold iov in Hq. rewrite Hq.
    rewrite !length_upd.
    split. { repeat rewrite iov_upd_flag by done. apply iov_upd_true_eq. lia. }
    split. { lia. }
    unfold settles. split_and!.
    + eapply valid_length; [|exact Hval1]. by rewrite !length_upd.
    + rewrite !length_upd. lia.
    + intros k p E. apply Hmono. rewrite lookup_key_cons.
      case_decide; [congruence | done].
    + intros k p E E0. repeat rewrite iov_upd_flag by done.
      destruct (decide (k = KArray n (tid e))) as [->|Hk].
      * assert (lookup_key (KArray n (tid e)) vis1 = Some (length st)) as E1.
        { apply Hmono. rewrite lookup_key_cons. by rewrite decide_True. }
        rewrite E in E1. injection E1 as ->. apply iov_upd_true_eq. lia.
      * apply iov_upd_true. eapply Hnew; [done|].
        rewrite lookup_key_cons. by rewrite decide_False.
    + intros i Hi Ht. repeat rewrite iov_upd_flag by done.
      apply iov_upd_true, Hkeep; [rewrite length_app; lia|].
      by rewrite iov_app.
  - (* struct *)
    cbn in Hv, Hn.
    assert (Forall (λ f, exported f = true ∧ value_only (Type_ f) = true ∧
                         no_self_nesting (Type_ f) = true) fs) as Hfs.
    { apply Forall_forall. intros f Hf. apply list_elem_of_In in Hf.
      rewrite forallb_forall in Hv, Hn.
      specialize (Hv f Hf). specialize (Hn f Hf).
      apply andb_true_iff in Hv as [? ?]. apply andb_true_iff in Hn as [? ?].
      done. }
    rewrite hasUnexportedFields_false
      by (eapply Forall_impl; [exact Hfs | by intros f (? & _)]).
    set (st0 := upd (length st) (set_FieldAnalysis (Some ∅))
                  (upd (length st) (set_IsOnlyValues true)
                     (st ++ [new_result name]))).
    assert (length st0 = S (length st)) as Hl0.
    { subst st0. rewrite !length_upd, length_app. cbn. lia. }
    assert (∀ i, i < length st → iov st i = true → iov st0 i = true) as Hk0.
    { intros i Hi Ht. subst st0. rewrite iov_upd_flag by done.
      apply iov_upd_true. by rewrite iov_app. }
    assert (iov st0 (length st) = true) as Hp0.
    { subst st0. rewrite iov_upd_flag by done. apply iov_upd_true_eq.
      rewrite length_app. cbn. lia. }
    pose proof (analyze_fields_value_only (length st) fs IH Hfs
                  ((KNamed name, length st) :: visited) st0) as H.
    destruct (analyze_fields _ fs _ st0) as [vis1 st1].
    cbn in H. destruct H as (Hp & Hval1 & Hlen & Hmono & Hnew & Hkeep).
    { eapply valid_length; [|by apply (valid_cons _ _ _ (new_result name))].
      subst st0. by rewrite !length_upd. }
    { lia. }
    { done. }
    { apply Forall_forall. intros f Hf u p Hu. rewrite lookup_key_cons.
      case_decide as E.
      - intros [= <-]. done.
      - intros E'. apply Hk0; [by eapply Hval|].
        eapply Hset; [|done]. cbn. right.
        apply list_elem_of_In, in_flat_map. exists f.
        split; by apply list_elem_of_In. }
    cbn. split; [done|]. split; [lia|]. unfold settles. split_and!.
    + done.
    + lia.
    + intros k p E. apply Hmono. rewrite lookup_key_cons.
      case_decide; [congruence | done].
    + intros k p E E0.
      destruct (decide (k = KNamed name)) as [->|Hk].
      * assert (lookup_key (KNamed name) vis1 = Some (length st)) as E1.
        { apply Hmono. rewrite lookup_key_cons. by rewrite decide_True. }
        rewrite E in E1. by injection E1 as ->.
      * eapply Hnew; [done|]. rewrite lookup_key_cons. by rewrite decide_False.
    + intros i Hi Ht. apply Hkeep; [lia|]. by apply Hk0.
Qed.

(** *** The field map of a struct *)

Lemma merge_field_FieldAnalysis p n q st fa :
  p < length st →
  FieldAnalysis (deref st p) = Some fa →
  FieldAnalysis (deref (merge_field p n q st) p) = Some (<[n := q]> fa).
Proof.
  intros Hp H. unfold merge_field. cbv zeta.
  repeat first
    [ case_match
    | rewrite deref_upd_eq by (rewrite ?length_upd; lia); cbn [FieldAnalysis
        set_IsOnlyValues set_ContainsPtr set_ContainsSlice set_ContainsMap
        set_ContainsChan set_ContainsFunc set_ContainsIface set_FieldAnalysis] ];
    by rewrite H.
Qed.

Lemma analyze_fields_FieldAnalysis p fs :
  ∀ visited st fa,
    p < length st →
    FieldAnalysis (deref st p) = Some fa →
    ∃ fa', FieldAnalysis (deref (analyze_fields p fs visited st).2 p) = Some fa'
           ∧ dom fa' = dom fa ∪
               list_to_set (Name <$> filter (λ f, exported f = true) fs).
Proof.
  induction fs as [|f fs IH]; intros visited st fa Hp H; cbn [analyze_fields].
  - exists fa. split; [done|]. cbn. set_solver.
  - rewrite filter_cons. destruct (decide (exported f = true)) as [E|E].
    + rewrite E.
      pose proof (analyzeTypeRecursive_grows (Type_ f) visited st) as Hg.
      destruct (analyzeTypeRecursive (Type_ f) visited st) as [[q vis'] st'].
      cbn in Hg.
      destruct (IH vis' (merge_field p (Name f) q st') (<[Name f := q]> fa))
        as (fa' & E1 & E2).
      * rewrite length_merge_field. destruct Hg. lia.
      * apply merge_field_FieldAnalysis; [destruct Hg; lia|].
        by rewrite (grows_deref st st').
      * exists fa'. split; [done|]. rewrite E2, dom_insert_L. cbn. set_solver.
    + apply not_true_is_false in E. rewrite E. by apply IH.
Qed.

(* ===================================================================== *)
(** ** The call-site cache *)
(* ===================================================================== *)

Lemma getOrCreate_hit T key g info :
  businessCopyCache g !! key = Some info →
  getOrCreateBusinessCopyInfo T key g = (info, g).
Proof. intros H. unfold getOrCreateBusinessCopyInfo. by rewrite H. Qed.

Lemma getOrCreate_stores T key g :
  businessCopyCache (getOrCreateBusinessCopyInfo T key g).2 !! key
  = Some (getOrCreateBusinessCopyInfo T key g).1.
Proof.
  unfold getOrCreateBusinessCopyInfo.
  destruct (businessCopyCache g !! key) eqn:E; [done|].
  destruct (initializeCopyInfo _ _). cbn. apply lookup_insert_eq.
Qed.

Lemma getOrCreate_keeps T key' g key info :
  businessCopyCache g !! key = Some info →
  businessCopyCache (getOrCreateBusinessCopyInfo T key' g).2 !! key
  = Some info.
Proof.
  intros H. unfold getOrCreateBusinessCopyInfo.
  destruct (businessCopyCache g !! key') eqn:E; [done|].
  destruct (initializeCopyInfo _ _). cbn.
  rewrite lookup_insert_ne; [done | congruence].
Qed.

Lemma later_calls_keep calls : ∀ g key info,
  businessCopyCache g !! key = Some info →
  businessCopyCache (later_calls calls g) !! key = Some info.
Proof.
  induction calls as [|[T k] calls IH]; intros g key info H; [done|].
  cbn. apply IH. by apply getOrCreate_keeps.
Qed.

(** C8.  Once [getOrCreateBusinessCopyInfo] has been called for a key,
    every later call with that key, after any number of other calls and
    whatever type argument it is given, returns the entry of the first
    call and changes neither the caches nor the analysis store. *)
Theorem call_site_cache_permanence
    (T1 T2 : rtype) (key : string) (calls : list (rtype * string))
    (g : globals) :
  let first := getOrCreateBusinessCopyInfo T1 key g in
  let g' := later_calls calls first.2 in
  getOrCreateBusinessCopyInfo T2 key g' = (first.1, g').
Proof.
  cbn. apply getOrCreate_hit, later_calls_keep, getOrCreate_stores.
Qed.

(** The hazard of the permanence: under a key first used for [int], a
    slice is classified as value-only. *)
Example call_site_cache_first_type_wins :
  let g := (getOrCreateBusinessCopyInfo (TBasic Int) "k" init_globals).2 in
  bIsOnlyValues (getOrCreateBusinessCopyInfo (TSlice (TBasic Int)) "k" g).1
  = true
  ∧ bIsOnlyValues
      (getOrCreateBusinessCopyInfo (TSlice (TBasic Int)) "k2" g).1 = false.
Proof. split; vm_compute; reflexivity. Qed.

(* ===================================================================== *)
(** ** Instantiation at an interface type *)
(* ===================================================================== *)

Lemma deref_app_new (st : astore) r : deref (st ++ [r]) (length st) = r.
Proof. unfold deref. rewrite lookup_app_r by lia. by rewrite Nat.sub_diag. Qed.

(** C10.  When the type parameter is an interface type, the zero value
    has no reflect type, the typed manager holds the synthetic analysis
    named "nil" with [IsOnlyValues] set, and [Copy] of a value whose
    dynamic value has no [DeepCopy] method returns the source itself:
    the same boxed value, on an untouched heap, whatever the recursion
    budget (no traversal takes place). *)
Theorem interface_instantiation_returns_source
    (MethodByName : tkey → option Method) (fuel : nat) (n : string)
    (dyn : value) (h : heap) (g : globals)
    (Hno : hasDeepCopyMethod MethodByName (ValueOf (VIface n (Some dyn)))
           = None) :
  TypeOf_zero (TInterface n) = None ∧
  (let '(tm, g1) := getTypedManager (TInterface n) g in
   let '(a, g2) := typed_getOrAnalyzeType tm g1 in
   trtype tm = None ∧
   TypeName (deref (results (defaultManager g2)) a) = "nil" ∧
   IsOnlyValues (deref (results (defaultManager g2)) a) = true) ∧
  ∃ g', Copy MethodByName fuel (TInterface n) (VIface n (Some dyn)) h g
        = Done (VIface n (Some dyn), h, g').
Proof.
  split; [done|]. split.
  - cbn. by rewrite deref_app_new.
  - unfold Copy. simpl in *. rewrite Hno. cbn.
    rewrite deref_app_new. cbn. eauto.
Qed.

(** Copying a slice through [Copy[any]] hands back the very same backing
    array. *)
Lemma interface_instantiation_returns_source_witness :
  let src := VIface "any"
               (Some (VSlice (TBasic Int) (Some (mkSlice 0 0 2 3)))) in
  let h := [CArr [VBasic Int (DNum 1); VBasic Int (DNum 2);
                  VBasic Int (DNum 0)]] in
  ∃ g', Copy (λ _, None) 0 (TInterface "any") src h init_globals
        = Done (src, h, g').
Proof.
  cbn zeta.
  exact (proj2 (proj2 (interface_instantiation_returns_source
    (λ _, None) 0 "any" (VSlice (TBasic Int) (Some (mkSlice 0 0 2 3)))
    [CArr [VBasic Int (DNum 1); VBasic Int (DNum 2); VBasic Int (DNum 0)]]
    init_globals eq_refl))).
Defined.

(* ===================================================================== *)
(** ** The classifier and non-exported fields *)
(* ===================================================================== *)

Lemma hasUnexportedFields_filter fs :
  hasUnexportedFields (filter (λ f, exported f = true) fs) = false.
Proof.
  apply hasUnexportedFields_false, Forall_forall.
  intros f Hf. by apply list_elem_of_filter in Hf as [? _].
Qed.

Lemma struct_filter_sim name fs st :
  let r := analyzeTypeRecursive (TStruct name fs) [] st in
  let r' := analyzeTypeRecursive
              (TStruct name (filter (λ f, exported f = true) fs)) [] st in
  r'.1 = r.1 ∧ sim r.2 r'.2.
Proof.
  cbn zeta. rewrite !analyzeTypeRecursive_struct. cbn [lookup_key].
  cbn zeta. rewrite hasUnexportedFields_filter.
  rewrite (analyze_fields_skip _ fs).
  set (a2 := upd (length st) (set_FieldAnalysis (Some ∅)) _).
  set (a1 := if hasUnexportedFields fs then _ else _).
  assert (sim a1 a2) as Hs.
  { subst a1. case_match; [apply sim_upd_l|]; apply sim_refl. }
  pose proof (analyze_fields_sim (length st)
    (filter (λ f, exported f = true) fs)) as H.
  specialize (H ltac:(apply Forall_forall; intros f _;
                      apply analyzeTypeRecursive_sim)
                [(KNamed name, length st)] a1 a2 Hs).
  destruct (analyze_fields _ _ _ a1) as [v1 s1].
  destruct (analyze_fields _ _ _ a2) as [v2 s2].
  cbn in *. destruct H as [-> H]. done.
Qed.

Lemma struct_unexported_IsOnlyValues name fs st :
  hasUnexportedFields fs = true →
  IsOnlyValues (deref (analyzeTypeRecursive (TStruct name fs) [] st).2
                  (analyzeTypeRecursive (TStruct name fs) [] st).1.1) = false.
Proof.
  intros Hun. rewrite analyzeTypeRecursive_struct. cbn [lookup_key].
  cbn zeta. rewrite Hun.
  pose proof (analyze_fields_IsOnlyValues_false (length st) fs
    [(KNamed name, length st)]
    (upd (length st) (set_IsOnlyValues false)
       (upd (length st) (set_FieldAnalysis (Some ∅))
          (upd (length st) (set_IsOnlyValues true)
             (st ++ [new_result name]))))) as H.
  destruct (analyze_fields _ _ _ _) as [vis' st']. cbn in *. apply H.
  - rewrite !length_upd, length_app. cbn. lia.
  - rewrite deref_upd_eq; [done|]. rewrite !length_upd, length_app. cbn. lia.
Qed.

(** C7.  The analysis of a struct type, as [getOrAnalyzeType] starts it
    (empty visited map, any store):
    - with a non-exported field, [IsOnlyValues] is false;
    - the non-exported fields are skipped: the analysis of the struct
      without them returns the same pointer and visited map and, apart
      from [IsOnlyValues], the same results (so the same flags and the
      same [FieldAnalysis]), and the keys of [FieldAnalysis] are the
      names of the exported fields;
    - with exported fields only, all of value-only types, [IsOnlyValues]
      is true. *)
Theorem struct_analysis_unexported_fields
    (name : string) (fs : list (StructField rtype)) (st : astore) :
  let r := analyzeTypeRecursive (TStruct name fs) [] st in
  let r' := analyzeTypeRecursive
              (TStruct name (filter (λ f, exported f = true) fs)) [] st in
  (hasUnexportedFields fs = true → IsOnlyValues (deref r.2 r.1.1) = false) ∧
  (r'.1 = r.1 ∧ sim r.2 r'.2 ∧
   same_flags (deref r.2 r.1.1) (deref r'.2 r'.1.1)) ∧
  (∃ fa, FieldAnalysis (deref r.2 r.1.1) = Some fa ∧
         dom fa = list_to_set (Name <$> filter (λ f, exported f = true) fs)) ∧
  (value_only (TStruct name fs) = true →
   no_self_nesting (TStruct name fs) = true →
   IsOnlyValues (deref r.2 r.1.1) = true).
Proof.
  cbn zeta. split; [|split; [|split]].
  - apply struct_unexported_IsOnlyValues.
  - pose proof (struct_filter_sim name fs st) as [E Hs]. cbn zeta in E, Hs.
    split; [done|]. split; [done|]. rewrite E. apply Hs.
  - rewrite analyzeTypeRecursive_struct. cbn [lookup_key]. cbn zeta.
    set (a1 := if hasUnexportedFields fs then _ else _).
    destruct (analyze_fields_FieldAnalysis (length st) fs
                [(KNamed name, length st)] a1 ∅) as (fa & E1 & E2).
    + subst a1. case_match; rewrite !length_upd, length_app; cbn; lia.
    + subst a1. case_match;
        repeat (rewrite deref_upd_eq
                  by (rewrite ?length_upd, length_app; cbn; lia); cbn); done.
    + destruct (analyze_fields _ _ _ a1) as [v1 s1]. cbn in *.
      exists fa. split; [done|]. rewrite E2. set_solver.
  - intros Hv Hn.
    pose proof (analyzeTypeRecursive_value_only (TStruct name fs) Hv Hn [] st)
      as H.
    destruct H as (H & _); [done | | exact H].
    intros u p _ E. done.
Qed.

(** [TestStruct] of the tests has a non-exported field;
    [NestedValueStruct] is value-only. *)
Lemma struct_analysis_unexported_fields_witness :
  IsOnlyValues (deref (analyzeTypeRecursive Examples.TestStruct [] []).2 0)
  = false ∧
  IsOnlyValues (deref (analyzeTypeRecursive Examples.NestedValueStruct [] []).2 0)
  = true.
Proof.
  split.
  - exact (proj1 (struct_analysis_unexported_fields "TestStruct"
             [mkField "Int" "" (TBasic Int); mkField "String" "" (TBasic String);
              mkField "Float" "" (TBasic Float64);
              mkField "unexported" "deepcopy" (TBasic String)] [])
             eq_refl).
  - exact (proj2 (proj2 (proj2
             (struct_analysis_unexported_fields "NestedValueStruct"
                [mkField "Basic" "" Examples.OnlyValueStruct;
                 mkField "Count" "" (TBasic Int)] [])))
             eq_refl eq_refl).
Defined.

(* ===================================================================== *)
(** ** Nil, empty, and the fields that are not exported *)
(* ===================================================================== *)

Lemma Set_same v : Set_ (zero (type_of v)) v = Some v.
Proof.
  destruct v as [k d|e p|n d|name fs|e sh|kt e m|e os|e ch|sg f|p]; cbn;
    try (rewrite decide_True by done; done).
  - by destruct d.
  - rewrite decide_True; [done|]. cbn. by rewrite length_replicate.
Qed.

(** C3.  At [copyRecursive], with the destination slot every call site
    passes (the zero value of the source's type):
    - a nil pointer, interface, slice or map is copied to nil, in one
      step and without touching the heap;
    - the copy of a non-nil slice is a non-nil slice of the same length
      and capacity on a fresh backing array, the copy of a non-nil map a
      non-nil map at a fresh address;
    - a non-nil empty slice or map is copied, in one step, to a non-nil
      empty slice (of the same capacity) or map. *)
Theorem nil_empty_preservation
    (MethodByName : tkey → option Method) (fuel : nat) (s : cstate) :
  (∀ e, copyRecursive MethodByName (S fuel) (VPtr e None)
          (zero (TPtr e)) s = Done (VPtr e None, s)) ∧
  (∀ n, copyRecursive MethodByName (S fuel) (VIface n None)
          (zero (TInterface n)) s = Done (VIface n None, s)) ∧
  (∀ e, copyRecursive MethodByName (S fuel) (VSlice e None)
          (zero (TSlice e)) s = Done (VSlice e None, s)) ∧
  (∀ k e, copyRecursive MethodByName (S fuel) (VMap k e None)
            (zero (TMap k e)) s = Done (VMap k e None, s)) ∧
  (∀ e sh r s',
     copyRecursive MethodByName fuel (VSlice e (Some sh)) (zero (TSlice e)) s
       = Done (r, s') →
     r = VSlice e (Some (mkSlice (length (mem s)) 0 (Len sh) (Cap sh))) ∧
     length (mem s) < length (mem s')) ∧
  (∀ k e m r s',
     copyRecursive MethodByName fuel (VMap k e (Some m)) (zero (TMap k e)) s
       = Done (r, s') →
     r = VMap k e (Some (length (mem s))) ∧
     length (mem s) < length (mem s')) ∧
  (∀ e sh vs,
     Len sh = 0 → mem s !! Data sh = Some (CArr vs) → Off sh ≤ length vs →
     copyRecursive MethodByName (S fuel) (VSlice e (Some sh))
       (zero (TSlice e)) s
     = Done (VSlice e (Some (mkSlice (length (mem s)) 0 0 (Cap sh))),
             mkState (mem s ++ [CArr (replicate (Cap sh) (zero e))])
               (visited s))) ∧
  (∀ k e m,
     mem s !! m = Some (CMap []) →
     copyRecursive MethodByName (S fuel) (VMap k e (Some m)) (zero (TMap k e)) s
     = Done (VMap k e (Some (length (mem s))),
             mkState (mem s ++ [CMap []]) (visited s))).
Proof.
  split_and!.
  - intros e. cbn. by rewrite decide_True.
  - done.
  - intros e. cbn. by rewrite decide_True.
  - intros k e. cbn. by rewrite decide_True.
  - intros e sh r s' H. destruct fuel as [|fuel]; [done|].
    cbn [copyRecursive] in H. destruct s as [h vis]. simp_run.
    cbn in E. rewrite decide_True in E by done. injection E as <-.
    apply bind_Done in H as (? & s1 & H0 & H).
    destruct (decide _) in H0; [|done]. simp_run.
    apply bind_Done in H as (? & s2 & H0 & H). simp_run.
    split; [done|].
    eapply (copy_slice_extends _ (copyRecursive_extends MethodByName fuel)
              (length h)) in H0; cbn; rewrite ?length_app; cbn; try lia.
    apply extends_length in H0. cbn in H0. rewrite length_app in H0.
    cbn in H0. lia.
  - intros k e m r s' H. destruct fuel as [|fuel]; [done|].
    cbn [copyRecursive] in H. destruct s as [h vis]. simp_run.
    cbn in E. rewrite decide_True in E by done. injection E as <-.
    apply bind_Done in H as (? & s2 & H0 & H). simp_run.
    split; [done|].
    eapply (copy_map_extends _ (copyRecursive_extends MethodByName fuel)
              (length h)) in H0; cbn; rewrite ?length_app; cbn; try lia.
    apply extends_length in H0. cbn in H0. rewrite length_app in H0.
    cbn in H0. lia.
  - intros e sh vs HL Hc Ho. destruct s as [h vis]. cbn in *.
    unfold bind, alloc, lift, load_arr, get_mem, bind. cbn.
    rewrite decide_True by done. cbn.
    rewrite lookup_app_l by (by eapply lookup_lt_Some). rewrite Hc. cbn.
    rewrite HL, Nat.add_0_r. rewrite decide_True by done. cbn. done.
  - intros k e m Hc. destruct s as [h vis]. cbn in *.
    unfold bind, alloc, lift, load_map, get_mem, bind. cbn.
    rewrite decide_True by done. cbn.
    rewrite lookup_app_l by (by eapply lookup_lt_Some). rewrite Hc. cbn.
    done.
Qed.

(** An empty, non-nil [[]int] of capacity 2 and an empty, non-nil map. *)
Lemma nil_empty_preservation_witness :
  let s := mkState [CArr [VBasic Int (DNum 0); VBasic Int (DNum 0)]; CMap []] ∅ in
  copyRecursive (λ _, None) 1 (VSlice (TBasic Int) (Some (mkSlice 0 0 0 2)))
    (zero (TSlice (TBasic Int))) s
  = Done (VSlice (TBasic Int) (Some (mkSlice 2 0 0 2)),
          mkState (mem s ++ [CArr (replicate 2 (zero (TBasic Int)))]) ∅)
  ∧ copyRecursive (λ _, None) 1
      (VMap (TBasic String) (TBasic Int) (Some 1))
      (zero (TMap (TBasic String) (TBasic Int))) s
    = Done (VMap (TBasic String) (TBasic Int) (Some 2),
            mkState (mem s ++ [CMap []]) ∅).
Proof.
  cbn zeta. split.
  - exact (proj1 (proj2 (proj2 (proj2 (proj2 (proj2 (proj2
      (nil_empty_preservation (λ _, None) 0
         (mkState [CArr [VBasic Int (DNum 0); VBasic Int (DNum 0)]; CMap []] ∅))))))))
      (TBasic Int) (mkSlice 0 0 0 2) _ eq_refl eq_refl ltac:(cbn; lia)).
  - exact (proj2 (proj2 (proj2 (proj2 (proj2 (proj2 (proj2
      (nil_empty_preservation (λ _, None) 0
         (mkState [CArr [VBasic Int (DNum 0); VBasic Int (DNum 0)]; CMap []] ∅))))))))
      (TBasic String) (TBasic Int) 1 eq_refl).
Defined.

(** The loop over the fields writes the slots of exported fields only. *)
Lemma copy_fields_untouched rec ofs :
  ∀ i cfs s r s',
    copy_fields rec i ofs cfs s = Done (r, s') →
    length r = length cfs ∧
    ∀ k, (k < i ∨ i + length ofs ≤ k ∨
          ∃ f, ofs !! (k - i) = Some f ∧ fexported f = false) →
         r !! k = cfs !! k.
Proof.
  induction ofs as [|f ofs IH]; intros i cfs s r s' H; cbn in H.
  - simp_run. done.
  - destruct (fexported f) eqn:Hf.
    + destruct (cfs !! i) as [c|] eqn:Hc; [|done].
      apply bind_Done in H as (x & s1 & _ & H).
      apply IH in H as [HL H]. rewrite length_insert in HL. split; [done|].
      intros k Hk.
      assert (k ≠ i) as Hne.
      { intros ->. destruct Hk as [?|[?|(f' & E & E')]]; cbn in *; [lia|lia|].
        rewrite Nat.sub_diag in E. cbn in E. congruence. }
      rewrite H, list_lookup_insert_ne; [done | done |].
      destruct (decide (k < i)); [left; lia|].
      destruct Hk as [?|[?|(f' & E & E')]]; cbn in *; [lia | right; left; lia |].
      right; right. exists f'. split; [|done].
      replace (k - i) with (S (k - S i)) in E by lia. done.
    + apply IH in H as [HL H]. split; [done|].
      intros k Hk. apply H.
      destruct (decide (k ≤ i)); [left; lia|].
      destruct Hk as [?|[?|(f' & E & E')]]; cbn in *; [lia | right; left; lia |].
      right; right. exists f'. split; [|done].
      replace (k - i) with (S (k - S i)) in E by lia. done.
Qed.

(** [type_of (VStruct ...)] has a non-exported field when the value has. *)
Lemma hasUnexportedFields_type_of ofs j f :
  ofs !! j = Some f → fexported f = false →
  hasUnexportedFields
    (map (λ f, mkField (FName f) (FPkgPath f) (type_of (FValue f))) ofs) = true.
Proof.
  intros Hj Hf. unfold hasUnexportedFields. apply existsb_exists.
  exists (mkField (FName f) (FPkgPath f) (type_of (FValue f))).
  split; [|unfold exported; cbn; unfold fexported in Hf; by rewrite Hf].
  apply in_map_iff. exists f. split; [done|].
  apply list_elem_of_In. by eapply list_elem_of_lookup_2.
Qed.

(** C6.  The default traversal of a struct (no [DeepCopy] method, not
    [time.Time]) into the zero value of its type leaves every
    non-exported field at the zero value of its type, whatever the
    source holds there; and [CopyValue] on a fresh manager reaches that
    traversal whenever the struct has a non-exported field. *)
Theorem unexported_fields_left_zero
    (MethodByName : tkey → option Method) (fuel : nat)
    (name : string) (ofs : list (Field value))
    (Htime : isTime name = false)
    (Hno : hasDeepCopyMethod MethodByName (Some (VStruct name ofs)) = None) :
  (∀ s r s',
     copyRecursive MethodByName fuel (VStruct name ofs)
       (zero (type_of (VStruct name ofs))) s = Done (r, s') →
     ∃ rfs, r = VStruct name rfs ∧ length rfs = length ofs ∧
       ∀ j f, ofs !! j = Some f → fexported f = false →
         rfs !! j = Some (mkFieldVal (FName f) (FPkgPath f)
                            (zero (type_of (FValue f))))) ∧
  (∀ h r h' m j f,
     ofs !! j = Some f → fexported f = false →
     CopyValue MethodByName fuel NewDeepCopyManager (Some (VStruct name ofs)) h
       = Done (r, h', m) →
     ∃ rfs, r = Some (VStruct name rfs) ∧
       ∀ j f, ofs !! j = Some f → fexported f = false →
         rfs !! j = Some (mkFieldVal (FName f) (FPkgPath f)
                            (zero (type_of (FValue f))))).
Proof.
  assert (∀ s r s',
     copyRecursive MethodByName fuel (VStruct name ofs)
       (zero (type_of (VStruct name ofs))) s = Done (r, s') →
     ∃ rfs, r = VStruct name rfs ∧ length rfs = length ofs ∧
       ∀ j f, ofs !! j = Some f → fexported f = false →
         rfs !! j = Some (mkFieldVal (FName f) (FPkgPath f)
                            (zero (type_of (FValue f))))) as Hrec.
  { intros s r s' H. destruct fuel as [|fuel]; [done|].
    cbn [copyRecursive] in H. rewrite Htime, Hno in H.
    cbn [type_of zero] in H.
    apply bind_Done in H as (rfs & s1 & H0 & H). simp_run.
    apply copy_fields_untouched in H0 as [HL H0].
    rewrite !length_map in HL.
    exists rfs. split; [done|]. split; [done|].
    intros j f Hj Hf. rewrite H0.
    - rewrite !list_lookup_fmap, Hj. done.
    - right; right. exists f. by rewrite Nat.sub_0_r. }
  split; [exact Hrec|].
  intros h r h' m j f Hj Hf H.
  unfold CopyValue in H. rewrite Hno in H.
  destruct (getOrAnalyzeType NewDeepCopyManager (type_of (VStruct name ofs)))
    as [a m0] eqn:Ea.
  assert (IsOnlyValues (deref (results m0) a) = false) as Han.
  { pose proof (struct_unexported_IsOnlyValues name
      (map (λ f, mkField (FName f) (FPkgPath f) (type_of (FValue f))) ofs) []
      (hasUnexportedFields_type_of _ _ _ Hj Hf)) as Han.
    unfold getOrAnalyzeType in Ea.
    cbn [NewDeepCopyManager analysisCache lookup_key results type_of] in Ea.
    destruct (analyzeTypeRecursive _ [] []) as [[a' vis] st].
    injection Ea as <- <-. exact Han. }
  rewrite Han in H.
  destruct (copyRecursive _ _ _ _ _) as [[cpy s]| |] eqn:E; [|done|done].
  injection H as <- <- <-.
  apply Hrec in E as (rfs & -> & _ & E). exists rfs. done.
Qed.

(** [TestUnexportedFields]: the copy of [cc], a non-nil slice in the
    source, is the nil slice. *)
Lemma unexported_fields_left_zero_witness :
  ∃ rfs h' m,
    CopyValue Examples.no_methods 2 NewDeepCopyManager
      (Some (VStruct "Unexported" Examples.UnexportedFields))
      Examples.UnexportedHeap
    = Done (Some (VStruct "Unexported" rfs), h', m) ∧
    rfs !! 4 = Some (mkFieldVal "cc" "deepcopy" (VSlice (TBasic Int) None)).
Proof.
  destruct (CopyValue Examples.no_methods 2 NewDeepCopyManager
      (Some (VStruct "Unexported" Examples.UnexportedFields))
      Examples.UnexportedHeap) as [[[r h'] m]| |] eqn:E;
    [| by vm_compute in E | by vm_compute in E].
  destruct (proj2 (unexported_fields_left_zero Examples.no_methods 2
                     "Unexported" Examples.UnexportedFields eq_refl eq_refl)
              Examples.UnexportedHeap r h' m 4
              (mkFieldVal "cc" "deepcopy"
                 (VSlice (TBasic Int) (Some (mkSlice 0 0 3 3))))
              eq_refl eq_refl E) as (rfs & -> & Hz).
  exists rfs, h', m. split; [done|].
  exact (Hz 4 _ eq_refl eq_refl).
Defined.

(* ===================================================================== *)
(** ** The [DeepCopy] override at the entry points *)
(* ===================================================================== *)

Lemma hasDeepCopyMethod_Some MethodByName v method :
  hasDeepCopyMethod MethodByName v = Some method →
  NumIn method = 1 ∧ NumOut method = 1.
Proof.
  unfold hasDeepCopyMethod. intros H.
  destruct v as [v|]; [|done].
  destruct v; try done;
    (destruct (MethodByName _) as [mt|]; [|done];
     destruct (bool_decide (NumIn mt = 1)) eqn:E1; [|done];
     destruct (bool_decide (NumOut mt = 1)) eqn:E2; [|done];
     injection H as <-;
     apply bool_decide_eq_true_1 in E1, E2; done).
Qed.

(** [Copy] looks for the method before it consults the analysis: when
    the source has one, its result is what [Copy] returns (or the
    assertion to [T] panics). *)
Lemma Copy_uses_override MethodByName fuel T src srcVal method h g :
  ValueOf src = Some srcVal →
  hasDeepCopyMethod MethodByName (Some srcVal) = Some method →
  Copy MethodByName fuel T src h g =
  match assert_type T (Func method h srcVal).1 with
  | Some r => Done (r, h ++ (Func method h srcVal).2, g)
  | None => Panic
  end.
Proof.
  intros Hv Hm. unfold Copy. rewrite Hv, Hm.
  unfold callDeepCopy, bind, get_mem, extend, ret. cbn.
  destruct (Func method h srcVal) as [r cs] eqn:E. cbn.
  apply hasDeepCopyMethod_Some in Hm as [_ ->]. cbn. done.
Qed.

(** [CopyWithKey] consults the call-site entry first: for an entry that
    is value-only the source is returned, method or not. *)
Lemma CopyWithKey_shortcut_first MethodByName fuel T src key h g :
  bIsOnlyValues (getOrCreateBusinessCopyInfo T key g).1 = true →
  CopyWithKey MethodByName fuel T src key h g
  = Done (src, h, (getOrCreateBusinessCopyInfo T key g).2).
Proof.
  intros H. unfold CopyWithKey.
  destruct (getOrCreateBusinessCopyInfo T key g) as [info g']. cbn in *.
  by rewrite H.
Qed.

(** [CopyValue] consults the analysis first as well. *)
Lemma CopyValue_shortcut_first MethodByName fuel m srcVal h :
  IsOnlyValues (deref (results (getOrAnalyzeType m (type_of srcVal)).2)
                  (getOrAnalyzeType m (type_of srcVal)).1) = true →
  CopyValue MethodByName fuel m (Some srcVal) h
  = Done (Some srcVal, h, (getOrAnalyzeType m (type_of srcVal)).2).
Proof.
  intros H. unfold CopyValue.
  destruct (getOrAnalyzeType m (type_of srcVal)) as [a m']. cbn in *.
  by rewrite H.
Qed.

(** C4, at the failing input.  For [User{1, "john", "secret123"}], whose
    [DeepCopy] redacts the password: [Copy] returns the redacted value,
    but [CopyWithKey] (under a fresh key) and [CopyValue] (on a fresh
    manager) return the source with its password, because [User] is
    classified value-only and both test the shortcut before the method. *)
Theorem override_after_shortcut_at_User :
  let u := Examples.user 1 "john" "secret123" in
  type_of u = Examples.User ∧
  is_Some (hasDeepCopyMethod Examples.user_methods (Some u)) ∧
  Copy Examples.user_methods 0 Examples.User u [] init_globals
    = Done (Examples.user 1 "john" "[REDACTED]", [], init_globals) ∧
  (∃ g, CopyWithKey Examples.user_methods 0 Examples.User u "user.profile"
          [] init_globals = Done (u, [], g)) ∧
  (∃ m, CopyValue Examples.user_methods 0 NewDeepCopyManager (Some u) []
        = Done (Some u, [], m)).
Proof.
  cbn zeta. split_and!.
  - done.
  - by eexists.
  - by erewrite Copy_uses_override; [|reflexivity|reflexivity].
  - eexists. by apply CopyWithKey_shortcut_first.
  - eexists. by apply CopyValue_shortcut_first.
Qed.

(** C5, at the failing input.  Under a key never used before,
    [CopyWithKey] and [Copy] return different values for the same
    source. *)
Theorem CopyWithKey_differs_from_Copy_at_User :
  let u := Examples.user 1 "john" "secret123" in
  businessCopyCache init_globals !! "user.profile" = None ∧
  ∃ r1 h1 g1 r2 h2 g2,
    Copy Examples.user_methods 0 Examples.User u [] init_globals
      = Done (r1, h1, g1) ∧
    CopyWithKey Examples.user_methods 0 Examples.User u "user.profile"
      [] init_globals = Done (r2, h2, g2) ∧
    r1 ≠ r2.
Proof.
  cbn zeta. split; [done|].
  do 6 eexists. split_and!.
  - by erewrite Copy_uses_override; [|reflexivity|reflexivity].
  - by apply CopyWithKey_shortcut_first.
  - done.
Qed.

(* ===================================================================== *)
(** ** Cycles through slices and maps *)
(* ===================================================================== *)

Lemma self_slice_diverges fuel :
  ∀ s, mem s !! 0 = Some (CArr [VIface "any" (Some Examples.self_slice)]) →
    copyRecursive Examples.no_methods fuel Examples.self_slice
      (zero (type_of Examples.self_slice)) s = OutOfFuel ∧
    copyRecursive Examples.no_methods fuel
      (VIface "any" (Some Examples.self_slice))
      (zero (TInterface "any")) s = OutOfFuel.
Proof.
  induction fuel as [|fuel IH]; intros s Hs; [done|].
  assert (copyRecursive Examples.no_methods fuel
            (VIface "any" (Some Examples.self_slice))
            (zero (TInterface "any"))
            (mkState (mem s ++ [CArr (replicate 1 (zero (TInterface "any")))])
               (visited s)) = OutOfFuel) as H1.
  { apply IH. cbn. rewrite lookup_app_l; [done|]. by eapply lookup_lt_Some. }
  split.
  - cbn [copyRecursive Examples.self_slice].
    unfold bind, alloc, lift, load_arr, get_mem, bind. cbn.
    rewrite decide_True by done. cbn.
    rewrite lookup_app_l by (by eapply lookup_lt_Some). rewrite Hs. cbn.
    rewrite ?decide_True by lia. unfold bind. cbn.
    cbn in H1. by rewrite H1.
  - cbn [copyRecursive]. unfold bind.
    destruct (IH s Hs) as [-> _]. done.
Qed.

Lemma self_map_diverges fuel :
  ∀ s, mem s !! 0 = Some (CMap [(VBasic String (DStr "self"),
                                VIface "any" (Some Examples.self_map))]) →
    copyRecursive Examples.no_methods fuel Examples.self_map
      (zero (type_of Examples.self_map)) s = OutOfFuel ∧
    copyRecursive Examples.no_methods fuel
      (VIface "any" (Some Examples.self_map))
      (zero (TInterface "any")) s = OutOfFuel.
Proof.
  induction fuel as [|fuel IH]; intros s Hs; [done|].
  assert (copyRecursive Examples.no_methods fuel
            (VIface "any" (Some Examples.self_map))
            (zero (TInterface "any"))
            (mkState (mem s ++ [CMap []]) (visited s)) = OutOfFuel) as H1.
  { apply IH. cbn. rewrite lookup_app_l; [done|]. by eapply lookup_lt_Some. }
  split.
  - cbn [copyRecursive Examples.self_map].
    unfold bind, alloc, lift, load_map, get_mem, bind. cbn.
    rewrite decide_True by done. cbn.
    rewrite lookup_app_l by (by eapply lookup_lt_Some). rewrite Hs. cbn.
    rewrite ?decide_True by lia. unfold bind. cbn.
    cbn in H1. by rewrite H1.
  - cbn [copyRecursive]. unfold bind.
    destruct (IH s Hs) as [-> _]. done.
Qed.

(** C9, at the failing input.  The traversal of a slice (or a map) that
    contains itself, a finite cyclic graph of one node, does not return
    within any recursion budget: the visited map records pointers only,
    so nothing stops the descent slice, element, slice, ....  The same
    holds through [CopyValue]. *)
Theorem container_cycle_never_returns (fuel : nat) :
  copyRecursive Examples.no_methods fuel Examples.self_slice
    (zero (type_of Examples.self_slice))
    (mkState Examples.self_slice_heap ∅) = OutOfFuel ∧
  copyRecursive Examples.no_methods fuel Examples.self_map
    (zero (type_of Examples.self_map))
    (mkState Examples.self_map_heap ∅) = OutOfFuel ∧
  CopyValue Examples.no_methods fuel NewDeepCopyManager
    (Some Examples.self_slice) Examples.self_slice_heap = OutOfFuel ∧
  CopyValue Examples.no_methods fuel NewDeepCopyManager
    (Some Examples.self_map) Examples.self_map_heap = OutOfFuel.
Proof.
  split_and!.
  - by apply self_slice_diverges.
  - by apply self_map_diverges.
  - unfold CopyValue.
    destruct (getOrAnalyzeType _ _) as [a m] eqn:E.
    vm_compute in E. injection E as <- <-. cbn -[copyRecursive].
    by rewrite (proj1 (self_slice_diverges fuel
                         (mkState Examples.self_slice_heap ∅) eq_refl)).
  - unfold CopyValue.
    destruct (getOrAnalyzeType _ _) as [a m] eqn:E.
    vm_compute in E. injection E as <- <-. cbn -[copyRecursive].
    by rewrite (proj1 (self_map_diverges fuel
                         (mkState Examples.self_map_heap ∅) eq_refl)).
Qed.

(* ===================================================================== *)
(** ** Sharing and cycles through pointers *)
(* ===================================================================== *)

Lemma Set_ptr_inv e x r :
  Set_ (VPtr e None) x = Some r →
  ∃ e' p, x = VPtr e' p ∧ tid e = tid e' ∧ r = VPtr e p.
Proof.
  destruct x; cbn; try (case_decide; [|done]); try done.
  intros [= <-]. eauto.
Qed.

Lemma Set_ptr_idem e x r :
  Set_ (VPtr e None) x = Some r → Set_ (VPtr e None) r = Some r.
Proof.
  intros (e' & p & -> & _ & ->)%Set_ptr_inv. cbn. by rewrite decide_True.
Qed.

Section Topology.

Context (MethodByName : tkey → option Method).

(** A pointer found in the visited map is resolved from it, without a
    step into the referent. *)
Lemma copy_ptr_hit fuel e a s v r :
  visited s !! a = Some v →
  Set_ (VPtr e None) v = Some r →
  copyRecursive MethodByName (S fuel) (VPtr e (Some a)) (zero (TPtr e)) s
  = Done (r, s).
Proof.
  intros Hv Hs. cbn [copyRecursive zero].
  unfold bind, get_visited. cbv beta iota. rewrite Hv.
  cbv beta iota. by rewrite Hs.
Qed.

(** A pointer met for the first time, with no method on it or on its
    referent: the fresh cell is recorded, then the referent is
    traversed, then the cell is filled. *)
Lemma copy_ptr_fresh fuel e a s v :
  visited s !! a = None →
  hasDeepCopyMethod MethodByName (Some (VPtr e (Some a))) = None →
  mem s !! a = Some (CVal v) →
  hasDeepCopyMethod MethodByName (Some v) = None →
  tid e = tid (type_of v) →
  copyRecursive MethodByName (S fuel) (VPtr e (Some a)) (zero (TPtr e)) s
  = match copyRecursive MethodByName fuel v (zero (type_of v))
            (mkState (mem s ++ [CVal (zero (type_of v))])
               (<[a := VPtr e (Some (length (mem s)))]> (visited s))) with
    | Done (r0, s0) =>
        Done (VPtr e (Some (length (mem s))),
              mkState (<[length (mem s) := CVal r0]> (mem s0)) (visited s0))
    | Panic => Panic
    | OutOfFuel => OutOfFuel
    end.
Proof.
  intros Hv Hm1 Hc Hm2 Ht. cbn [copyRecursive zero].
  unfold bind at 1. unfold get_visited. rewrite Hv, Hm1.
  unfold bind at 1. unfold load_val. unfold bind at 1. unfold get_mem.
  rewrite Hc. cbn [ret]. rewrite Hm2.
  unfold bind at 1. unfold alloc.
  unfold bind at 1. cbn [Set_ lift]. rewrite decide_True by done.
  cbn [ret]. unfold bind at 1. unfold record_visited.
  unfold bind at 1. cbn [mem visited lift ret].
  destruct (copyRecursive _ _ _ _ _) as [[r0 s0]| |]; done.
Qed.

(** The pointer returned for a non-nil source pointer is the one the
    visited map holds for its address. *)
Lemma pointer_recorded fuel e a s r s' :
  copyRecursive MethodByName fuel (VPtr e (Some a)) (zero (TPtr e)) s
    = Done (r, s') →
  ∃ v, visited s' !! a = Some v ∧ Set_ (VPtr e None) v = Some r.
Proof.
  intros H. destruct fuel as [|fuel]; [done|].
  cbn [copyRecursive zero] in H. destruct s as [h vis].
  simp_run. cbn [visited] in H. destruct (vis !! a) as [v|] eqn:Hvis.
  { simp_run. eauto. }
  destruct (hasDeepCopyMethod _ (Some (VPtr e (Some a)))) as [method|].
  { simp_run. apply bind_Done in H as (c & s1 & H0 & H).
    destruct (decide _) in H0; simp_run; cbn [mem visited];
      rewrite lookup_insert_eq;
      eexists; (split; [done|]); by eapply Set_ptr_idem. }
  simp_run. destruct (hasDeepCopyMethod _ (Some _)) as [method|].
  { simp_run. cbn [mem visited]. rewrite lookup_insert_eq.
    eexists; (split; [done|]); by eapply Set_ptr_idem. }
  simp_run. apply bind_Done in H as (r0 & s1 & H0 & H). simp_run.
  apply copyRecursive_extends in H0 as (_ & _ & Hsub). cbn [mem visited] in *.
  exists x0. split; [|by eapply Set_ptr_idem].
  eapply lookup_weaken; [|done]. apply lookup_insert_eq.
Qed.

End Topology.

(** *** A ring of nodes *)

Lemma copyRecursive_struct_default MethodByName fuel name ofs cname cfs s :
  isTime name = false →
  hasDeepCopyMethod MethodByName (Some (VStruct name ofs)) = None →
  copyRecursive MethodByName (S fuel) (VStruct name ofs) (VStruct cname cfs) s
  = (let! cfs := copy_fields (copyRecursive MethodByName fuel) 0 ofs cfs in
     ret (VStruct cname cfs)) s.
Proof. intros Ht Hm. cbn [copyRecursive]. by rewrite Ht, Hm. Qed.

Lemma copyRecursive_basic MethodByName fuel k d c s :
  copyRecursive MethodByName (S fuel) (VBasic k d) (VBasic k c) s
  = Done (VBasic k d, s).
Proof. cbn. by rewrite decide_True. Qed.

Lemma ring_visited_lookup n i j :
  Examples.ring_visited n i !! j =
  if decide (j < i) then Some (VPtr Examples.Node (Some (n + j))) else None.
Proof.
  induction i as [|i IH]; cbn.
  - by rewrite lookup_empty.
  - destruct (decide (j = i)) as [->|Hne].
    + rewrite lookup_insert_eq. by rewrite decide_True by lia.
    + rewrite lookup_insert_ne by done. rewrite IH.
      repeat case_decide; done || lia.
Qed.

Lemma ring_lookup n base i l :
  i < n → (Examples.ring n base ++ l) !! i = Some (Examples.ring_cell n base i).
Proof.
  intros Hi. unfold Examples.ring.
  rewrite lookup_app_l by (by rewrite length_map, length_seq).
  rewrite list_lookup_fmap, lookup_seq_lt by done. done.
Qed.

Lemma length_ring n base : length (Examples.ring n base) = n.
Proof. unfold Examples.ring. by rewrite length_map, length_seq. Qed.

Local Opaque copyRecursive.

(** The copy of one node, given the copy of its [Next] pointer. *)
Lemma copy_node fuel x nx s :
  copyRecursive Examples.no_methods (S (S fuel)) (Examples.node x nx)
    (zero (type_of (Examples.node x nx))) s
  = match copyRecursive Examples.no_methods (S fuel)
            (VPtr Examples.Node nx) (zero (TPtr Examples.Node)) s with
    | Done (r, s') =>
        Done (VStruct "Node"
                [mkFieldVal "Name" "" (VBasic String (DStr x));
                 mkFieldVal "Next" "" r], s')
    | Panic => Panic
    | OutOfFuel => OutOfFuel
    end.
Proof.
  unfold Examples.node. cbn [type_of zero map FName FPkgPath FValue Name
    PkgPath Type_].
  rewrite copyRecursive_struct_default by done.
  cbn [copy_fields]. unfold fexported. cbn [FPkgPath lookup list_lookup FValue
    FName insert list_insert].
  rewrite !bool_decide_eq_true_2 by done.
  unfold bind. rewrite copyRecursive_basic.
  destruct (copyRecursive _ _ _ _ _) as [[r s']| |]; done.
Qed.

Local Transparent copyRecursive.

Lemma ring_store n i z c cells :
  <[n + i := c]> (Examples.ring n 0 ++ replicate (S i) z ++ cells)
  = Examples.ring n 0 ++ replicate i z ++ c :: cells.
Proof.
  rewrite insert_app_r_alt by (rewrite length_ring; lia).
  rewrite length_ring. replace (n + i - n) with i by lia. f_equal.
  rewrite replicate_S_end, <- app_assoc.
  rewrite insert_app_r_alt by (rewrite length_replicate; lia).
  rewrite length_replicate, Nat.sub_diag. done.
Qed.

(** The traversal of a ring of [n] nodes entered at node [i], when the
    nodes before [i] are being copied: the rest of the ring is copied
    and closed onto the copy of node 0. *)
Lemma ring_from n (Hn : 0 < n) :
  ∀ k i fuel, i + k = n → 0 < k → 2 * k + 1 ≤ fuel →
    copyRecursive Examples.no_methods fuel
      (VPtr Examples.Node (Some i)) (zero (TPtr Examples.Node))
      (mkState (Examples.ring n 0 ++ replicate i (CVal Examples.zero_node))
         (Examples.ring_visited n i))
    = Done (VPtr Examples.Node (Some (n + i)),
            mkState (Examples.ring n 0 ++ replicate i (CVal Examples.zero_node)
                       ++ map (Examples.ring_cell n n) (seq i k))
              (Examples.ring_visited n n)).
Proof.
  induction k as [|k IH]; intros i fuel Hik Hk Hfuel; [lia|].
  destruct fuel as [|[|[|fuel]]]; try lia.
  rewrite (copy_ptr_fresh _ _ _ _ _
             (Examples.node (pretty i) (Some (0 + S i mod n))));
    [ | cbn [visited]; rewrite ring_visited_lookup;
        by rewrite decide_False by lia
      | done
      | cbn [mem]; rewrite ring_lookup by lia; done
      | done
      | done ].
  cbn [mem visited].
  rewrite length_app, length_ring, length_replicate.
  change (<[i:=VPtr Examples.Node (Some (n + i))]> (Examples.ring_visited n i))
    with (Examples.ring_visited n (S i)).
  rewrite copy_node.
  change (zero (type_of (Examples.node (pretty i) (Some (0 + S i mod n)))))
    with Examples.zero_node.
  rewrite <- app_assoc, <- replicate_S_end.
  destruct k as [|k].
  - (* the last node points back to node 0 *)
    assert (S i mod n = 0) as Hmod
      by (replace (S i) with n by lia; apply Nat.Div0.mod_same).
    rewrite Hmod.
    assert (Examples.ring_visited n (S i) = Examples.ring_visited n n) as ->
      by (f_equal; lia).
    rewrite (copy_ptr_hit _ _ _ _ _ (VPtr Examples.Node (Some (n + 0)))
               (VPtr Examples.Node (Some (n + 0))));
      [ | cbn [visited]; rewrite ring_visited_lookup;
          by rewrite decide_True by lia
        | cbn; by rewrite decide_True ].
    cbn [mem visited]. f_equal. f_equal. f_equal.
    rewrite <- (app_nil_r (replicate (S i) _)), ring_store. cbn.
    unfold Examples.ring_cell, Examples.node. by rewrite Hmod.
  - (* the next node is entered *)
    rewrite Nat.mod_small by lia. cbn [Nat.add].
    rewrite (IH (S i)) by lia.
    cbn [mem visited]. f_equal. f_equal. f_equal.
    rewrite ring_store. do 2 f_equal.
    change (seq i (S (S k))) with (i :: seq (S i) (S k)).
    rewrite map_cons. f_equal.
    unfold Examples.ring_cell, Examples.node.
    rewrite Nat.mod_small by lia. done.
Qed.

(** C2.  In one traversal:
    - an entry of the visited map is never replaced (an address is
      entered at most once);
    - the pointer returned for a non-nil source pointer is the one the
      map then holds for its address, and any later copy of a pointer to
      that address returns this very pointer without allocating: two
      source pointers to one target give two copy pointers to one
      target;
    - for an address met for the first time (no [DeepCopy] on the
      pointer or the referent) that target is a newly allocated cell,
      entered in the map before the referent is traversed, and filled
      with the copy of the referent afterwards;
    - a ring of [n] nodes is copied to a ring of [n] fresh nodes, node
      [i] at address [n + i] pointing to the copy of its successor. *)
Theorem reference_topology_preserved (MethodByName : tkey → option Method) :
  (∀ fuel o c s r s',
     copyRecursive MethodByName fuel o c s = Done (r, s') →
     visited s ⊆ visited s') ∧
  (∀ fuel e a s r s',
     copyRecursive MethodByName fuel (VPtr e (Some a)) (zero (TPtr e)) s
       = Done (r, s') →
     (∃ v, visited s' !! a = Some v ∧ target v = target r) ∧
     ∀ fuel2 s2, visited s' ⊆ visited s2 →
       copyRecursive MethodByName (S fuel2) (VPtr e (Some a))
         (zero (TPtr e)) s2 = Done (r, s2)) ∧
  (∀ fuel e a s v,
     visited s !! a = None →
     hasDeepCopyMethod MethodByName (Some (VPtr e (Some a))) = None →
     mem s !! a = Some (CVal v) →
     hasDeepCopyMethod MethodByName (Some v) = None →
     tid e = tid (type_of v) →
     copyRecursive MethodByName (S fuel) (VPtr e (Some a)) (zero (TPtr e)) s
     = match copyRecursive MethodByName fuel v (zero (type_of v))
               (mkState (mem s ++ [CVal (zero (type_of v))])
                  (<[a := VPtr e (Some (length (mem s)))]> (visited s))) with
       | Done (r0, s0) =>
           Done (VPtr e (Some (length (mem s))),
                 mkState (<[length (mem s) := CVal r0]> (mem s0)) (visited s0))
       | Panic => Panic
       | OutOfFuel => OutOfFuel
       end) ∧
  (∀ n k, 0 < n →
     copyRecursive Examples.no_methods (2 * n + 1 + k)
       (VPtr Examples.Node (Some 0)) (zero (TPtr Examples.Node))
       (mkState (Examples.ring n 0) ∅)
     = Done (VPtr Examples.Node (Some n),
             mkState (Examples.ring n 0 ++ Examples.ring n n)
               (Examples.ring_visited n n))).
Proof.
  split_and!.
  - intros fuel o c s r s' H.
    by apply copyRecursive_extends in H as (_ & _ & H).
  - intros fuel e a s r s' H.
    apply pointer_recorded in H as (v & Hv & Hs). split.
    + exists v. split; [done|].
      by apply Set_ptr_inv in Hs as (e' & p & -> & _ & ->).
    + intros fuel2 s2 Hsub. eapply copy_ptr_hit; [|done].
      by eapply lookup_weaken.
  - intros. by apply copy_ptr_fresh.
  - intros n k Hn.
    pose proof (ring_from n Hn n 0 (2 * n + 1 + k) ltac:(lia) Hn ltac:(lia))
      as H.
    cbn [replicate app Nat.add Examples.ring_visited] in H.
    rewrite app_nil_r in H.
    rewrite H. by rewrite Nat.add_0_r.
Qed.

(** The 3-cycle A -> B -> C -> A of the tests, and a second pointer to A
    copied afterwards. *)
Lemma reference_topology_preserved_witness :
  let s' := mkState (Examples.ring 3 0 ++ Examples.ring 3 3)
              (Examples.ring_visited 3 3) in
  copyRecursive Examples.no_methods 7
    (VPtr Examples.Node (Some 0)) (zero (TPtr Examples.Node))
    (mkState (Examples.ring 3 0) ∅)
  = Done (VPtr Examples.Node (Some 3), s') ∧
  copyRecursive Examples.no_methods 1
    (VPtr Examples.Node (Some 0)) (zero (TPtr Examples.Node)) s'
  = Done (VPtr Examples.Node (Some 3), s').
Proof.
  cbn zeta.
  pose proof (proj2 (proj2 (proj2
    (reference_topology_preserved Examples.no_methods))) 3 0
    ltac:(lia)) as H1.
  split; [exact H1|].
  exact (proj2 (proj1 (proj2
    (reference_topology_preserved Examples.no_methods)) _ _ _ _ _ _ H1)
    0 _ (reflexivity _)).
Defined.

(* ===================================================================== *)
(** ** Independence of the copy *)
(* ===================================================================== *)

Lemma forallb_Forall {A} (f : A → bool) l :
  forallb f l = true ↔ Forall (λ x, f x = true) l.
Proof.
  rewrite forallb_forall, Forall_forall.
  split; intros H x Hx; apply H; by apply list_elem_of_In.
Qed.

Lemma all_addrs_zero P t : all_addrs P (zero t) = true.
Proof.
  induction t as [k|n e IH|name fs IH|name|e IH|e IH|k e IHk IHe|e IH|s|n|]
    using rtype_induction; try done.
  - cbn. apply forallb_Forall, Forall_replicate. done.
  - cbn. apply forallb_Forall, Forall_fmap.
    eapply Forall_impl; [exact IH|]. done.
Qed.

Lemma Set_all_addrs P c v r :
  Set_ c v = Some r → all_addrs P v = true → all_addrs P r = true.
Proof.
  destruct c, v; cbn; intros H Hv;
    repeat (case_decide; [|done]); try done;
    by injection H as <-.
Qed.

Lemma hasDeepCopyMethod_none MethodByName v :
  (∀ k, MethodByName k = None) → hasDeepCopyMethod MethodByName v = None.
Proof.
  intros H. destruct v as [v|]; [|done].
  destruct v; cbn; by rewrite ?H.
Qed.

Lemma source_region_extends b s s' :
  extends b s s' → source_region b (mem s) → source_region b (mem s').
Proof.
  intros (_ & F & _) H a c Ha Hc. rewrite F in Hc by done. by eapply H.
Qed.

Lemma copy_region_alloc b h vis c :
  cell_all (fresh b) c = true →
  copy_region b (mkState h vis) → copy_region b (mkState (h ++ [c]) vis).
Proof.
  intros Hc (L & C & V). split_and!; cbn in *.
  - rewrite length_app. lia.
  - intros a c' Ha Hl. apply lookup_app_Some in Hl as [Hl|[_ Hl]]; [by eapply C|].
    apply list_lookup_singleton_Some in Hl as [_ <-]. done.
  - done.
Qed.

Lemma copy_region_store b h vis a c :
  cell_all (fresh b) c = true →
  copy_region b (mkState h vis) → copy_region b (mkState (<[a := c]> h) vis).
Proof.
  intros Hc (L & C & V). split_and!; cbn in *.
  - by rewrite length_insert.
  - intros a' c' Ha Hl. destruct (decide (a' = a)) as [->|Hne].
    + apply list_lookup_insert_Some in Hl as [(_ & <- & _)|[? _]]; done.
    + rewrite list_lookup_insert_ne in Hl by done. by eapply C.
  - done.
Qed.

Lemma copy_region_record b h vis a v :
  fresh b v = true →
  copy_region b (mkState h vis) → copy_region b (mkState h (<[a := v]> vis)).
Proof.
  intros Hv (L & C & V). split_and!; cbn in *; [done | done |].
  intros a' v' Hl. apply lookup_insert_Some in Hl as [[_ <-]|[_ Hl]]; [done|].
  by eapply V.
Qed.

Lemma source_region_app b h c :
  b ≤ length h → source_region b h → source_region b (h ++ [c]).
Proof.
  intros Hb H a c' Ha Hl. rewrite lookup_app_l in Hl by lia. by eapply H.
Qed.

Lemma source_region_store b h a c :
  b ≤ a → source_region b h → source_region b (<[a := c]> h).
Proof.
  intros Hb H a' c' Ha Hl. rewrite list_lookup_insert_ne in Hl by lia.
  by eapply H.
Qed.

Lemma map_set_fresh (Q : value → bool) k v kvs :
  Q k = true → Q v = true →
  forallb (λ kv, Q kv.1 && Q kv.2) kvs = true →
  forallb (λ kv, Q kv.1 && Q kv.2) (map_set k v kvs) = true.
Proof.
  intros Hk Hv. induction kvs as [|[k' v'] kvs IH]; cbn.
  - by rewrite Hk, Hv.
  - intros [H1 H2]%andb_true_iff. case_match; cbn.
    + by rewrite Hk, Hv, H2.
    + by rewrite H1, IH.
Qed.

Section Independence.

Context (MethodByName : tkey → option Method).
Context (b : nat).

Lemma copy_fields_fresh rec (Hrec : rec_fresh b rec) ofs :
  ∀ i cfs s r s',
    copy_region b s → source_region b (mem s) →
    Forall (λ f, closed b (FValue f) = true) ofs →
    Forall (λ f, negb (fexported f) || plain (FValue f) = true) ofs →
    Forall (λ f, fresh b (FValue f) = true) cfs →
    copy_fields rec i ofs cfs s = Done (r, s') →
    Forall (λ f, fresh b (FValue f) = true) r ∧
    copy_region b s' ∧ source_region b (mem s').
Proof.
  induction ofs as [|f ofs IH]; intros i cfs s r s' HC HS Hcl Hpl Hfr H;
    cbn in H.
  - simp_run. done.
  - apply Forall_cons in Hcl as [Hcl1 Hcl]. apply Forall_cons in Hpl as [Hpl1 Hpl].
    destruct (fexported f) eqn:Hf; [|by eapply IH].
    destruct (cfs !! i) as [c|] eqn:Hc; [|done].
    apply bind_Done in H as (x & s1 & H0 & H).
    eapply Hrec in H0 as (Hx & HC1 & HS1); try done.
    + eapply IH in H; try done. apply Forall_insert; done.
    + by eapply (Forall_lookup_1 _ _ _ _ Hfr).
Qed.

Lemma copy_array_fresh rec (Hrec : rec_fresh b rec) os :
  ∀ i cs s r s',
    copy_region b s → source_region b (mem s) →
    Forall (λ o, closed b o = true) os →
    Forall (λ o, plain o = true) os →
    Forall (λ c, fresh b c = true) cs →
    copy_array rec i os cs s = Done (r, s') →
    Forall (λ c, fresh b c = true) r ∧
    copy_region b s' ∧ source_region b (mem s').
Proof.
  induction os as [|o os IH]; intros i cs s r s' HC HS Hcl Hpl Hfr H;
    cbn in H.
  - simp_run. done.
  - apply Forall_cons in Hcl as [Hcl1 Hcl]. apply Forall_cons in Hpl as [Hpl1 Hpl].
    destruct (cs !! i) as [c|] eqn:Hc; [|done].
    apply bind_Done in H as (x & s1 & H0 & H).
    eapply Hrec in H0 as (Hx & HC1 & HS1); try done.
    + eapply IH in H; try done. apply Forall_insert; done.
    + by eapply (Forall_lookup_1 _ _ _ _ Hfr).
Qed.

Lemma copy_slice_fresh rec (Hrec : rec_fresh b rec) a' os :
  ∀ i s r s',
    b ≤ a' →
    copy_region b s → source_region b (mem s) →
    Forall (λ o, closed b o = true) os →
    Forall (λ o, plain o = true) os →
    copy_slice rec a' i os s = Done (r, s') →
    copy_region b s' ∧ source_region b (mem s').
Proof.
  induction os as [|o os IH]; intros i s r s' Ha HC HS Hcl Hpl H; cbn in H.
  - simp_run. done.
  - apply Forall_cons in Hcl as [Hcl1 Hcl]. apply Forall_cons in Hpl as [Hpl1 Hpl].
    apply bind_Done in H as (x & [h1 vis1] & H0 & H).
    eapply Hrec in H0 as (Hx & HC1 & HS1); try done;
      [|apply all_addrs_zero].
    simp_run. cbn [mem visited] in *. eapply IH in H; try done.
    + apply copy_region_store; [|done]. cbn.
      destruct HC1 as (_ & C & _). specialize (C _ _ Ha Hcell). cbn in C.
      apply forallb_Forall, Forall_insert; [by apply forallb_Forall | done].
    + by apply source_region_store.
Qed.

Lemma copy_map_fresh rec (Hrec : rec_fresh b rec) a' kvs :
  ∀ s r s',
    b ≤ a' →
    copy_region b s → source_region b (mem s) →
    Forall (λ kv, closed b kv.1 = true ∧ closed b kv.2 = true) kvs →
    Forall (λ kv, plain kv.1 = true ∧ plain kv.2 = true) kvs →
    copy_map rec a' kvs s = Done (r, s') →
    copy_region b s' ∧ source_region b (mem s').
Proof.
  induction kvs as [|[k v] kvs IH]; intros s r s' Ha HC HS Hcl Hpl H;
    cbn in H.
  - simp_run. done.
  - apply Forall_cons in Hcl as [[Hk Hv] Hcl].
    apply Forall_cons in Hpl as [[Hpk Hpv] Hpl]. cbn in *.
    apply bind_Done in H as (x & s1 & H0 & H).
    apply bind_Done in H as (y & [h2 vis2] & H1 & H).
    eapply Hrec in H0 as (Hx & HC1 & HS1); try done; [|apply all_addrs_zero].
    eapply Hrec in H1 as (Hy & HC2 & HS2); try done; [|apply all_addrs_zero].
    simp_run. cbn [mem visited] in *. eapply IH in H; try done.
    + apply copy_region_store; [|done]. cbn.
      destruct HC2 as (_ & C & _). specialize (C _ _ Ha Hcell). cbn in C.
      by apply map_set_fresh.
    + by apply source_region_store.
Qed.

Context (Hno : ∀ k, MethodByName k = None).

(** The copy of a plain source holds fresh addresses only, and the
    traversal keeps the copy region closed under its own addresses. *)
Lemma copyRecursive_fresh fuel : rec_fresh b (copyRecursive MethodByName fuel).
Proof using Hno.
  induction fuel as [|fuel IH]; intros o c [h vis] r s' HC HS Hcl Hpl Hfr H;
    [done|].
  cbn [copyRecursive] in H.
  destruct o as [k d|e [ptr|]|n [ov|]|name ofs|e [sh|]|kt e [m|]|e os|e ch|sg f|p];
    try (simp_run; split; [|done];
         eapply Set_all_addrs; [done|]; first [apply all_addrs_zero | done]).
  - (* non-nil pointer *)
    simp_run. cbn [visited] in H. destruct (vis !! ptr) as [v|] eqn:Hvis.
    { simp_run. split; [|done]. eapply Set_all_addrs; [done|].
      destruct HC as (_ & _ & V). by eapply V. }
    rewrite hasDeepCopyMethod_none in H by done.
    simp_run. rewrite hasDeepCopyMethod_none in H by done.
    simp_run. apply bind_Done in H as (r0 & [h1 vis1] & H0 & H). simp_run.
    cbn [mem visited] in *.
    assert (fresh b x0 = true) as Hx0.
    { eapply Set_all_addrs; [done|]. cbn. apply Nat.leb_le. by destruct HC. }
    assert (ptr < b) as Hptr by (cbn in Hcl; by apply Nat.ltb_lt).
    destruct (HS _ _ Hptr Hcell) as [Hxc Hxp]. cbn in Hxc, Hxp.
    pose proof H0 as Hext. apply copyRecursive_extends in Hext.
    eapply IH in H0 as (Hr0 & HC1 & HS1); try done.
    + split; [done|]. split.
      * apply copy_region_store; done.
      * apply source_region_store; [by destruct HC | done].
    + apply copy_region_record; [done|].
      apply copy_region_alloc; [|done]. cbn. apply all_addrs_zero.
    + apply source_region_app; [by destruct HC | done].
    + apply all_addrs_zero.
  - (* interface *)
    apply bind_Done in H as (r0 & s1 & H0 & H). simp_run.
    eapply IH in H0 as (Hr0 & HC1 & HS1); try done; [|apply all_addrs_zero].
    split; [|done]. by eapply Set_all_addrs.
  - (* struct *)
    cbn in Hpl. apply andb_true_iff in Hpl as [Ht Hpl].
    apply negb_true_iff in Ht. rewrite Ht in H.
    rewrite hasDeepCopyMethod_none in H by done.
    destruct c;
      try (destruct (forallb (λ f, negb (fexported f)) ofs);
           [simp_run; by split_and! | done]).
    apply bind_Done in H as (rfs & s1 & H0 & H). simp_run.
    eapply copy_fields_fresh in H0 as (Hr & HC1 & HS1); try done.
    + split; [|done]. cbn. apply forallb_Forall. done.
    + cbn in Hcl. by apply forallb_Forall in Hcl.
    + by apply forallb_Forall in Hpl.
    + cbn in Hfr. by apply forallb_Forall in Hfr.
  - (* slice *)
    simp_run. apply bind_Done in H as (? & s1 & H0 & H).
    destruct (decide _) in H0; [|done]. simp_run.
    apply bind_Done in H as (? & s2 & H0 & H). simp_run.
    cbn [mem visited] in *.
    split; [eapply Set_all_addrs; [done|]; cbn; apply Nat.leb_le;
            by destruct HC|].
    assert (Data sh < b) as Hd by (cbn in Hcl; by apply Nat.ltb_lt).
    rewrite lookup_app_l in Hcell
      by (destruct HC as (L & _); cbn in L; lia).
    destruct (HS _ _ Hd Hcell) as [Hxc Hxp]. cbn in Hxc, Hxp.
    apply forallb_Forall in Hxc, Hxp.
    eapply copy_slice_fresh in H0; try done.
    + by destruct HC.
    + apply copy_region_alloc; [|done]. cbn.
      apply forallb_Forall, Forall_replicate, all_addrs_zero.
    + apply source_region_app; [by destruct HC | done].
    + by apply Forall_take, Forall_drop.
    + by apply Forall_take, Forall_drop.
  - (* map *)
    simp_run. apply bind_Done in H as (? & s2 & H0 & H). simp_run.
    cbn [mem visited] in *.
    split; [eapply Set_all_addrs; [done|]; cbn; apply Nat.leb_le;
            by destruct HC|].
    assert (m < b) as Hd by (cbn in Hcl; by apply Nat.ltb_lt).
    rewrite lookup_app_l in Hcell
      by (destruct HC as (L & _); cbn in L; lia).
    destruct (HS _ _ Hd Hcell) as [Hxc Hxp]. cbn in Hxc, Hxp.
    apply forallb_Forall in Hxc, Hxp.
    eapply copy_map_fresh in H0; try done.
    + by destruct HC.
    + apply copy_region_alloc; [|done]. done.
    + apply source_region_app; [by destruct HC | done].
    + eapply Forall_impl; [exact Hxc|]. intros [? ?]. apply andb_true_iff.
    + eapply Forall_impl; [exact Hxp|]. intros [? ?]. apply andb_true_iff.
  - (* array *)
    destruct c; try (destruct os; [simp_run; by split_and! | done]).
    apply bind_Done in H as (rs & s1 & H0 & H). simp_run.
    eapply copy_array_fresh in H0 as (Hr & HC1 & HS1); try done.
    + split; [|done]. cbn. by apply forallb_Forall.
    + cbn in Hcl. by apply forallb_Forall in Hcl.
    + cbn in Hpl. by apply forallb_Forall in Hpl.
    + cbn in Hfr. by apply forallb_Forall in Hfr.
  - (* channel: nil only *)
    cbn in Hpl. apply bool_decide_eq_true_1 in Hpl as ->.
    simp_run. split; [|done]. by eapply Set_all_addrs.
  - (* function: nil only *)
    cbn in Hpl. apply bool_decide_eq_true_1 in Hpl as ->.
    simp_run. split; [|done]. by eapply Set_all_addrs.
  - (* unsafe pointer: nil only *)
    cbn in Hpl. apply bool_decide_eq_true_1 in Hpl as ->.
    simp_run. split; [|done]. by eapply Set_all_addrs.
Qed.

End Independence.

Lemma copy_region_init h : copy_region (length h) (mkState h ∅).
Proof.
  split_and!; cbn; [done | |].
  - intros a c Ha Hl. apply lookup_lt_Some in Hl. lia.
  - intros a v Hl. by rewrite lookup_empty in Hl.
Qed.

Lemma all_addrs_ValueOf P v :
  all_addrs P v = true →
  match ValueOf v with Some d => all_addrs P d | None => true end = true.
Proof. destruct v as [| |n [d|]| | | | | | |]; done. Qed.

(* ===================================================================== *)
(** ** Equality of the copy in value terms *)
(* ===================================================================== *)

Lemma copied_mono n : ∀ lo lo' vis vis' h0 H H' v r,
  lo' ≤ lo → vis ⊆ vis' →
  (∀ a c, lo ≤ a → H !! a = Some c → H' !! a = Some c) →
  copied n lo vis h0 H v r → copied n lo' vis' h0 H' v r.
Proof.
  induction n as [|n IH]; intros lo lo' vis vis' h0 H H' v r Hlo Hvis HH; [done|].
  assert (∀ x x', copied n lo vis h0 H x x' → copied n lo' vis' h0 H' x x')
    as IH' by (intros; by eapply IH).
  destruct v as [k d|e [a|]|i [x|]|s fs|e [sh|]|kt e [m|]|e vs|e c|sg f|p],
           r as [k' d'|e' [a'|]|i' [x'|]|s' fs'|e' [sh'|]|kt' e' [m'|]|e' vs'|e' c'|sg' f'|p'];
    cbn [copied]; try done.
  - intros (He & e'' & Hl). split; [done|]. exists e''.
    by eapply lookup_weaken.
  - intros (? & ? & ?). auto.
  - intros (? & Hf). split; [done|]. eapply Forall2_impl; [exact Hf|].
    intros f f' [? ?]. auto.
  - intros (? & ? & ? & vs & vs' & ? & ? & Hf). split_and!; [done | done | lia |].
    exists vs, vs'. split_and!; [done | by apply HH |].
    eapply Forall2_impl; [exact Hf|]. auto.
  - intros (? & ? & ? & kvs & kvs' & ? & ? & Hf). split_and!; [done | done | lia |].
    exists kvs, kvs'. split_and!; [done | by apply HH |].
    eapply Forall2_impl; [exact Hf|]. intros ? ? [? ?]. auto.
  - intros (? & Hf). split; [done|]. eapply Forall2_impl; [exact Hf|]. auto.
Qed.

Lemma copied_extends n lo h0 s s' v r :
  extends (length (mem s)) s s' →
  copied n lo (visited s) h0 (mem s) v r →
  copied n lo (visited s') h0 (mem s') v r.
Proof.
  intros (L & F & V). apply copied_mono; [done | done |].
  intros a c _ Ha. rewrite F; [done|]. by eapply lookup_lt_Some.
Qed.

Lemma copied_store n lo h0 H vis a c v r :
  a < lo →
  copied n lo vis h0 H v r → copied n lo vis h0 (<[a := c]> H) v r.
Proof.
  intros Ha. apply copied_mono; [done | done |].
  intros a' c' Ha' Hl. by rewrite list_lookup_insert_ne by lia.
Qed.

Lemma entries_refl h0 lo s : entries_copied h0 lo (visited s) s.
Proof. intros a v E1 E2. congruence. Qed.

Lemma entries_trans h0 lo vis0 s s1 :
  lo ≤ length (mem s) →
  extends (length (mem s)) s s1 →
  entries_copied h0 lo vis0 s →
  entries_copied h0 (length (mem s)) (visited s) s1 →
  entries_copied h0 lo vis0 s1.
Proof.
  intros Hlo Hext H0 H1 a v E0 E1.
  destruct (visited s !! a) as [v0|] eqn:E.
  - pose proof Hext as (L & F & V).
    pose proof (lookup_weaken _ _ _ _ E V) as E'. rewrite E1 in E'.
    injection E' as ->.
    destruct (H0 a v0 E0 E) as (e' & a' & x & x' & -> & Ha' & Hx & Hx' & Hc).
    exists e', a', x, x'. split_and!; try done.
    + rewrite F; [done|]. by eapply lookup_lt_Some.
    + intros n. by apply (copied_extends n lo h0 s s1).
  - destruct (H1 a v E E1) as (e' & a' & x & x' & -> & Ha' & Hx & Hx' & Hc).
    exists e', a', x, x'. split_and!; try done; [lia|].
    intros n. eapply copied_mono; [exact Hlo | done | | apply Hc]. done.
Qed.

Lemma entries_store h0 lo vis0 H vis a c :
  a < lo →
  entries_copied h0 lo vis0 (mkState H vis) →
  entries_copied h0 lo vis0 (mkState (<[a := c]> H) vis).
Proof.
  intros Ha H0 a1 v E0 E1.
  destruct (H0 a1 v E0 E1) as (e' & a' & x & x' & -> & Ha' & Hx & Hx' & Hc).
  exists e', a', x, x'. cbn [mem visited] in *. split_and!; try done.
  - by rewrite list_lookup_insert_ne by lia.
  - intros n. by apply copied_store.
Qed.

Lemma entries_weaken h0 lo lo' vis0 s :
  lo' ≤ lo → entries_copied h0 lo vis0 s → entries_copied h0 lo' vis0 s.
Proof.
  intros Hlo H0 a v E0 E1.
  destruct (H0 a v E0 E1) as (e' & a' & x & x' & -> & Ha' & Hx & Hx' & Hc).
  exists e', a', x, x'. split_and!; try done; [lia|].
  intros n. eapply copied_mono; [exact Hlo | done | | apply Hc]. done.
Qed.

Lemma copy_state_extends (h0 : heap) s s' :
  length h0 ≤ length (mem s) → extends (length (mem s)) s s' →
  ∀ a, a < length h0 → mem s' !! a = mem s !! a.
Proof. intros L (_ & F & _) a Ha. apply F. lia. Qed.

Lemma copy_state_store h0 H vis a c :
  length h0 ≤ a →
  copy_state h0 (mkState H vis) → copy_state h0 (mkState (<[a := c]> H) vis).
Proof.
  intros Ha (L & F & T & I). split_and!; cbn [mem visited] in *.
  - by rewrite length_insert.
  - intros a' Ha'. rewrite list_lookup_insert_ne by lia. by apply F.
  - intros a1 v E. rewrite length_insert. by apply (T a1).
  - done.
Qed.

Lemma copy_state_alloc h0 H vis c :
  copy_state h0 (mkState H vis) → copy_state h0 (mkState (H ++ [c]) vis).
Proof.
  intros (L & F & T & I). split_and!; cbn [mem visited] in *.
  - rewrite length_app. lia.
  - intros a' Ha'. rewrite lookup_app_l by lia. by apply F.
  - intros a1 v E. rewrite length_app.
    destruct (T a1 v E) as (e & a' & -> & ? & ?). exists e, a'.
    split_and!; [done | done | lia].
  - done.
Qed.

(** Recording the pointer to a cell no entry points to. *)
Lemma copy_state_record h0 H vis a e a' :
  vis !! a = None → length h0 ≤ a' → a' < length H →
  (∀ a1 v, vis !! a1 = Some v → ∃ e1 a1', v = VPtr e1 (Some a1') ∧ a1' < a') →
  copy_state h0 (mkState H vis) →
  copy_state h0 (mkState H (<[a := VPtr e (Some a')]> vis)).
Proof.
  intros Hmiss Hlo Hhi Hold (L & F & T & I). split_and!; cbn [mem visited] in *.
  - done.
  - done.
  - intros a1 v E. apply lookup_insert_Some in E as [[<- <-]|[_ E]]; [eauto|].
    by apply (T a1).
  - intros a1 a2 e1 e2 a0 E1 E2.
    apply lookup_insert_Some in E1 as [[<- E1]|[N1 E1]];
      apply lookup_insert_Some in E2 as [[<- E2]|[N2 E2]]; try done.
    + simplify_eq. destruct (Hold _ _ E2) as (? & ? & ? & ?). simplify_eq. lia.
    + simplify_eq. destruct (Hold _ _ E1) as (? & ? & ? & ?). simplify_eq. lia.
    + by eapply I.
Qed.

Lemma value_induction (P : value → Prop)
    (Hbasic : ∀ k d, P (VBasic k d))
    (Hptr : ∀ e p, P (VPtr e p))
    (Hnil : ∀ i, P (VIface i None))
    (Hiface : ∀ i x, P x → P (VIface i (Some x)))
    (Hstruct : ∀ s fs, Forall (λ f, P (FValue f)) fs → P (VStruct s fs))
    (Hslice : ∀ e s, P (VSlice e s))
    (Hmap : ∀ k e m, P (VMap k e m))
    (Harray : ∀ e vs, Forall P vs → P (VArray e vs))
    (Hchan : ∀ e c, P (VChan e c))
    (Hfunc : ∀ s f, P (VFunc s f))
    (Hunsafe : ∀ p, P (VUnsafePointer p)) :
  ∀ v, P v.
Proof.
  fix IH 1. intros [k d|e p|i [x|]|s fs|e sh|k e m|e vs|e c|s f|p].
  - apply Hbasic.
  - apply Hptr.
  - apply Hiface, IH.
  - apply Hnil.
  - apply Hstruct. induction fs as [|f fs IHfs]; constructor;
      [apply IH | exact IHfs].
  - apply Hslice.
  - apply Hmap.
  - apply Harray. induction vs as [|v vs IHvs]; constructor;
      [apply IH | exact IHvs].
  - apply Hchan.
  - apply Hfunc.
  - apply Hunsafe.
Qed.

Lemma key_eqb_struct s fs s' gs :
  key_eqb (VStruct s fs) (VStruct s' gs)
  = forall2b (λ f g, key_eqb (FValue f) (FValue g)) fs gs.
Proof.
  cbn [key_eqb]. revert gs. induction fs as [|f fs IH]; intros [|g gs]; try done.
  cbn [forall2b]. by rewrite IH.
Qed.

Lemma key_eqb_array e vs e' ws :
  key_eqb (VArray e vs) (VArray e' ws) = forall2b key_eqb vs ws.
Proof.
  cbn [key_eqb]. revert ws. induction vs as [|v vs IH]; intros [|w ws]; try done.
  cbn [forall2b]. by rewrite IH.
Qed.

Lemma Forall2_all_depths {A B} (R : nat → A → B → Prop) l l' :
  (∀ n, Forall2 (R n) l l') → Forall2 (λ x y, ∀ n, R n x y) l l'.
Proof.
  revert l'. induction l as [|x l IH]; intros l' H.
  - specialize (H 0). inversion H. constructor.
  - pose proof (H 0) as H0. inversion H0 as [|? y ? l'' _ _]; subst.
    constructor.
    + intros n. specialize (H n). by inversion H.
    + apply IH. intros n. specialize (H n). by inversion H.
Qed.

Lemma forall2b_related {A} (R : A → A → Prop) (g : A → A → bool) l :
  Forall (λ a, ∀ b a' b', R a b → R a' b' → g b b' = g a a') l →
  ∀ m l' m', Forall2 R l m → Forall2 R l' m' →
    forall2b g m m' = forall2b g l l'.
Proof.
  induction 1 as [|a l Ha _ IH]; intros m l' m' H1 H2.
  - inversion H1; subst. inversion H2; subst; done.
  - inversion H1 as [|? b ? m0 Hab Hl]; subst.
    inversion H2 as [|a' b' l0' m0' Hab' Hl']; subst; [done|].
    cbn [forall2b]. rewrite (Ha b a' b') by done. f_equal. by apply IH.
Qed.

Section Keys.

Context (lo : nat) (vis : gmap addr value) (h0 H : heap).
Context (Hinj : ∀ a1 a2 e1 e2 a', vis !! a1 = Some (VPtr e1 (Some a')) →
                 vis !! a2 = Some (VPtr e2 (Some a')) → a1 = a2).

Lemma copied_type v r :
  copy_of lo vis h0 H v r → tid (type_of r) = tid (type_of v).
Proof.
  intros Hc. specialize (Hc 1).
  destruct v as [k d|e [a|]|i [x|]|s fs|e [sh|]|kt e [m|]|e vs|e c|sg f|p],
           r as [k' d'|e' [a'|]|i' [x'|]|s' fs'|e' [sh'|]|kt' e' [m'|]|e' vs'|e' c'|sg' f'|p'];
    cbn [copied] in Hc; try done; cbn; try (destruct_and?; congruence).
  destruct Hc as [He Hf]. apply Forall2_length in Hf. congruence.
Qed.

(** Copies of two values are equal as map keys exactly when the values
    are. *)
Lemma key_eqb_copied k :
  ∀ ck k' ck', copy_of lo vis h0 H k ck → copy_of lo vis h0 H k' ck' →
    key_eqb ck ck' = key_eqb k k'.
Proof using Hinj.
  induction k as [kd d|e p|i|i x IH|s fs IH|e sh|kt e m|e vs IH|e c|sg f|p]
    using value_induction; intros ck k' ck' Hk Hk';
    pose proof (Hk 1) as Hk1; pose proof (Hk' 1) as Hk1';
    destruct ck as [k0 d0|e0 p0|i0 x0|s0 fs0|e0 sh0|kt0 e0 m0|e0 vs0|e0 c0|sg0 f0|p0];
    cbn [copied] in Hk1; try done;
    repeat match goal with
    | H : match ?x with Some _ => _ | None => _ end |- _ => destruct x
    end; try done;
    destruct k' as [k1 d1|e1 p1|i1 x1|s1 fs1|e1 sh1|kt1 e1 m1|e1 vs1|e1 c1|sg1 f1|p1],
             ck' as [k2 d2|e2 p2|i2 x2|s2 fs2|e2 sh2|kt2 e2 m2|e2 vs2|e2 c2|sg2 f2|p2];
    cbn [copied] in Hk1'; try done;
    repeat match goal with
    | H : match ?x with Some _ => _ | None => _ end |- _ => destruct x
    end; try done.
  all: try (destruct_and?; simplify_eq; done).
  - destruct Hk1 as (_ & ea & Ea), Hk1' as (_ & eb & Eb). cbn.
    apply bool_decide_ext. split; intros [= E].
    + f_equal. subst. by eapply Hinj.
    + subst. rewrite Ea in Eb. by injection Eb as _ ->.
  - destruct Hk1 as (_ & T & _), Hk1' as (_ & T' & _). cbn [key_eqb].
    rewrite <- T, <- T'. f_equal. apply IH.
    + intros n. specialize (Hk (S n)). cbn in Hk. apply Hk.
    + intros n. specialize (Hk' (S n)). cbn in Hk'. apply Hk'.
  - rewrite !key_eqb_struct.
    apply (forall2b_related
             (λ f f', copy_of lo vis h0 H (FValue f) (FValue f')));
      [eapply Forall_impl; [exact IH|]; cbn; intros f0 Hf b a' b' ? ?;
       by apply Hf | |].
    + apply Forall2_all_depths with (R := λ n f f', copied n lo vis h0 H (FValue f) (FValue f')).
      intros n. specialize (Hk (S n)). cbn in Hk. destruct Hk as [_ Hk].
      eapply Forall2_impl; [exact Hk|]. by intros ? ? [_ ?].
    + apply Forall2_all_depths with (R := λ n f f', copied n lo vis h0 H (FValue f) (FValue f')).
      intros n. specialize (Hk' (S n)). cbn in Hk'. destruct Hk' as [_ Hk'].
      eapply Forall2_impl; [exact Hk'|]. by intros ? ? [_ ?].
  - rewrite !key_eqb_array.
    apply (forall2b_related (copy_of lo vis h0 H)); [done | |].
    + apply Forall2_all_depths with (R := λ n, copied n lo vis h0 H).
      intros n. specialize (Hk (S n)). cbn in Hk. by destruct Hk as [_ Hk].
    + apply Forall2_all_depths with (R := λ n, copied n lo vis h0 H).
      intros n. specialize (Hk' (S n)). cbn in Hk'. by destruct Hk' as [_ Hk'].
Qed.

End Keys.

Lemma copy_of_extends lo h0 s s' v r :
  extends (length (mem s)) s s' →
  copy_of lo (visited s) h0 (mem s) v r →
  copy_of lo (visited s') h0 (mem s') v r.
Proof. intros He Hc n. by apply (copied_extends n lo h0 s s'). Qed.

Lemma copy_of_weaken lo lo' vis h0 H v r :
  lo' ≤ lo → copy_of lo vis h0 H v r → copy_of lo' vis h0 H v r.
Proof. intros Hlo Hc n. eapply copied_mono; [exact Hlo | done | | apply Hc]. done. Qed.

Lemma copy_of_store lo h0 H vis a c v r :
  a < lo → copy_of lo vis h0 H v r → copy_of lo vis h0 (<[a := c]> H) v r.
Proof. intros Ha Hc n. by apply copied_store. Qed.

Lemma extends_call s s1 s' :
  extends (length (mem s)) s s1 → extends (length (mem s1)) s1 s' →
  extends (length (mem s)) s s'.
Proof.
  intros H1 H2. eapply extends_trans; [exact H1|].
  eapply extends_mono; [|exact H2]. by destruct H1.
Qed.

Lemma map_set_new k v kvs :
  Forall (λ kv, key_eqb k kv.1 = false) kvs → map_set k v kvs = kvs ++ [(k, v)].
Proof.
  induction 1 as [|[k' v'] kvs Hk _ IH]; [done|]. cbn in *. by rewrite Hk, IH.
Qed.

Lemma distinct_keys_earlier kvd key ov kvs :
  distinct_keys (kvd ++ (key, ov) :: kvs) = true →
  Forall (λ kv, key_eqb key kv.1 = false) kvd.
Proof.
  induction kvd as [|[k v] kvd IH]; [constructor|]. cbn [app distinct_keys].
  intros [H1 H2]%andb_true_iff. constructor; [|by apply IH].
  rewrite forallb_app in H1. apply andb_true_iff in H1 as [_ H1].
  cbn in H1. apply andb_true_iff in H1 as [H1 _]. by apply negb_true_iff in H1.
Qed.

Section Loops.

Context (h0 : heap).
Context (rec : value → value → M value) (Hrec : rec_copied h0 rec).

Lemma copy_array_copied e os :
  ∀ osd dn s rs s' lo vis0,
    copy_state h0 s → lo ≤ length (mem s) →
    entries_copied h0 lo vis0 s →
    Forall2 (copy_of lo (visited s) h0 (mem s)) osd dn →
    Forall (λ o, src_ok h0 o ∧ type_of o = e) os →
    copy_array rec (length dn) os (dn ++ replicate (length os) (zero e)) s
      = Done (rs, s') →
    copy_state h0 s' ∧ extends (length (mem s)) s s' ∧
    Forall2 (copy_of lo (visited s') h0 (mem s')) (osd ++ os) rs ∧
    entries_copied h0 lo vis0 s'.
Proof using Hrec.
  induction os as [|o os IH]; intros osd dn s rs s' lo vis0 HS Hlo He Hd Hos H;
    cbn [copy_array] in H.
  - simp_run. cbn. rewrite !app_nil_r. split_and!; try done; apply extends_refl.
  - apply Forall_cons in Hos as [[(Hcl & Hpl & Hreg) Ht] Hos].
    rewrite lookup_app_r, Nat.sub_diag in H by done. cbn in H.
    apply bind_Done in H as (r & s1 & H0 & H). rewrite <- Ht in H0.
    apply Hrec in H0 as (HS1 & Hx1 & Hc1 & He1); try done.
    rewrite insert_app_r_alt, Nat.sub_diag in H by done. cbn in H.
    rewrite (cons_middle r), app_assoc in H.
    replace (S (length dn)) with (length (dn ++ [r])) in H
      by (rewrite length_app; cbn; lia).
    apply (IH (osd ++ [o]) _ _ _ _ lo vis0) in H as (HS' & Hx' & Hc' & He').
    + rewrite <- app_assoc in Hc'. split_and!; try done.
      by eapply extends_call.
    + done.
    + destruct Hx1. lia.
    + by eapply entries_trans.
    + apply Forall2_app.
      * eapply Forall2_impl; [exact Hd|]. intros. by eapply copy_of_extends.
      * constructor; [|constructor]. by eapply copy_of_weaken.
    + done.
Qed.

Lemma copy_fields_copied ofs :
  ∀ osd dn s rs s' lo vis0,
    copy_state h0 s → lo ≤ length (mem s) →
    entries_copied h0 lo vis0 s →
    Forall2 (λ f f', FName f = FName f' ∧
               copy_of lo (visited s) h0 (mem s) (FValue f) (FValue f')) osd dn →
    Forall (λ f, fexported f = true ∧ src_ok h0 (FValue f)) ofs →
    copy_fields rec (length dn) ofs (dn ++ map zero_field ofs) s
      = Done (rs, s') →
    copy_state h0 s' ∧ extends (length (mem s)) s s' ∧
    Forall2 (λ f f', FName f = FName f' ∧
               copy_of lo (visited s') h0 (mem s') (FValue f) (FValue f'))
      (osd ++ ofs) rs ∧
    entries_copied h0 lo vis0 s'.
Proof using Hrec.
  induction ofs as [|f ofs IH]; intros osd dn s rs s' lo vis0 HS Hlo He Hd Hos H;
    cbn [copy_fields] in H.
  - simp_run. cbn. rewrite !app_nil_r. split_and!; try done; apply extends_refl.
  - apply Forall_cons in Hos as [[Hex (Hcl & Hpl & Hreg)] Hos].
    rewrite Hex in H.
    rewrite lookup_app_r, Nat.sub_diag in H by done. cbn in H.
    apply bind_Done in H as (r & s1 & H0 & H).
    apply Hrec in H0 as (HS1 & Hx1 & Hc1 & He1); try done.
    rewrite insert_app_r_alt, Nat.sub_diag in H by done. cbn in H.
    rewrite (cons_middle (mkFieldVal _ _ r)), app_assoc in H.
    replace (S (length dn)) with (length (dn ++ [mkFieldVal (FName f) (FPkgPath f) r])) in H
      by (rewrite length_app; cbn; lia).
    apply (IH (osd ++ [f]) _ _ _ _ lo vis0) in H as (HS' & Hx' & Hc' & He').
    + rewrite <- app_assoc in Hc'. split_and!; try done.
      by eapply extends_call.
    + done.
    + destruct Hx1. lia.
    + by eapply entries_trans.
    + apply Forall2_app.
      * eapply Forall2_impl; [exact Hd|]. intros ? ? [? ?]. split; [done|].
        by eapply copy_of_extends.
      * constructor; [|constructor]. split; [done|]. by eapply copy_of_weaken.
    + done.
Qed.

Lemma copy_slice_copied a' z os :
  ∀ osd dn k s u s' lo vis0,
    copy_state h0 s → lo ≤ length (mem s) → a' < lo → length h0 ≤ a' →
    entries_copied h0 lo vis0 s →
    Forall2 (copy_of lo (visited s) h0 (mem s)) osd dn →
    mem s !! a' = Some (CArr (dn ++ replicate (length os + k) z)) →
    Forall (src_ok h0) os →
    copy_slice rec a' (length dn) os s = Done (u, s') →
    copy_state h0 s' ∧
    ∃ rs, mem s' !! a' = Some (CArr (rs ++ replicate k z)) ∧
      Forall2 (copy_of lo (visited s') h0 (mem s')) (osd ++ os) rs ∧
      entries_copied h0 lo vis0 s'.
Proof using Hrec.
  induction os as [|o os IH];
    intros osd dn k s u s' lo vis0 HS Hlo Ha Hb He Hd Hcell Hos H;
    cbn [copy_slice] in H.
  - simp_run. split; [done|]. exists dn. rewrite app_nil_r. done.
  - apply Forall_cons in Hos as [(Hcl & Hpl & Hreg) Hos].
    apply bind_Done in H as (r & [H1 vis1] & H0 & H).
    apply Hrec in H0 as (HS1 & Hx1 & Hc1 & He1); try done.
    simp_run. cbn [mem visited] in *.
    pose proof Hx1 as (L1 & F1 & V1). cbn [mem visited] in *.
    rewrite F1, Hcell in Hcell0 by lia. injection Hcell0 as <-.
    rewrite insert_app_r_alt, Nat.sub_diag in H by done. cbn in H.
    rewrite (cons_middle r), app_assoc in H.
    replace (S (length dn)) with (length (dn ++ [r])) in H
      by (rewrite length_app; cbn; lia).
    apply (IH (osd ++ [o]) _ k _ _ _ lo vis0) in H as (HS' & rs & Hc' & Hf' & He').
    + split; [done|]. exists rs. rewrite <- app_assoc in Hf'. done.
    + by apply copy_state_store.
    + cbn. rewrite length_insert. lia.
    + done.
    + done.
    + apply entries_store; [done|]. by eapply entries_trans.
    + cbn [mem visited]. apply Forall2_app.
      * eapply Forall2_impl; [exact Hd|]. intros o1 r1 Hxy.
        apply copy_of_store; [done|].
        by apply (copy_of_extends lo h0 s (mkState H1 vis1)).
      * constructor; [|constructor]. apply copy_of_store; [done|].
        by eapply copy_of_weaken.
    + cbn [mem]. rewrite list_lookup_insert_eq by lia. done.
    + done.
Qed.

Lemma copy_map_copied a' kvs :
  ∀ kvd acc s u s' lo vis0,
    copy_state h0 s → lo ≤ length (mem s) → a' < lo → length h0 ≤ a' →
    entries_copied h0 lo vis0 s →
    Forall2 (λ kv kv', copy_of lo (visited s) h0 (mem s) kv.1 kv'.1 ∧
                       copy_of lo (visited s) h0 (mem s) kv.2 kv'.2) kvd acc →
    mem s !! a' = Some (CMap acc) →
    distinct_keys (kvd ++ kvs) = true →
    Forall (λ kv, src_ok h0 kv.1 ∧ src_ok h0 kv.2) kvs →
    copy_map rec a' kvs s = Done (u, s') →
    copy_state h0 s' ∧
    ∃ acc', mem s' !! a' = Some (CMap acc') ∧
      Forall2 (λ kv kv', copy_of lo (visited s') h0 (mem s') kv.1 kv'.1 ∧
                         copy_of lo (visited s') h0 (mem s') kv.2 kv'.2)
        (kvd ++ kvs) acc' ∧
      entries_copied h0 lo vis0 s'.
Proof using Hrec.
  induction kvs as [|[key ov] kvs IH];
    intros kvd acc s u s' lo vis0 HS Hlo Ha Hb He Hd Hcell Hdk Hos H;
    cbn [copy_map] in H.
  - simp_run. split; [done|]. exists acc. rewrite app_nil_r. done.
  - apply Forall_cons in Hos as [[(Hcl & Hpl & Hreg) (Hcl' & Hpl' & Hreg')] Hos].
    cbn [fst snd] in *.
    apply bind_Done in H as (cv & s1 & H0 & H).
    apply Hrec in H0 as (HS1 & Hx1 & Hc1 & He1); try done.
    apply bind_Done in H as (ck & [H2 vis2] & H0 & H).
    apply Hrec in H0 as (HS2 & Hx2 & Hc2 & He2); try done.
    simp_run. cbn [mem visited] in *.
    pose proof Hx1 as (L1 & F1 & V1). pose proof Hx2 as (L2 & F2 & V2).
    cbn [mem visited] in *.
    rewrite F2, F1, Hcell in Hcell0 by lia. injection Hcell0 as <-.
    assert (Forall2 (λ kv kv', copy_of lo vis2 h0 H2 kv.1 kv'.1 ∧
                               copy_of lo vis2 h0 H2 kv.2 kv'.2) kvd acc) as Hd2.
    { eapply Forall2_impl; [exact Hd|]. intros kv1 kv2 [Hk Hv].
      split; apply (copy_of_extends lo h0 s1 (mkState H2 vis2)); try done;
        by apply (copy_of_extends lo h0 s s1). }
    assert (copy_of lo vis2 h0 H2 key ck) as Hck
      by (eapply copy_of_weaken; [|exact Hc2]; lia).
    assert (copy_of lo vis2 h0 H2 ov cv) as Hcv.
    { apply (copy_of_extends lo h0 s1 (mkState H2 vis2)); [done|].
      eapply copy_of_weaken; [|exact Hc1]. lia. }
    rewrite map_set_new in H.
    2: { pose proof (distinct_keys_earlier _ _ _ _ Hdk) as Hearlier.
         clear -Hd2 Hearlier Hck HS2.
         induction Hd2 as [|kv kv' kvd acc [Hk _] _ IHd]; [constructor|].
         apply Forall_cons in Hearlier as [Hne Hearlier].
         constructor; [|by apply IHd].
         rewrite <- Hne. apply (key_eqb_copied lo vis2 h0 H2); [|done|done].
         by destruct HS2 as (_ & _ & _ & I). }
    rewrite (cons_middle (key, ov)), app_assoc in Hdk.
    apply (IH (kvd ++ [(key, ov)]) (acc ++ [(ck, cv)]) _ _ _ lo vis0) in H
      as (HS' & acc' & Hc' & Hf' & He').
    + split; [done|]. exists acc'. rewrite <- app_assoc in Hf'. done.
    + by apply copy_state_store.
    + cbn. rewrite length_insert. lia.
    + done.
    + done.
    + apply entries_store; [done|].
      apply (entries_trans h0 lo vis0 s1); [lia | done | | done].
      by eapply entries_trans.
    + cbn [mem visited]. apply Forall2_app.
      * eapply Forall2_impl; [exact Hd2|]. intros kv1 kv2 [Hk Hv].
        split; by apply copy_of_store.
      * constructor; [|constructor]. split; by apply copy_of_store.
    + cbn [mem]. rewrite list_lookup_insert_eq by lia. done.
    + done.
    + done.
Qed.

End Loops.

Lemma rtype_eqb_eq t : ∀ u, rtype_eqb t u = true → t = u.
Proof.
  induction t as [k|n e IH|name fs IH|name|e IH|e IH|k e IHk IHe|e IH|s|n|]
    using rtype_induction; intros [k'|n' e'|name' fs'|name'|e'|e'|k' e'|e'|s'|n'|];
    cbn [rtype_eqb]; try done; intros H;
    repeat match goal with
    | H : _ && _ = true |- _ => apply andb_true_iff in H as [? H]
    | H : bool_decide _ = true |- _ => apply bool_decide_eq_true_1 in H
    end; subst; try done;
    try (f_equal; by auto).
  f_equal. revert fs' H.
  induction IH as [|f fs Hf _ IHfs]; intros [|f' fs'] H; try done.
  repeat match goal with
  | H : _ && _ = true |- _ => apply andb_true_iff in H as [H ?]
  | H : bool_decide _ = true |- _ => apply bool_decide_eq_true_1 in H
  end.
  f_equal; [|by apply IHfs].
  destruct f, f'; cbn in *. f_equal; auto.
Qed.

Lemma zero_struct name ofs :
  zero (type_of (VStruct name ofs)) = VStruct name (map zero_field ofs).
Proof. cbn. f_equal. rewrite map_map. done. Qed.

Section Equal.

Context (MethodByName : tkey → option Method).
Context (Hno : ∀ k, MethodByName k = None).
Context (h0 : heap) (Hsrc : source_heap h0).

Lemma src_cell_val a v :
  h0 !! a = Some (CVal v) → src_ok h0 v.
Proof using Hsrc. intros E. destruct (Hsrc a _ E) as (? & ? & ?). done. Qed.

Lemma copyRecursive_copied fuel :
  rec_copied h0 (copyRecursive MethodByName fuel).
Proof using Hno Hsrc.
  induction fuel as [|fuel IH]; intros o [h vis] r s' HS Hcl Hpl Hreg H;
    [done|].
  pose proof (copyRecursive_extends MethodByName (S fuel) _ _ _ _ _ H) as Hext.
  cut (copy_state h0 s' ∧
       copy_of (length h) (visited s') h0 (mem s') o r ∧
       entries_copied h0 (length h) vis s').
  { intros (? & ? & ?). done. }
  clear Hext. cbn [copyRecursive] in H.
  destruct o as [k d|e [ptr|]|n [ov|]|name ofs|e [sh|]|kt e [m|]|e os|e ch|sg f|p];
    try (cbn in Hpl; apply bool_decide_eq_true_1 in Hpl as ->);
    try (simp_run; match goal with
         | E : Set_ _ _ = Some _ |- _ =>
             first [ rewrite Set_same in E
                   | cbn in E; rewrite decide_True in E by done ];
             injection E as <-
         end;
         split; [exact HS|];
         split; [intros [|?]; cbn; done
                | apply (entries_refl h0 _ (mkState h vis))]).
  - (* non-nil pointer *)
    pose proof HS as (L & F & T & I). cbn [mem visited] in L, F, T, I.
    simp_run. cbn [visited] in H. destruct (vis !! ptr) as [v|] eqn:Hvis.
    { simp_run. destruct (T _ _ Hvis) as (e1 & a1 & -> & ? & ?).
      cbn in E. case_decide; [|done]. injection E as <-.
      split; [exact HS|]. split; [|apply (entries_refl h0 _ (mkState h vis))].
      intros [|n]; [done|]. cbn. split; [done|]. by exists e1. }
    rewrite hasDeepCopyMethod_none in H by done.
    simp_run. rewrite hasDeepCopyMethod_none in H by done.
    simp_run. apply bind_Done in H as (r0 & [h2 vis2] & H0 & H). simp_run.
    cbn [mem visited] in *.
    cbn in E. case_decide as Et; [|done]. injection E as <-.
    assert (ptr < length h0) as Hptr by (cbn in Hcl; by apply Nat.ltb_lt).
    assert (h0 !! ptr = Some (CVal x)) as Hx by (by rewrite <- F).
    destruct (src_cell_val _ _ Hx) as (Hclx & Hplx & Hregx).
    apply IH in H0 as (HS2 & Hx2 & Hc2 & He2); try done.
    2: { apply copy_state_record; [done | done | rewrite length_app; cbn; lia | |
                                   by apply copy_state_alloc].
         intros a1 v1 E1. destruct (T _ _ E1) as (e1 & a1' & -> & ? & ?). eauto. }
    cbn [mem visited] in Hx2, Hc2, He2.
    pose proof Hx2 as (L2 & F2 & V2). cbn [mem visited] in L2, F2, V2.
    rewrite length_app in L2, He2, Hc2. cbn [length] in L2, He2, Hc2.
    assert (vis2 !! ptr = Some (VPtr e (Some (length h)))) as Hrec.
    { eapply lookup_weaken; [|exact V2]. apply lookup_insert_eq. }
    split; [apply copy_state_store; [lia | done]|]. cbn [mem visited].
    split.
    { intros [|n]; [done|]. cbn. split; [done|]. by exists e. }
    apply (entries_store _ _ _ _ _ (length h) (CVal r0)) in He2; [|lia].
    apply (entries_weaken _ _ (length h)) in He2; [|lia].
    intros a v E0 E1. cbn [visited] in E1.
    destruct (decide (a = ptr)) as [->|Hne].
    + rewrite Hrec in E1. injection E1 as <-.
      exists e, (length h), x, r0. split_and!; [done | done | done | |].
      * cbn [mem]. rewrite list_lookup_insert_eq by lia. done.
      * cbn [mem visited]. intros n.
        apply (copied_mono n (length h + 1) (length h) vis2 vis2 h0 h2);
          [lia | done | | apply Hc2].
        intros a c Ha Hl. by rewrite list_lookup_insert_ne by lia.
    + apply He2; [|done]. cbn. by rewrite lookup_insert_ne.
  - (* interface *)
    apply bind_Done in H as (r0 & s1 & H0 & H). simp_run.
    assert (regular ov = true ∧ ∀ i d, ov ≠ VIface i d) as [Hregv Hni]
      by (cbn in Hreg; destruct ov; by split).
    apply IH in H0 as (HS1 & Hx1 & Hc1 & He1); try done.
    cbn [mem visited] in *.
    pose proof (copied_type _ _ _ _ _ _ Hc1) as Ht.
    assert (r = VIface n (Some r0)) as ->.
    { destruct r0; cbn in E; try (by injection E as <-).
      destruct ov; try done. }
    split; [done|]. split; [|done].
    intros [|k]; [done|]. cbn. split_and!; [done | done | apply Hc1].
  - (* struct *)
    cbn in Hpl. apply andb_true_iff in Hpl as [Ht Hpl].
    apply negb_true_iff in Ht. rewrite Ht in H.
    rewrite hasDeepCopyMethod_none in H by done.
    rewrite zero_struct in H.
    apply bind_Done in H as (rfs & s1 & H0 & H). simp_run.
    cbn in Hcl, Hreg. apply forallb_Forall in Hcl, Hpl, Hreg.
    apply (copy_fields_copied h0 _ IH ofs [] [] _ _ _ (length h) vis) in H0
      as (HS1 & Hx1 & Hc1 & He1).
    + split; [done|]. split; [|done]. intros [|k]; [done|]. cbn.
      split; [done|]. eapply Forall2_impl; [exact Hc1|].
      intros f f' [? Hf]. split; [done | apply Hf].
    + done.
    + done.
    + apply (entries_refl h0 _ (mkState h vis)).
    + constructor.
    + apply Forall_forall. intros f Hf.
      rewrite Forall_forall in Hcl, Hpl, Hreg.
      specialize (Hcl f Hf). specialize (Hpl f Hf). specialize (Hreg f Hf).
      apply andb_true_iff in Hreg as [Hex Hreg]. rewrite Hex in Hpl.
      done.
  - (* slice *)
    pose proof HS as (L & F & T & I). cbn [mem visited] in L, F, T, I.
    simp_run. apply bind_Done in H as (? & s1 & H0 & H).
    destruct (decide _) as [Hlen|] in H0; [|done]. simp_run.
    apply bind_Done in H as (u & s2 & H0 & H). simp_run.
    cbn [mem visited] in *.
    cbn in E. rewrite decide_True in E by done. injection E as <-.
    assert (Data sh < length h0) as Hd by (cbn in Hcl; by apply Nat.ltb_lt).
    rewrite lookup_app_l, F in Hcell by lia.
    destruct (Hsrc _ _ Hcell) as (Hxc & Hxp & Hxr). cbn in Hxc, Hxp, Hxr.
    apply forallb_Forall in Hxc, Hxp, Hxr.
    cbn in Hreg. apply Nat.leb_le in Hreg.
    assert (length (take (Len sh) (drop (Off sh) x0)) = Len sh) as Hlos
      by (rewrite length_take, length_drop; lia).
    apply (copy_slice_copied h0 _ IH (length h) (zero e) _ [] []
             (Cap sh - Len sh) _ _ _ (S (length h)) vis) in H0
      as (HS2 & rs & Hc2 & Hf2 & He2).
    + split; [done|]. split; [|by eapply entries_weaken; [|exact He2]; lia].
      intros [|k]; [done|]. cbn. split_and!; [done | done | done |].
      exists x0, (rs ++ replicate (Cap sh - Len sh) (zero e)).
      split_and!; [done | done |].
      pose proof (Forall2_length _ _ _ Hf2) as Hlr. cbn in Hlr.
      rewrite drop_0, take_app_length' by lia.
      eapply Forall2_impl; [exact Hf2|]. intros o1 r1 Hor.
      eapply copied_mono; [| done | | apply Hor]; [lia | done].
    + by apply copy_state_alloc.
    + cbn. rewrite length_app. cbn. lia.
    + lia.
    + lia.
    + apply (entries_refl h0 _ (mkState _ vis)).
    + constructor.
    + cbn [mem]. rewrite lookup_app_r, Nat.sub_diag by lia. cbn.
      rewrite Hlos. do 3 f_equal. lia.
    + apply Forall_take, Forall_drop, Forall_forall. intros o Ho.
      rewrite Forall_forall in Hxc, Hxp, Hxr. unfold src_ok. auto.
  - (* map *)
    pose proof HS as (L & F & T & I). cbn [mem visited] in L, F, T, I.
    simp_run. apply bind_Done in H as (u & s2 & H0 & H). simp_run.
    cbn [mem visited] in *.
    cbn in E. rewrite decide_True in E by done. injection E as <-.
    assert (m < length h0) as Hd by (cbn in Hcl; by apply Nat.ltb_lt).
    rewrite lookup_app_l, F in Hcell by lia.
    destruct (Hsrc _ _ Hcell) as (Hxc & Hxp & Hxr). cbn in Hxc, Hxp, Hxr.
    apply andb_true_iff in Hxr as [Hxr Hdk].
    apply forallb_Forall in Hxc, Hxp, Hxr.
    apply (copy_map_copied h0 _ IH (length h) _ [] [] _ _ _
             (S (length h)) vis) in H0
      as (HS2 & acc & Hc2 & Hf2 & He2).
    + split; [done|]. split; [|by eapply entries_weaken; [|exact He2]; lia].
      intros [|k]; [done|]. cbn. split_and!; [done | done | done |].
      exists x0, acc. split_and!; [done | done |].
      eapply Forall2_impl; [exact Hf2|]. intros kv kv' [Hk Hv].
      split; (eapply copied_mono; [| done | | first [apply Hk | apply Hv]];
              [lia | done]).
    + by apply copy_state_alloc.
    + cbn. rewrite length_app. cbn. lia.
    + lia.
    + lia.
    + apply (entries_refl h0 _ (mkState _ vis)).
    + constructor.
    + cbn [mem]. rewrite lookup_app_r, Nat.sub_diag by lia. done.
    + done.
    + apply Forall_forall. intros kv Hkv.
      rewrite Forall_forall in Hxc, Hxp, Hxr.
      specialize (Hxc kv Hkv). specialize (Hxp kv Hkv). specialize (Hxr kv Hkv).
      apply andb_true_iff in Hxc as [? ?]. apply andb_true_iff in Hxp as [? ?].
      apply andb_true_iff in Hxr as [? ?]. done.
  - (* array *)
    change (zero (type_of (VArray e os)))
      with (VArray e (replicate (length os) (zero e))) in H.
    apply bind_Done in H as (rs & s1 & H0 & H). simp_run.
    cbn in Hcl, Hpl, Hreg. apply forallb_Forall in Hcl, Hpl, Hreg.
    apply (copy_array_copied h0 _ IH e os [] [] _ _ _ (length h) vis) in H0
      as (HS1 & Hx1 & Hc1 & He1).
    + split; [done|]. split; [|done]. intros [|k]; [done|]. cbn.
      split; [done|]. eapply Forall2_impl; [exact Hc1|].
      intros o1 r1 Hor. apply Hor.
    + done.
    + done.
    + apply (entries_refl h0 _ (mkState h vis)).
    + constructor.
    + apply Forall_forall. intros o Ho.
      rewrite Forall_forall in Hcl, Hpl, Hreg.
      specialize (Hreg o Ho). apply andb_true_iff in Hreg as [Ht Hreg].
      apply rtype_eqb_eq in Ht.
      split; [|done]. unfold src_ok.
      split_and!; [exact (Hcl o Ho) | exact (Hpl o Ho) | done].
Qed.

End Equal.

Lemma forall2b_Forall2 {A B} (f : A → B → bool) l l' :
  Forall2 (λ x y, f x y = true) l l' → forall2b f l l' = true.
Proof. induction 1 as [|x y l l' Hxy _ IH]; [done|]. cbn. by rewrite Hxy, IH. Qed.

Lemma datum_eqb_refl d : datum_eqb d d = true.
Proof. destruct d; cbn; by apply bool_decide_eq_true_2. Qed.

Section Closed.

Context (lo : nat) (vis : gmap addr value) (h0 H : heap).
Context (Hfull : ∀ a e' a', vis !! a = Some (VPtr e' (Some a')) →
           ∃ x x', h0 !! a = Some (CVal x) ∧ H !! a' = Some (CVal x') ∧
                   copy_of lo vis h0 H x x').

(** Once every visited entry is complete, a copy is equal to its source
    in value terms. *)
Lemma copy_of_deep_equal n :
  ∀ v r, copy_of lo vis h0 H v r → deep_equal n h0 v H r = true.
Proof using Hfull.
  induction n as [|n IH]; intros v r Hc; [done|].
  pose proof (Hc 1) as H1.
  destruct v as [k d|e [a|]|i [x|]|s fs|e [sh|]|kt e [m|]|e vs|e c|sg f|p],
           r as [k' d'|e' [a'|]|i' [x'|]|s' fs'|e' [sh'|]|kt' e' [m'|]|e' vs'|e' c'|sg' f'|p'];
    cbn [copied] in H1; try done; cbn [deep_equal].
  - destruct H1 as [-> ->]. by rewrite bool_decide_eq_true_2, datum_eqb_refl.
  - destruct H1 as (Ht & e'' & Hl). rewrite bool_decide_eq_true_2 by done.
    destruct (Hfull _ _ _ Hl) as (x & x' & -> & -> & Hx). cbn. by apply IH.
  - by rewrite bool_decide_eq_true_2.
  - destruct H1 as (-> & Ht & _). rewrite !bool_decide_eq_true_2 by done. cbn.
    apply IH. intros k. specialize (Hc (S k)). cbn in Hc. apply Hc.
  - by rewrite bool_decide_eq_true_2.
  - destruct H1 as (-> & _). rewrite bool_decide_eq_true_2 by done. cbn.
    apply forall2b_Forall2.
    assert (Forall2 (λ f f', ∀ k, FName f = FName f' ∧
              copied k lo vis h0 H (FValue f) (FValue f')) fs fs') as Hf.
    { apply Forall2_all_depths with
        (R := λ k f f', FName f = FName f' ∧
                        copied k lo vis h0 H (FValue f) (FValue f')).
      intros k. specialize (Hc (S k)). cbn in Hc. apply Hc. }
    eapply Forall2_impl; [exact Hf|]. intros f f' Hff.
    rewrite bool_decide_eq_true_2 by (by destruct (Hff 0)). cbn.
    apply IH. intros k. by destruct (Hff k).
  - destruct H1 as (Ht & HL & _ & vs & vs' & E1 & E2 & _).
    rewrite !bool_decide_eq_true_2 by done. cbn. rewrite E1, E2.
    apply forall2b_Forall2.
    assert (Forall2 (copy_of lo vis h0 H)
              (take (Len sh) (drop (Off sh) vs))
              (take (Len sh') (drop (Off sh') vs'))) as Hf.
    { apply Forall2_all_depths with (R := λ k, copied k lo vis h0 H).
      intros k. specialize (Hc (S k)). cbn in Hc.
      destruct Hc as (_ & _ & _ & ws & ws' & E1' & E2' & Hc).
      rewrite E1 in E1'. rewrite E2 in E2'. by simplify_eq. }
    eapply Forall2_impl; [exact Hf|]. intros; by apply IH.
  - by rewrite bool_decide_eq_true_2.
  - destruct H1 as (Ht & Ht' & _ & kvs & kvs' & E1 & E2 & _).
    rewrite !bool_decide_eq_true_2 by done. cbn. rewrite E1, E2.
    apply forall2b_Forall2.
    assert (Forall2 (λ kv kv', ∀ k, copied k lo vis h0 H kv.1 kv'.1 ∧
                                    copied k lo vis h0 H kv.2 kv'.2)
              kvs kvs') as Hf.
    { apply Forall2_all_depths with
        (R := λ k kv kv', copied k lo vis h0 H kv.1 kv'.1 ∧
                          copied k lo vis h0 H kv.2 kv'.2).
      intros k. specialize (Hc (S k)). cbn in Hc.
      destruct Hc as (_ & _ & _ & ws & ws' & E1' & E2' & Hc).
      rewrite E1 in E1'. rewrite E2 in E2'. by simplify_eq. }
    eapply Forall2_impl; [exact Hf|]. intros kv kv' Hkv.
    apply andb_true_iff. split; apply IH; intros k; by destruct (Hkv k).
  - destruct H1 as [? ?]. by rewrite !bool_decide_eq_true_2.
  - destruct H1 as [Ht _]. rewrite bool_decide_eq_true_2 by done. cbn.
    apply forall2b_Forall2.
    assert (Forall2 (copy_of lo vis h0 H) vs vs') as Hf.
    { apply Forall2_all_depths with (R := λ k, copied k lo vis h0 H).
      intros k. specialize (Hc (S k)). cbn in Hc. by destruct Hc. }
    eapply Forall2_impl; [exact Hf|]. intros; by apply IH.
  - destruct H1 as [? ->]. by rewrite !bool_decide_eq_true_2.
  - destruct H1 as [-> ->]. by rewrite !bool_decide_eq_true_2.
  - subst. by rewrite bool_decide_eq_true_2.
Qed.

End Closed.


Lemma copy_of_ValueOf lo vis h0 H src cpy :
  copy_of lo vis h0 H src cpy →
  match ValueOf src, ValueOf cpy with
  | Some x, Some d => copy_of lo vis h0 H x d
  | None, None => True
  | _, _ => False
  end.
Proof.
  intros Hc. pose proof (Hc 1) as H1.
  destruct src as [k d|e [a|]|i [x|]|s fs|e [sh|]|kt e [m|]|e vs|e c|sg f|p],
           cpy as [k' d'|e' [a'|]|i' [x'|]|s' fs'|e' [sh'|]|kt' e' [m'|]|e' vs'|e' c'|sg' f'|p'];
    cbn [copied] in H1; try done; cbn [ValueOf]; try exact Hc.
  intros k. specialize (Hc (S k)). cbn in Hc. apply Hc.
Qed.




(* ===================================================================== *)
(** ** The cached traversal *)
(* ===================================================================== *)

Lemma bind_ext {A B} (m : M A) (k k' : A → M B) s :
  (∀ a s1, m s = Done (a, s1) → k a s1 = k' a s1) →
  bind m k s = bind m k' s.
Proof. unfold bind. destruct (m s) as [[a s1]| |]; eauto. Qed.

Section CacheIgnored.
Context (MethodByName : tkey → option Method) (st : astore).
Context (rec : value → value → M value).
Context (recc : option nat → value → value → M value).
Hypothesis Hrec : ∀ ti o c s, recc ti o c s = rec o c s.

Lemma copy_fields_cached_eq ti ofs :
  ∀ i cfs s, copy_fields_cached st recc ti i ofs cfs s = copy_fields rec i ofs cfs s.
Proof using Hrec.
  induction ofs as [|f ofs IH]; intros i cfs s; [done|].
  cbn. destruct (fexported f); [|apply IH].
  destruct (cfs !! i) as [c|]; [|done].
  unfold bind. rewrite Hrec. destruct (rec _ _ s) as [[r s1]| |]; [apply IH|done|done].
Qed.

End CacheIgnored.

Lemma loops_ext_array (rec rec' : value → value → M value) :
  (∀ o c s, rec o c s = rec' o c s) →
  ∀ os i cs s, copy_array rec i os cs s = copy_array rec' i os cs s.
Proof.
  intros H os. induction os as [|o os IH]; intros i cs s; [done|].
  cbn. destruct (cs !! i); [|done]. unfold bind. rewrite H.
  destruct (rec' _ _ s) as [[r s1]| |]; [apply IH|done|done].
Qed.

Lemma loops_ext_slice (rec rec' : value → value → M value) :
  (∀ o c s, rec o c s = rec' o c s) →
  ∀ os a i s, copy_slice rec a i os s = copy_slice rec' a i os s.
Proof.
  intros H os. induction os as [|o os IH]; intros a i s; [done|].
  cbn. unfold bind at 1 3. rewrite H.
  destruct (rec' _ _ s) as [[r s1]| |]; [|done|done].
  apply bind_ext. intros _ s2 _. apply IH.
Qed.

Lemma loops_ext_map (rec rec' : value → value → M value) :
  (∀ o c s, rec o c s = rec' o c s) →
  ∀ kvs a s, copy_map rec a kvs s = copy_map rec' a kvs s.
Proof.
  intros H kvs. induction kvs as [|[k v] kvs IH]; intros a s; [done|].
  cbn. unfold bind at 1 4. rewrite H.
  destruct (rec' _ _ s) as [[r s1]| |]; [|done|done].
  unfold bind at 1 3. rewrite H.
  destruct (rec' _ _ s1) as [[r2 s2]| |]; [|done|done].
  apply bind_ext. intros _ s3 _. apply IH.
Qed.

Lemma copyRecursiveWithCache_eq
    (MethodByName : tkey → option Method) (st : astore) (fuel : nat)
    (typeInfo : option nat) (original cpy : value) (s : cstate) :
  copyRecursiveWithCache MethodByName st fuel typeInfo original cpy s
  = copyRecursive MethodByName fuel original cpy s.
Proof.
  revert typeInfo original cpy s.
  induction fuel as [|fuel IH]; intros ti o c s; [done|].
  destruct o as [k d|e [ptr|]|n [ov|]|name ofs|e [sh|]|kt e [m|]|e os|e ch|sg f|p];
    cbn [copyRecursiveWithCache copyRecursive]; try done.
  - apply bind_ext. intros vis s1 _. destruct (vis !! ptr); [done|].
    destruct (hasDeepCopyMethod _ _); [done|].
    apply bind_ext. intros ov s2 _.
    destruct (hasDeepCopyMethod _ _); [done|].
    repeat (apply bind_ext; intros ? ? _).
    unfold bind. rewrite IH. done.
  - unfold bind. rewrite IH. done.
  - destruct (isTime name); [done|]. destruct (hasDeepCopyMethod _ _); [done|].
    destruct c; try done. unfold bind.
    rewrite (copy_fields_cached_eq st (copyRecursive MethodByName fuel)) by (intros; apply IH).
    done.
  - repeat (apply bind_ext; intros ? ? _).
    unfold bind. rewrite (loops_ext_slice _ (copyRecursive MethodByName fuel)) by (intros; apply IH). done.
  - repeat (apply bind_ext; intros ? ? _).
    unfold bind. rewrite (loops_ext_map _ (copyRecursive MethodByName fuel)) by (intros; apply IH). done.
  - destruct c; try done. unfold bind.
    rewrite (loops_ext_array _ (copyRecursive MethodByName fuel)) by (intros; apply IH). done.
Qed.

(** [copyRecursiveWithCache] never consults its [typeInfo] argument: for
    every analysis store and every [typeInfo] it does what
    [copyRecursive] does, on every input and state, panics and
    divergence included. *)
Theorem typeInfo_is_never_consulted
    (MethodByName : tkey → option Method) (st st' : astore) (fuel : nat)
    (typeInfo typeInfo' : option nat) (original cpy : value) (s : cstate) :
  copyRecursiveWithCache MethodByName st fuel typeInfo original cpy s
  = copyRecursive MethodByName fuel original cpy s ∧
  copyRecursiveWithCache MethodByName st fuel typeInfo original cpy s
  = copyRecursiveWithCache MethodByName st' fuel typeInfo' original cpy s.
Proof. by rewrite !copyRecursiveWithCache_eq. Qed.

(* ===================================================================== *)
(** ** Types and frames of the traversal *)
(* ===================================================================== *)


Lemma Set_type cpy v r :
  Set_ cpy v = Some r → tid (type_of r) = tid (type_of cpy).
Proof.
  destruct cpy, v; cbn; intros H; try case_decide; simplify_eq; cbn in *; try done.
  all: congruence.
Qed.

Lemma copy_array_length rec os :
  ∀ i cs s r s', copy_array rec i os cs s = Done (r, s') → length r = length cs.
Proof.
  induction os as [|o os IH]; intros i cs s r s' H; cbn in H.
  - by simp_run.
  - destruct (cs !! i); [|done]. apply bind_Done in H as (x & s1 & _ & H).
    apply IH in H. by rewrite length_insert in H.
Qed.

(** A call of [copyRecursive] that returns leaves in the destination a
    value of the type the destination had: every branch ends in a
    [Set], which checks it, or rebuilds the struct or array in place. *)
Theorem copyRecursive_keeps_type
    (MethodByName : tkey → option Method) (fuel : nat)
    (original cpy : value) (s : cstate) (r : value) (s' : cstate) :
  copyRecursive MethodByName fuel original cpy s = Done (r, s') →
  tid (type_of r) = tid (type_of cpy).
Proof.
  intros H. destruct fuel as [|fuel]; [done|]. cbn [copyRecursive] in H.
  destruct original as [k d|e [ptr|]|n [ov|]|name ofs|e [sh|]|kt e [m|]|e os|e ch|sg f|p];
    try (simp_run; by eapply Set_type).
  - simp_run. destruct (visited s !! ptr); [simp_run; by eapply Set_type|].
    destruct (hasDeepCopyMethod _ _).
    { simp_run. apply bind_Done in H as (c' & s1 & H0 & H). simp_run.
      destruct (decide _) in H0; simp_run; by eapply Set_type. }
    simp_run. destruct (hasDeepCopyMethod _ _); simp_run; [by eapply Set_type|].
    apply bind_Done in H as (c' & s1 & H0 & H). simp_run. by eapply Set_type.
  - apply bind_Done in H as (c' & s1 & H0 & H). simp_run. by eapply Set_type.
  - destruct (isTime name); [simp_run; by eapply Set_type|].
    destruct (hasDeepCopyMethod _ _); [simp_run; by eapply Set_type|].
    destruct cpy; try (destruct (forallb _ _); by simp_run).
    apply bind_Done in H as (c' & s1 & H0 & H). by simp_run.
  - simp_run. apply bind_Done in H as (c' & s1 & H0 & H).
    apply bind_Done in H as (c'' & s2 & H1 & H). simp_run. by eapply Set_type.
  - simp_run. apply bind_Done in H as (c' & s1 & H0 & H). simp_run. by eapply Set_type.
  - destruct cpy; try (destruct os; by simp_run).
    apply bind_Done in H as (c' & s1 & H0 & H). simp_run.
    apply copy_array_length in H0. cbn. by rewrite H0.
Qed.

(** The copy of a pointer to 42 is a pointer to an [int]. *)
Lemma copyRecursive_keeps_type_witness :
  tid (type_of (VPtr (TBasic Int) (Some 1))) = KPtr (KBasic Int).
Proof.
  assert (copyRecursive Examples.no_methods 2 (VPtr (TBasic Int) (Some 0))
            (VPtr (TBasic Int) None)
            (mkState [CVal (VBasic Int (DNum 42))] ∅)
          = Done (VPtr (TBasic Int) (Some 1),
                  mkState [CVal (VBasic Int (DNum 42));
                           CVal (VBasic Int (DNum 42))]
                    (<[0 := VPtr (TBasic Int) (Some 1)]> ∅))) as Hrun
    by (vm_compute; reflexivity).
  exact (copyRecursive_keeps_type _ _ _ _ _ _ _ Hrun).
Defined.


Lemma untouched_refl h : untouched h h.
Proof. by split. Qed.

Lemma untouched_app h cs : untouched h (h ++ cs).
Proof.
  split; [rewrite length_app; lia|]. intros a Ha. by rewrite lookup_app_l.
Qed.

Lemma untouched_trans h1 h2 h3 :
  untouched h1 h2 → untouched h2 h3 → untouched h1 h3.
Proof.
  intros [L1 F1] [L2 F2]. split; [lia|]. intros a Ha.
  rewrite F2 by lia. by apply F1.
Qed.

Lemma copyRecursive_untouched MethodByName fuel o c s r s' :
  copyRecursive MethodByName fuel o c s = Done (r, s') →
  untouched (mem s) (mem s').
Proof.
  intros H. apply copyRecursive_extends in H as (L & F & _). by split.
Qed.

Lemma callDeepCopy_untouched v m s r s' :
  callDeepCopy v m s = Done (r, s') → untouched (mem s) (mem s').
Proof. intros H. apply callDeepCopy_Done in H as [-> _]. apply untouched_app. Qed.

Lemma CopyValue_untouched MethodByName fuel m src h r h' m' :
  CopyValue MethodByName fuel m src h = Done (r, h', m') → untouched h h'.
Proof.
  unfold CopyValue. destruct src as [v|]; [|intros [= _ <- _]; apply untouched_refl].
  destruct (getOrAnalyzeType m (type_of v)) as [a m1].
  destruct (IsOnlyValues _); [intros [= _ <- _]; apply untouched_refl|].
  assert (∀ s, match copyRecursive MethodByName fuel v (zero (type_of v)) s with
               | Done (cpy, s0) => Done (ValueOf cpy, mem s0, m1)
               | Panic => Panic | OutOfFuel => OutOfFuel end = Done (r, h', m') →
               untouched (mem s) h') as Ht.
  { intros s H. destruct (copyRecursive _ _ _ _ s) as [[cpy s0]| |] eqn:E; [|done|done].
    injection H as _ <- _. by eapply copyRecursive_untouched. }
  destruct (hasDeepCopyMethod _ _) as [method|]; [|apply (Ht (mkState h ∅))].
  destruct (callDeepCopy _ _ _) as [[[res|] s]| |] eqn:E; try done.
  - intros [= _ <- _]. by apply callDeepCopy_untouched in E.
  - intros H. apply callDeepCopy_untouched in E. apply Ht in H.
    by eapply untouched_trans.
Qed.



(* ===================================================================== *)
(** ** Methods the library does not call *)
(* ===================================================================== *)

Section SameMethods.
Context (M1 M2 : tkey → option Method).
Hypothesis Hsame : ∀ v, hasDeepCopyMethod M1 v = hasDeepCopyMethod M2 v.

Lemma copy_fields_ext (rec rec' : value → value → M value) :
  (∀ o c s, rec o c s = rec' o c s) →
  ∀ ofs i cfs s, copy_fields rec i ofs cfs s = copy_fields rec' i ofs cfs s.
Proof.
  intros H ofs. induction ofs as [|f ofs IH]; intros i cfs s; [done|].
  cbn. destruct (fexported f); [|apply IH].
  destruct (cfs !! i); [|done]. unfold bind. rewrite H.
  destruct (rec' _ _ s) as [[r s1]| |]; [apply IH|done|done].
Qed.

Lemma copyRecursive_same_methods fuel :
  ∀ o c s, copyRecursive M1 fuel o c s = copyRecursive M2 fuel o c s.
Proof using Hsame.
  induction fuel as [|fuel IH]; intros o c s; [done|].
  destruct o as [k d|e [ptr|]|n [ov|]|name ofs|e [sh|]|kt e [m|]|e os|e ch|sg f|p];
    cbn [copyRecursive]; try done.
  - apply bind_ext. intros vis s1 _. destruct (vis !! ptr); [done|].
    rewrite Hsame. destruct (hasDeepCopyMethod M2 _); [done|].
    apply bind_ext. intros ov s2 _. rewrite Hsame.
    destruct (hasDeepCopyMethod M2 _); [done|].
    repeat (apply bind_ext; intros ? ? _).
    unfold bind. rewrite IH. done.
  - unfold bind. rewrite IH. done.
  - destruct (isTime name); [done|]. rewrite Hsame.
    destruct (hasDeepCopyMethod M2 _); [done|].
    destruct c; try done. unfold bind.
    rewrite (copy_fields_ext _ (copyRecursive M2 fuel)) by apply IH. done.
  - repeat (apply bind_ext; intros ? ? _).
    unfold bind. rewrite (loops_ext_slice _ (copyRecursive M2 fuel)) by apply IH. done.
  - repeat (apply bind_ext; intros ? ? _).
    unfold bind. rewrite (loops_ext_map _ (copyRecursive M2 fuel)) by apply IH. done.
  - destruct c; try done. unfold bind.
    rewrite (loops_ext_array _ (copyRecursive M2 fuel)) by apply IH. done.
Qed.

Lemma CopyValue_same_methods fuel m src h :
  CopyValue M1 fuel m src h = CopyValue M2 fuel m src h.
Proof using Hsame.
  unfold CopyValue. destruct src as [v|]; [|done].
  destruct (getOrAnalyzeType m (type_of v)) as [a m1].
  destruct (IsOnlyValues _); [done|]. rewrite Hsame.
  destruct (hasDeepCopyMethod M2 _) as [method|].
  - destruct (callDeepCopy _ _ _) as [[[res|] s]| |]; try done.
    by rewrite copyRecursive_same_methods.
  - by rewrite copyRecursive_same_methods.
Qed.

End SameMethods.

(** A [DeepCopy] method that takes an argument or returns no or several
    results is never called: the traversal and [CopyValue] behave as if
    the type had no such method. *)
Theorem methods_of_wrong_signature_are_ignored
    (MethodByName : tkey → option Method)
    (Hsig : ∀ k method, MethodByName k = Some method →
            NumIn method ≠ 1 ∨ NumOut method ≠ 1) :
  (∀ fuel original cpy s,
     copyRecursive MethodByName fuel original cpy s
     = copyRecursive (λ _, None) fuel original cpy s) ∧
  (∀ fuel m src h,
     CopyValue MethodByName fuel m src h = CopyValue (λ _, None) fuel m src h).
Proof.
  assert (∀ v, hasDeepCopyMethod MethodByName v = hasDeepCopyMethod (λ _, None) v)
    as Hsame.
  { intros [v|]; [|done]. destruct v; cbn; try done;
      (destruct (MethodByName _) as [md|] eqn:E; [|done]);
      apply Hsig in E as [E|E];
      by rewrite (bool_decide_eq_false_2 _ E), ?andb_false_r. }
  split.
  - intros. by apply copyRecursive_same_methods.
  - intros. by apply CopyValue_same_methods.
Qed.

(** A [DeepCopy(x)] with a parameter on [User] changes nothing in the
    copy of a pointer to a [User]. *)
Lemma methods_of_wrong_signature_are_ignored_witness :
  CopyValue Examples.two_args 3 NewDeepCopyManager
    (Some (VPtr Examples.User (Some 0)))
    [CVal (Examples.user 1 "john" "secret123")]
  = CopyValue (λ _, None) 3 NewDeepCopyManager
    (Some (VPtr Examples.User (Some 0)))
    [CVal (Examples.user 1 "john" "secret123")].
Proof.
  apply (proj2 (methods_of_wrong_signature_are_ignored Examples.two_args
    ltac:(intros k m; unfold Examples.two_args; case_decide; [intros [= <-]; left; cbn; lia|done]))).
Defined.

(* ===================================================================== *)
(** ** The analysis cache and the kinds *)
(* ===================================================================== *)

Lemma analyze_fields_length p fs :
  ∀ visited st, length st ≤ length (analyze_fields p fs visited st).2.
Proof.
  induction fs as [|f fs IH]; intros visited st; [done|].
  cbn [analyze_fields]. destruct (exported f); [|apply IH].
  pose proof (analyzeTypeRecursive_grows (Type_ f) visited st) as [L _].
  destruct (analyzeTypeRecursive (Type_ f) visited st) as [[q vis'] st'].
  etrans; [|apply IH]. by rewrite length_merge_field.
Qed.

(** On a miss in the visited map the result is a newly allocated one. *)
Lemma analyzeTypeRecursive_miss t visited st :
  lookup_key (tid t) visited = None →
  (analyzeTypeRecursive t visited st).1.1 = length st ∧
  length st < length (analyzeTypeRecursive t visited st).2.
Proof.
  intros Hmiss.
  destruct t; [| |rewrite analyzeTypeRecursive_struct|..];
    cbn [analyzeTypeRecursive tid] in *; rewrite Hmiss; cbn zeta;
    repeat match goal with
    | |- context [analyzeTypeRecursive ?e ?v ?s] =>
        pose proof (analyzeTypeRecursive_grows e v s) as [? _];
        destruct (analyzeTypeRecursive e v s) as [[? ?] ?]
    | |- context [analyze_fields ?p ?fs ?v ?s] =>
        pose proof (analyze_fields_length p fs v s);
        destruct (analyze_fields p fs v s) as [? ?]
    end; cbn [fst snd] in *;
    repeat match goal with
    | H : context [length (upd _ _ _)] |- _ => rewrite length_upd in H
    | H : context [length (_ ++ _)] |- _ => rewrite length_app in H
    | H : context [if ?b then _ else _] |- _ => destruct b
    end;
    rewrite ?length_upd, ?length_app in *; cbn [length] in *;
    (split; [done|]); lia.
Qed.

(** [getOrAnalyzeType] only adds to the manager: the results that exist
    are unchanged and the cache keeps its entries; what it returns is
    cached, so that a second call returns the same pointer and changes
    nothing; and the result behind a pointer handed out stays what it
    was through any later call. *)
Theorem getOrAnalyzeType_only_adds (m : DeepCopyManager) (t : rtype)
    (Hvalid : valid (analysisCache m) (results m)) :
  let r := getOrAnalyzeType m t in
  grows (results m) (results r.2) ∧
  (∀ k p, lookup_key k (analysisCache m) = Some p →
          lookup_key k (analysisCache r.2) = Some p) ∧
  valid (analysisCache r.2) (results r.2) ∧
  r.1 < length (results r.2) ∧
  getOrAnalyzeType r.2 t = r ∧
  ∀ u, deref (results (getOrAnalyzeType r.2 u).2) r.1 = deref (results r.2) r.1.
Proof.
  assert (∀ m t, grows (results m) (results (getOrAnalyzeType m t).2)) as Hg.
  { clear. intros m t. unfold getOrAnalyzeType.
    destruct (lookup_key _ _); [apply grows_refl|].
    pose proof (analyzeTypeRecursive_grows t [] (results m)) as G.
    by destruct (analyzeTypeRecursive t [] (results m)) as [[a vis] st]. }
  cbn zeta. pose proof (Hg m t) as G.
  assert ((getOrAnalyzeType m t).1 < length (results (getOrAnalyzeType m t).2)
          ∧ valid (analysisCache (getOrAnalyzeType m t).2)
                  (results (getOrAnalyzeType m t).2)
          ∧ (∀ k p, lookup_key k (analysisCache m) = Some p →
               lookup_key k (analysisCache (getOrAnalyzeType m t).2) = Some p)
          ∧ getOrAnalyzeType (getOrAnalyzeType m t).2 t = getOrAnalyzeType m t)
    as (Hp & Hv & Hk & Hi).
  { clear G Hg. destruct (getOrAnalyzeType m t) as [a m'] eqn:Eg.
    unfold getOrAnalyzeType in Eg. cbn [fst snd].
    destruct (lookup_key (tid t) (analysisCache m)) as [p|] eqn:E.
    - injection Eg as <- <-. split_and!; [by eapply Hvalid | done | done |].
      unfold getOrAnalyzeType. by rewrite E.
    - pose proof (analyzeTypeRecursive_miss t [] (results m) eq_refl) as [E1 L].
      destruct (analyzeTypeRecursive t [] (results m)) as [[a' vis] st].
      injection Eg as <- <-. cbn [fst snd analysisCache results] in *. subst a'. split_and!; [done | | |].
      + intros k p. rewrite lookup_key_cons. case_decide; [intros [= <-]; lia|].
        intros Hc. apply Hvalid in Hc. lia.
      + intros k p Hc. rewrite lookup_key_cons. case_decide as Hk; [|done].
        subst k. by rewrite E in Hc.
      + unfold getOrAnalyzeType. cbn [analysisCache].
        rewrite lookup_key_cons, decide_True by done. done. }
  split_and!; try done.
  intros u. apply grows_deref; [apply Hg | done].
Qed.

(** [TestStruct], analysed twice by a new manager. *)
Lemma getOrAnalyzeType_only_adds_witness :
  getOrAnalyzeType (getOrAnalyzeType NewDeepCopyManager Examples.TestStruct).2
    Examples.TestStruct
  = getOrAnalyzeType NewDeepCopyManager Examples.TestStruct.
Proof.
  exact (proj1 (proj2 (proj2 (proj2 (proj2
    (getOrAnalyzeType_only_adds NewDeepCopyManager Examples.TestStruct
       ltac:(intros k p H; discriminate H))))))).
Defined.

Ltac deref_new :=
  repeat first
    [ rewrite deref_upd_eq by (rewrite ?length_upd, ?length_app; cbn [length]; lia)
    | progress cbn [IsOnlyValues ContainsPtr ContainsSlice ContainsMap
                    ContainsChan ContainsFunc ContainsIface
                    set_IsOnlyValues set_ContainsPtr set_ContainsSlice
                    set_ContainsMap set_ContainsChan set_ContainsFunc
                    set_ContainsIface set_FieldAnalysis new_result] ].

(** The analysis of a pointer, slice, map, channel, function, interface
    or unsafe-pointer type, on a miss in the visited map, reports the
    type as not value-only and sets the flag of its kind, whatever the
    analysis of its element did to the store. *)
Theorem reference_kinds_are_flagged (t : rtype) (visited : avisited)
    (st : astore) (Hmiss : lookup_key (tid t) visited = None) :
  let r := analyzeTypeRecursive t visited st in
  kind_flags t (deref r.2 r.1.1).
Proof.
  cbn zeta.
  destruct t as [k|n e|name fs|name|e|e|k e|e|s|n|]; try exact I;
    cbn [analyzeTypeRecursive tid] in *; rewrite Hmiss; cbn zeta;
    unfold kind_flags.
  - set (st1 := upd _ (set_ContainsPtr true) _).
    pose proof (analyzeTypeRecursive_grows e ((KPtr (tid e), length st) :: visited) st1) as G.
    destruct (analyzeTypeRecursive e _ st1) as [[q vis'] st2]. cbn [fst snd] in *.
    assert (length st < length st1) as L1
      by (subst st1; rewrite !length_upd, length_app; cbn; lia).
    pose proof (grows_deref _ _ _ G L1) as E. destruct G as [L2 _].
    deref_new. rewrite E. subst st1. deref_new. done.
  - set (st1 := upd _ (set_ContainsSlice true) _).
    pose proof (analyzeTypeRecursive_grows e ((KSlice (tid e), length st) :: visited) st1) as G.
    destruct (analyzeTypeRecursive e _ st1) as [[q vis'] st2]. cbn [fst snd] in *.
    assert (length st < length st1) as L1
      by (subst st1; rewrite !length_upd, length_app; cbn; lia).
    pose proof (grows_deref _ _ _ G L1) as E. destruct G as [L2 _].
    deref_new. rewrite E. subst st1. deref_new. done.
  - set (st1 := upd _ (set_ContainsMap true) _).
    pose proof (analyzeTypeRecursive_grows k ((KMap (tid k) (tid e), length st) :: visited) st1) as G.
    destruct (analyzeTypeRecursive k _ st1) as [[q vis'] st2].
    pose proof (analyzeTypeRecursive_grows e vis' st2) as G2.
    destruct (analyzeTypeRecursive e vis' st2) as [[q2 vis2] st3].
    cbn [fst snd] in *.
    assert (length st < length st1) as L1
      by (subst st1; rewrite !length_upd, length_app; cbn; lia).
    pose proof (grows_deref _ _ _ (grows_trans _ _ _ G G2) L1) as E.
    destruct G as [L2 _]. destruct G2 as [L3 _].
    deref_new. rewrite E. subst st1. deref_new. done.
  - cbn [fst snd]; deref_new; done.
  - cbn [fst snd]; deref_new; done.
  - cbn [fst snd]; deref_new; done.
  - cbn [fst snd]; deref_new; done.
Qed.

(** [*int]. *)
Lemma reference_kinds_are_flagged_witness :
  kind_flags (TPtr (TBasic Int))
    (deref (analyzeTypeRecursive (TPtr (TBasic Int)) [] []).2
       (analyzeTypeRecursive (TPtr (TBasic Int)) [] []).1.1).
Proof. exact (reference_kinds_are_flagged (TPtr (TBasic Int)) [] [] eq_refl). Defined.

(* ===================================================================== *)
(** ** Exactness of the classifier *)
(* ===================================================================== *)


Lemma components_self t : t ∈ components t.
Proof. destruct t; cbn; apply list_elem_of_here. Qed.

Lemma components_size t : ∀ u, u ∈ components t → type_size u ≤ type_size t.
Proof.
  induction t as [k|n e IH|name fs IH|name|e IH|e IH|k e IHk IHe|e IH|s|n|]
    using rtype_induction; intros u Hu; cbn [components] in Hu;
    (apply elem_of_cons in Hu as [->|Hu]; [lia|]);
    try (by apply elem_of_nil in Hu);
    try (apply IH in Hu; cbn; lia).
  - apply list_elem_of_In, in_flat_map in Hu as (f & Hf & Hu).
    apply list_elem_of_In in Hu. rewrite Forall_forall in IH.
    apply (IH f) in Hu; [|by apply list_elem_of_In].
    change (type_size (TStruct name fs))
      with (S (list_sum (map (λ f, type_size (Type_ f)) fs))).
    assert (type_size (Type_ f) ≤ list_sum (map (λ f, type_size (Type_ f)) fs)).
    { clear -Hf. induction fs as [|g fs IHfs]; [done|].
      destruct Hf as [->|Hf]; cbn [map]; change (list_sum (?x :: ?l)) with (x + list_sum l);
        [lia|]. apply IHfs in Hf. lia. }
    lia.
  - apply elem_of_app in Hu as [Hu|Hu]; [apply IHk in Hu | apply IHe in Hu];
      cbn; lia.
Qed.

Lemma components_trans t :
  ∀ u v, u ∈ components t → v ∈ components u → v ∈ components t.
Proof.
  induction t as [k|n e IH|name fs IH|name|e IH|e IH|k e IHk IHe|e IH|s|n|]
    using rtype_induction; intros u v Hu Hv; cbn [components] in Hu;
    apply elem_of_cons in Hu as [->|Hu]; try done;
    try (by apply elem_of_nil in Hu);
    try (cbn [components]; right; by eapply IH).
  - cbn [components]. right.
    apply list_elem_of_In, in_flat_map in Hu as (f & Hf & Hu).
    apply list_elem_of_In, in_flat_map. exists f. split; [done|].
    apply list_elem_of_In. rewrite Forall_forall in IH.
    eapply (IH f); [by apply list_elem_of_In | by apply list_elem_of_In | done].
  - cbn [components]. right. apply elem_of_app.
    apply elem_of_app in Hu as [Hu|Hu]; [left; by eapply IHk | right; by eapply IHe].
Qed.

Lemma subterms_components t : ∀ u, u ∈ subterms t → u ∈ components t.
Proof.
  induction t as [k|n e IH|name fs IH|name|e IH|e IH|k e IHk IHe|e IH|s|n|]
    using rtype_induction; intros u Hu; cbn [subterms] in Hu;
    apply elem_of_cons in Hu as [->|Hu]; try apply components_self;
    try (by apply elem_of_nil in Hu).
  - cbn [components]. right. by apply IH.
  - cbn [components]. right.
    apply list_elem_of_In, in_flat_map in Hu as (f & Hf & Hu).
    apply list_elem_of_In, in_flat_map. exists f. split; [done|].
    apply list_elem_of_In. rewrite Forall_forall in IH.
    apply (IH f); [by apply list_elem_of_In | by apply list_elem_of_In].
Qed.

Lemma iov_upd_false p st i :
  iov (upd p (set_IsOnlyValues false) st) i = true → iov st i = true.
Proof. unfold iov. rewrite deref_upd. by case_decide. Qed.

Lemma merge_field_iov_le p n q st i :
  iov (merge_field p n q st) i = true → iov st i = true.
Proof.
  unfold merge_field. cbv zeta. intros H.
  repeat match type of H with
  | context [if ?b then _ else _] => destruct b
  end;
  repeat first
    [ rewrite iov_upd_flag in H by done
    | apply iov_upd_false in H ]; done.
Qed.

Lemma merge_field_iov_q p n q st :
  p < length st → iov (merge_field p n q st) p = true → iov st q = true.
Proof.
  intros Hp. unfold merge_field. cbv zeta.
  assert (iov (upd p (λ r, set_FieldAnalysis
            (Some (<[n:=q]> (default ∅ (FieldAnalysis r)))) r) st) q
          = iov st q) as E by (by rewrite iov_upd_flag).
  unfold iov in E at 1. rewrite E.
  destruct (iov st q) eqn:Hq; [done|]. intros H. exfalso.
  repeat match type of H with
  | context [if ?b then _ else _] => destruct b
  end;
  repeat rewrite iov_upd_flag in H by done;
  unfold iov in H; rewrite deref_upd_eq in H by (by rewrite length_upd); done.
Qed.

Lemma sound_at_mono us us' visited st :
  (∀ u, u ∈ us' → u ∈ us) → sound_at us visited st → sound_at us' visited st.
Proof. intros Hs H u p Hu. apply H. auto. Qed.

Lemma sound_at_store us visited st st' :
  (∀ i, iov st' i = true → iov st i = true) →
  sound_at us visited st → sound_at us visited st'.
Proof. intros Hs H u p Hu E Hi. eapply H; eauto. Qed.

(** Entering a type: its own entry, still false or not looked up by its
    components, does no harm. *)
Lemma sound_at_push us k visited st st1 :
  valid visited st →
  (∀ i, i < length st → iov st1 i = iov st i) →
  (iov st1 (length st) = false ∨ ∀ u, u ∈ us → tid u ≠ k) →
  sound_at us visited st →
  sound_at us ((k, length st) :: visited) st1.
Proof.
  intros Hval Hold Hk H u p Hu. rewrite lookup_key_cons. case_decide as E.
  - intros [= <-] Hi. destruct Hk as [Hk|Hk]; [congruence|]. by destruct (Hk u).
  - intros E' Hi. rewrite Hold in Hi by (by eapply Hval). by eapply H.
Qed.

Lemma tracks_refl us visited st : valid visited st → tracks us visited st visited st.
Proof. intros H. split_and!; auto. intros k p E1 E2. congruence. Qed.

Lemma tracks_mono us us' visited st visited' st' :
  (∀ u, u ∈ us → u ∈ us') →
  tracks us visited st visited' st' → tracks us' visited st visited' st'.
Proof.
  intros Hs (Hv & Hl & Hk & Hn). split_and!; try done.
  intros k p E1 E2. destruct (Hn k p E1 E2) as (L & w & Hw & Hwk & Hi).
  split; [done|]. exists w. auto.
Qed.

(** A later change of the store that makes no new result value-only. *)
Lemma tracks_store us visited st visited' st' st'' :
  length st'' = length st' →
  (∀ i, length st ≤ i → iov st'' i = true → iov st' i = true) →
  tracks us visited st visited' st' → tracks us visited st visited' st''.
Proof.
  intros Hlen Hs (Hv & Hl & Hk & Hn). split_and!.
  - intros k p E. rewrite Hlen. by eapply Hv.
  - lia.
  - done.
  - intros k p E1 E2. destruct (Hn k p E1 E2) as (L & w & Hw & Hwk & Hi).
    split; [done|]. exists w. split_and!; auto.
Qed.

Lemma tracks_trans us v0 s0 v1 s1 s1' v2 s2 :
  length s1' = length s1 →
  (∀ i, i < length s1 → iov s2 i = true → iov s1 i = true) →
  tracks us v0 s0 v1 s1 → tracks us v1 s1' v2 s2 → tracks us v0 s0 v2 s2.
Proof.
  intros Hlen Hold (Hv1 & Hl1 & Hk1 & Hn1) (Hv2 & Hl2 & Hk2 & Hn2). split_and!.
  - done.
  - lia.
  - auto.
  - intros k p E2 E0. destruct (lookup_key k v1) as [p1|] eqn:E1.
    + pose proof (Hk2 _ _ E1) as E. rewrite E2 in E. injection E as ->.
      destruct (Hn1 k p1 E1 E0) as (L & w & Hw & Hwk & Hi).
      split; [done|]. exists w. split_and!; try done.
      intros Hp. apply Hi, Hold; [by eapply Hv1 | done].
    + destruct (Hn2 k p E2 E1) as (L & w & Hw & Hwk & Hi).
      split; [lia|]. exists w. done.
Qed.

(** Leaving a type entered at [length st]. *)
Lemma tracks_pop us t visited st st1 visited' st' :
  lookup_key (tid t) visited = None →
  t ∈ us →
  length st < length st1 →
  (iov st' (length st) = true → value_only t = true) →
  tracks us ((tid t, length st) :: visited) st1 visited' st' →
  tracks us visited st visited' st'.
Proof.
  intros Hmiss Ht Hlen Ha (Hv & Hl & Hk & Hn). split_and!.
  - done.
  - lia.
  - intros k p E. apply Hk. rewrite lookup_key_cons.
    case_decide; [congruence | done].
  - intros k p E1 E0. destruct (decide (k = tid t)) as [->|Hne].
    + assert (lookup_key (tid t) visited' = Some (length st)) as E.
      { apply Hk. by rewrite lookup_key_cons, decide_True. }
      rewrite E1 in E. injection E as ->. split; [done|]. exists t. done.
    + destruct (Hn k p E1) as (L & w & Hw & Hwk & Hi).
      { by rewrite lookup_key_cons, decide_False. }
      split; [lia|]. exists w. done.
Qed.

Lemma field_size (fs : list (StructField rtype)) f :
  In f fs → type_size (Type_ f) ≤ list_sum (map (λ f, type_size (Type_ f)) fs).
Proof.
  induction fs as [|g fs IH]; [done|].
  intros [->|Hf]; cbn [map]; change (list_sum (?x :: ?l)) with (x + list_sum l);
    [lia|]. apply IH in Hf. lia.
Qed.

Lemma field_components_size name fs u :
  u ∈ flat_map (λ f, components (Type_ f)) fs →
  type_size u < type_size (TStruct name fs).
Proof.
  intros Hu. apply list_elem_of_In, in_flat_map in Hu as (f & Hf & Hu).
  apply list_elem_of_In, components_size in Hu. apply field_size in Hf.
  change (type_size (TStruct name fs))
    with (S (list_sum (map (λ f, type_size (Type_ f)) fs))). lia.
Qed.

Lemma struct_free_of_intro name t :
  (∀ u, u ∈ subterms t → tid u ≠ KNamed name) → struct_free_of name t = true.
Proof.
  induction t as [k|n e IH|name' fs IH|name'|e IH|e IH|k e IHk IHe|e IH|s|n|]
    using rtype_induction; intros H; try done.
  - cbn. apply IH. intros u Hu. apply H. cbn. by right.
  - cbn. apply andb_true_iff. split.
    + apply negb_true_iff, bool_decide_eq_false_2. intros ->.
      by apply (H (TStruct name fs)); [apply subterms_self|].
    + apply forallb_forall. intros f Hf. rewrite Forall_forall in IH.
      apply IH; [by apply list_elem_of_In|]. intros u Hu. apply H. cbn. right.
      apply list_elem_of_In, in_flat_map. exists f. split; [done|].
      by apply list_elem_of_In.
Qed.

Lemma iov_old f (st : astore) r i :
  i < length st → iov (upd (length st) f (st ++ [r])) i = iov st i.
Proof.
  intros Hi. unfold iov. rewrite deref_upd_ne by lia.
  unfold deref. by rewrite lookup_app_l.
Qed.

Section Sound.

Context (root : rtype) (Hinj : one_type_per_id root).

(** The entries a finished analysis has added are right for the types
    analysed next. *)
Lemma sound_at_next us1 us2 v0 s0 v1 s1 :
  (∀ u, u ∈ us1 → u ∈ components root) →
  (∀ u, u ∈ us2 → u ∈ components root) →
  valid v0 s0 →
  (∀ i, i < length s0 → iov s1 i = true → iov s0 i = true) →
  tracks us1 v0 s0 v1 s1 →
  sound_at us2 v0 s0 → sound_at us2 v1 s1.
Proof using Hinj.
  intros H1 H2 Hval Hold (Hv1 & Hl1 & Hk1 & Hn1) H u p Hu E Hi.
  destruct (lookup_key (tid u) v0) as [p0|] eqn:E0.
  - pose proof (Hk1 _ _ E0) as E'. rewrite E in E'. injection E' as ->.
    eapply H; [done | done |]. apply Hold; [by eapply Hval | done].
  - destruct (Hn1 _ _ E E0) as (L & w & Hw & Hwk & Hw').
    rewrite (Hinj u w); auto.
Qed.

Lemma analyze_fields_sound p fs :
  Forall (λ f, sound_step root (Type_ f)) fs →
  (∀ f u, f ∈ fs → u ∈ components (Type_ f) → u ∈ components root) →
  ∀ visited st,
    valid visited st → p < length st →
    sound_at (flat_map (λ f, components (Type_ f)) fs) visited st →
    let r := analyze_fields p fs visited st in
    (iov r.2 p = true →
     Forall (λ f, exported f = true → value_only (Type_ f) = true) fs) ∧
    (∀ i, i < length st → iov r.2 i = true → iov st i = true) ∧
    tracks (flat_map (λ f, components (Type_ f)) fs) visited st r.1 r.2.
Proof using Hinj.
  induction 1 as [|f fs Hf _ IHfs]; intros Hsub visited st Hval Hp Hs;
    cbn [analyze_fields].
  - split; [done|]. split; [done|]. by apply tracks_refl.
  - assert (∀ u, u ∈ components (Type_ f) → u ∈ components root) as Hsubf
      by (intros u; apply Hsub; left).
    assert (∀ g u, g ∈ fs → u ∈ components (Type_ g) → u ∈ components root)
      as Hsubfs by (intros g u Hg; apply Hsub; by right).
    assert (∀ u, u ∈ flat_map (λ f, components (Type_ f)) fs →
                 u ∈ components root) as Hsubfs'.
    { intros u Hu. apply list_elem_of_In, in_flat_map in Hu as (g & Hg & Hu).
      apply (Hsubfs g); by apply list_elem_of_In. }
    assert (sound_at (components (Type_ f)) visited st) as Hs1.
    { eapply sound_at_mono; [|exact Hs]. intros u Hu. cbn.
      apply elem_of_app. by left. }
    assert (sound_at (flat_map (λ f, components (Type_ f)) fs) visited st) as Hs2.
    { eapply sound_at_mono; [|exact Hs]. intros u Hu. cbn.
      apply elem_of_app. by right. }
    destruct (exported f) eqn:He.
    + specialize (Hf Hsubf visited st Hval Hs1).
      pose proof (analyzeTypeRecursive_grows (Type_ f) visited st) as Hg.
      destruct (analyzeTypeRecursive (Type_ f) visited st) as [[q vis1] st1].
      cbn [fst snd] in Hf, Hg. destruct Hf as [Ha Ht].
      assert (∀ i, i < length st → iov st1 i = iov st i) as Hold.
      { intros i Hi. unfold iov. by rewrite (grows_deref st st1). }
      pose proof Ht as (Hv1 & Hl1 & _).
      specialize (IHfs Hsubfs vis1 (merge_field p (Name f) q st1)).
      destruct IHfs as (Hb & Hold2 & Ht2).
      * intros k p0 E. rewrite length_merge_field. by eapply Hv1.
      * rewrite length_merge_field. lia.
      * eapply sound_at_store; [apply merge_field_iov_le|].
        eapply (sound_at_next (components (Type_ f)) _ visited st);
          [exact Hsubf | exact Hsubfs' | exact Hval | | exact Ht | exact Hs2].
        intros i Hi Hi'. by rewrite <- Hold.
      * rewrite length_merge_field in Hold2.
        assert (∀ i, i < length st1 →
                  iov (analyze_fields p fs vis1 (merge_field p (Name f) q st1)).2 i
                  = true → iov st1 i = true) as Hold3.
        { intros i Hi Hi'. eapply merge_field_iov_le. by apply Hold2. }
        split_and!.
        -- intros Hfin. apply Forall_cons. split; [|by apply Hb].
           intros _. apply Ha. apply (merge_field_iov_q p (Name f)); [lia|].
           apply Hold2; [lia | done].
        -- intros i Hi Hi'. rewrite <- Hold by done. apply Hold3; [lia | done].
        -- eapply (tracks_trans _ _ _ vis1 st1).
           ++ apply length_merge_field.
           ++ exact Hold3.
           ++ eapply tracks_mono; [|exact Ht]. intros u Hu. cbn.
              apply elem_of_app. by left.
           ++ eapply tracks_mono; [|exact Ht2]. intros u Hu. cbn.
              apply elem_of_app. by right.
    + destruct (IHfs Hsubfs visited st Hval Hp Hs2) as (Hb & Hold2 & Ht2).
      split_and!.
      * intros Hfin. apply Forall_cons. split; [congruence | by apply Hb].
      * done.
      * eapply tracks_mono; [|exact Ht2]. intros u Hu. cbn.
        apply elem_of_app. by right.
Qed.


Lemma analyzeTypeRecursive_sound t : sound_step root t.
Proof using Hinj.
  induction t as [k|n e IH|name fs IH|name|e IH|e IH|k e IHk IHe|e IH|s|n|]
    using rtype_induction; intros Hsub visited st Hval Hs;
    [| | rewrite analyzeTypeRecursive_struct | ..];
    cbn [analyzeTypeRecursive tid];
    (destruct (lookup_key _ visited) as [p|] eqn:Hmiss;
     [ cbn [fst snd]; split;
       [ intros Hi; eapply Hs; [apply components_self | exact Hmiss | exact Hi]
       | by apply tracks_refl ] |]); cbn zeta.
  - (* scalar *)
    cbn [fst snd]. split; [done|].
    eapply (tracks_pop _ (TBasic k) visited st); [done | apply components_self | | done |].
    2: { apply tracks_refl. eapply valid_length; [|by apply valid_cons].
         by rewrite length_upd. }
    rewrite length_upd, length_app. cbn. lia.
  - (* array *)
    assert (∀ u, u ∈ components e → u ∈ components root) as Hsube
      by (intros u Hu; apply Hsub; cbn; by right).
    set (st0 := st ++ [new_result (type_string (TArray n e))]).
    assert (length st0 = S (length st)) as Hl0
      by (subst st0; rewrite length_app; cbn; lia).
    specialize (IH Hsube ((KArray n (tid e), length st) :: visited) st0).
    pose proof (analyzeTypeRecursive_grows e
      ((KArray n (tid e), length st) :: visited) st0) as Hg.
    destruct (analyzeTypeRecursive e _ st0) as [[q vis2] st2].
    cbn [fst snd] in IH, Hg |- *. destruct IH as [Ha Ht].
    { by apply valid_cons. }
    { apply sound_at_push; [done | | | ].
      - intros i Hi. subst st0. unfold iov, deref. by rewrite lookup_app_l.
      - left. subst st0. unfold iov, deref.
        rewrite lookup_app_r, Nat.sub_diag by lia. done.
      - eapply sound_at_mono; [|exact Hs]. intros u Hu. cbn. by right. }
    pose proof Hg as [Hl2 _].
    match goal with
    | |- (iov ?s _ = true → _) ∧ _ =>
        assert (∀ i, iov s i =
                  iov (upd (length st)
                         (set_IsOnlyValues (IsOnlyValues (deref st2 q))) st2) i)
          as Hfin by (intros i; repeat rewrite iov_upd_flag by done; done)
    end.
    assert (iov st2 q = true → value_only (TArray n e) = true) as Ha'
      by (intros Hq; cbn; by apply Ha).
    split.
    + rewrite Hfin. unfold iov at 1. rewrite deref_upd_eq by lia. exact Ha'.
    + eapply (tracks_pop _ (TArray n e) visited st st0);
        [done | apply components_self | lia | |].
      * rewrite Hfin. unfold iov at 1. rewrite deref_upd_eq by lia. exact Ha'.
      * eapply tracks_store; [| |eapply tracks_mono; [|exact Ht]].
        -- by rewrite !length_upd.
        -- intros i Hi. rewrite Hfin. unfold iov at 1.
           rewrite deref_upd_ne by lia. done.
        -- intros u Hu. cbn. by right.
  - (* struct *)
    set (st0 := if hasUnexportedFields fs then _ else _).
    assert (length st0 = S (length st)) as Hl0.
    { subst st0. destruct (hasUnexportedFields fs);
        rewrite !length_upd, length_app; cbn; lia. }
    assert (∀ i, i < length st → iov st0 i = iov st i) as Hold0.
    { intros i Hi. subst st0. unfold iov.
      destruct (hasUnexportedFields fs);
        rewrite !deref_upd_ne by lia; unfold deref; by rewrite lookup_app_l. }
    assert (hasUnexportedFields fs = true → iov st0 (length st) = false) as Hun.
    { intros E. subst st0. rewrite E. unfold iov.
      rewrite deref_upd_eq by (rewrite !length_upd, length_app; cbn; lia). done. }
    pose proof (analyze_fields_sound (length st) fs IH) as H.
    specialize (H ltac:(intros f u Hf Hu; apply Hsub; cbn; right;
                        apply list_elem_of_In, in_flat_map; exists f;
                        split; by apply list_elem_of_In)
                  ((KNamed name, length st) :: visited) st0).
    destruct H as (Hb & Hold2 & Ht2).
    { eapply valid_length; [|by apply (valid_cons _ _ _ (new_result name))].
      rewrite length_app. cbn. lia. }
    { lia. }
    { apply sound_at_push; [done | done | | ].
      - right. intros u Hu E.
        assert (u = TStruct name fs) as ->.
        { apply Hinj; [|apply Hsub, components_self|done].
          apply Hsub. cbn. by right. }
        apply (field_components_size name) in Hu. lia.
      - eapply sound_at_mono; [|exact Hs]. intros u Hu. cbn. by right. }
    destruct (analyze_fields _ fs _ st0) as [vis1 st1]. cbn [fst snd] in *.
    assert (iov st1 (length st) = true → value_only (TStruct name fs) = true)
      as Ha.
    { intros Hi. cbn. apply forallb_forall. intros f Hf.
      specialize (Hb Hi). rewrite Forall_forall in Hb.
      apply Hold2 in Hi; [|lia].
      destruct (hasUnexportedFields fs) eqn:E; [rewrite Hun in Hi; done|].
      unfold hasUnexportedFields in E.
      assert (exported f = true) as He.
      { destruct (exported f) eqn:He; [done|].
        assert (existsb (λ f, negb (exported f)) fs = true) as E'
          by (apply existsb_exists; exists f; by rewrite He).
        congruence. }
      rewrite He. cbn. apply Hb; [by apply list_elem_of_In | done]. }
    split; [exact Ha|].
    eapply (tracks_pop _ (TStruct name fs) visited st st0);
      [done | apply components_self | lia | exact Ha |].
    eapply tracks_mono; [|exact Ht2]. intros u Hu. cbn. by right.
  - (* a name not in the visited map *)
    cbn [fst snd].
    match goal with
    | |- (iov ?s ?p = true → _) ∧ _ =>
        assert (iov s p = false) as Hfin by (unfold iov; deref_new; done)
    end.
    split; [by rewrite Hfin|].
    eapply (tracks_pop _ (TNamed name) visited st);
      [done | apply components_self | | by rewrite Hfin |].
    2: { apply tracks_refl. eapply valid_length; [|by apply valid_cons].
         by rewrite !length_upd. }
    rewrite !length_upd, length_app. cbn. lia.
  - (* pointer *)
    assert (∀ u, u ∈ components e → u ∈ components root) as Hsube
      by (intros u Hu; apply Hsub; cbn; by right).
    set (st1 := upd _ (set_ContainsPtr true) _).
    assert (length st1 = S (length st)) as Hl1
      by (subst st1; rewrite !length_upd, length_app; cbn; lia).
    assert (iov st1 (length st) = false) as Hp1
      by (subst st1; unfold iov; deref_new; done).
    specialize (IH Hsube ((KPtr (tid e), length st) :: visited) st1).
    pose proof (analyzeTypeRecursive_grows e
      ((KPtr (tid e), length st) :: visited) st1) as Hg.
    destruct (analyzeTypeRecursive e _ st1) as [[q vis2] st2].
    cbn [fst snd] in IH, Hg |- *. destruct IH as [Ha Ht].
    { eapply (valid_length _ (st ++ [new_result ""])); [|by apply valid_cons].
      rewrite Hl1, length_app. cbn. lia. }
    { apply sound_at_push; [done | | by left | ].
      - intros i Hi. subst st1. rewrite !iov_upd_flag by done. by apply iov_old.
      - eapply sound_at_mono; [|exact Hs]. intros u Hu. cbn. by right. }
    match goal with
    | |- (iov ?s ?p = true → _) ∧ _ =>
        assert (∀ i, iov s i = iov st2 i) as Hfin
          by (intros i; repeat rewrite iov_upd_flag by done; done)
    end.
    assert (iov st2 (length st) = false) as Hp2.
    { unfold iov. rewrite (grows_deref st1 st2) by (done || lia). exact Hp1. }
    split; [by rewrite Hfin, Hp2|].
    eapply (tracks_pop _ (TPtr e) visited st st1);
      [done | apply components_self | lia | by rewrite Hfin, Hp2 |].
    eapply tracks_store; [| |eapply tracks_mono; [|exact Ht]].
    + by rewrite !length_upd.
    + intros i Hi. by rewrite Hfin.
    + intros u Hu. cbn. by right.
  - (* slice *)
    assert (∀ u, u ∈ components e → u ∈ components root) as Hsube
      by (intros u Hu; apply Hsub; cbn; by right).
    set (st1 := upd _ (set_ContainsSlice true) _).
    assert (length st1 = S (length st)) as Hl1
      by (subst st1; rewrite !length_upd, length_app; cbn; lia).
    assert (iov st1 (length st) = false) as Hp1
      by (subst st1; unfold iov; deref_new; done).
    specialize (IH Hsube ((KSlice (tid e), length st) :: visited) st1).
    pose proof (analyzeTypeRecursive_grows e
      ((KSlice (tid e), length st) :: visited) st1) as Hg.
    destruct (analyzeTypeRecursive e _ st1) as [[q vis2] st2].
    cbn [fst snd] in IH, Hg |- *. destruct IH as [Ha Ht].
    { eapply (valid_length _ (st ++ [new_result ""])); [|by apply valid_cons].
      rewrite Hl1, length_app. cbn. lia. }
    { apply sound_at_push; [done | | by left | ].
      - intros i Hi. subst st1. rewrite !iov_upd_flag by done. by apply iov_old.
      - eapply sound_at_mono; [|exact Hs]. intros u Hu. cbn. by right. }
    match goal with
    | |- (iov ?s ?p = true → _) ∧ _ =>
        assert (∀ i, iov s i = iov st2 i) as Hfin
          by (intros i; repeat rewrite iov_upd_flag by done; done)
    end.
    assert (iov st2 (length st) = false) as Hp2.
    { unfold iov. rewrite (grows_deref st1 st2) by (done || lia). exact Hp1. }
    split; [by rewrite Hfin, Hp2|].
    eapply (tracks_pop _ (TSlice e) visited st st1);
      [done | apply components_self | lia | by rewrite Hfin, Hp2 |].
    eapply tracks_store; [| |eapply tracks_mono; [|exact Ht]].
    + by rewrite !length_upd.
    + intros i Hi. by rewrite Hfin.
    + intros u Hu. cbn. by right.
  - (* map *)
    assert (∀ u, u ∈ components k → u ∈ components root) as Hsubk
      by (intros u Hu; apply Hsub; cbn; right; apply elem_of_app; by left).
    assert (∀ u, u ∈ components e → u ∈ components root) as Hsube
      by (intros u Hu; apply Hsub; cbn; right; apply elem_of_app; by right).
    set (st1 := upd _ (set_ContainsMap true) _).
    assert (length st1 = S (length st)) as Hl1
      by (subst st1; rewrite !length_upd, length_app; cbn; lia).
    assert (iov st1 (length st) = false) as Hp1
      by (subst st1; unfold iov; deref_new; done).
    assert (valid ((KMap (tid k) (tid e), length st) :: visited) st1) as Hval1.
    { eapply (valid_length _ (st ++ [new_result ""])); [|by apply valid_cons].
      rewrite Hl1, length_app. cbn. lia. }
    assert (∀ us, (∀ u, u ∈ us → u ∈ components (TMap k e)) →
              sound_at us ((KMap (tid k) (tid e), length st) :: visited) st1)
      as Hs1.
    { intros us Hus. apply sound_at_push; [done | | by left | ].
      - intros i Hi. subst st1. rewrite !iov_upd_flag by done. by apply iov_old.
      - eapply sound_at_mono; [|exact Hs]. done. }
    specialize (IHk Hsubk ((KMap (tid k) (tid e), length st) :: visited) st1).
    pose proof (analyzeTypeRecursive_grows k
      ((KMap (tid k) (tid e), length st) :: visited) st1) as Hg.
    destruct (analyzeTypeRecursive k _ st1) as [[qk vis2] st2].
    cbn [fst snd] in IHk, Hg. destruct IHk as [Hak Htk].
    { done. }
    { apply Hs1. intros u Hu. cbn. right. apply elem_of_app. by left. }
    assert (∀ i, i < length st1 → iov st2 i = iov st1 i) as Hold2.
    { intros i Hi. unfold iov. by rewrite (grows_deref st1 st2). }
    specialize (IHe Hsube vis2 st2).
    pose proof (analyzeTypeRecursive_grows e vis2 st2) as Hg2.
    destruct (analyzeTypeRecursive e vis2 st2) as [[qv vis3] st3].
    cbn [fst snd] in IHe, Hg2 |- *. destruct IHe as [Hae Hte].
    { by destruct Htk. }
    { eapply (sound_at_next (components k) _ _ st1);
        [exact Hsubk | exact Hsube | exact Hval1 | | exact Htk |].
      - intros i Hi Hi'. by rewrite <- Hold2.
      - apply Hs1. intros u Hu. cbn. right. apply elem_of_app. by right. }
    assert (∀ i, i < length st2 → iov st3 i = iov st2 i) as Hold3.
    { intros i Hi. unfold iov. by rewrite (grows_deref st2 st3). }
    pose proof Hg as [Hl2 _].
    match goal with
    | |- (iov ?s ?p = true → _) ∧ _ =>
        assert (∀ i, iov s i = iov st3 i) as Hfin
          by (intros i; repeat rewrite iov_upd_flag by done; done)
    end.
    assert (iov st3 (length st) = false) as Hp3.
    { rewrite Hold3, Hold2 by lia. exact Hp1. }
    split; [by rewrite Hfin, Hp3|].
    eapply (tracks_pop _ (TMap k e) visited st st1);
      [done | apply components_self | lia | by rewrite Hfin, Hp3 |].
    assert (tracks (components (TMap k e))
              ((KMap (tid k) (tid e), length st) :: visited) st1 vis3 st3)
      as Ht3.
    { eapply (tracks_trans _ _ _ vis2 st2 st2).
      - done.
      - intros i Hi Hi'. by rewrite <- Hold3.
      - eapply tracks_mono; [|exact Htk]. intros u Hu. cbn. right.
        apply elem_of_app. by left.
      - eapply tracks_mono; [|exact Hte]. intros u Hu. cbn. right.
        apply elem_of_app. by right. }
    eapply tracks_store; [| |exact Ht3].
    + by rewrite !length_upd.
    + intros i Hi. by rewrite Hfin.
  - (* channel *)
    cbn [fst snd].
    match goal with
    | |- (iov ?s ?p = true → _) ∧ _ =>
        assert (iov s p = false) as Hfin by (unfold iov; deref_new; done)
    end.
    split; [by rewrite Hfin|].
    eapply (tracks_pop _ (TChan e) visited st);
      [done | apply components_self | | by rewrite Hfin |].
    2: { apply tracks_refl. eapply valid_length; [|by apply valid_cons].
         by rewrite !length_upd. }
    rewrite !length_upd, length_app. cbn. lia.
  - (* function *)
    cbn [fst snd].
    match goal with
    | |- (iov ?s ?p = true → _) ∧ _ =>
        assert (iov s p = false) as Hfin by (unfold iov; deref_new; done)
    end.
    split; [by rewrite Hfin|].
    eapply (tracks_pop _ (TFunc s) visited st);
      [done | apply components_self | | by rewrite Hfin |].
    2: { apply tracks_refl. eapply valid_length; [|by apply valid_cons].
         by rewrite !length_upd. }
    rewrite !length_upd, length_app. cbn. lia.
  - (* interface *)
    cbn [fst snd].
    match goal with
    | |- (iov ?s ?p = true → _) ∧ _ =>
        assert (iov s p = false) as Hfin by (unfold iov; deref_new; done)
    end.
    split; [by rewrite Hfin|].
    eapply (tracks_pop _ (TInterface n) visited st);
      [done | apply components_self | | by rewrite Hfin |].
    2: { apply tracks_refl. eapply valid_length; [|by apply valid_cons].
         by rewrite !length_upd. }
    rewrite !length_upd, length_app. cbn. lia.
  - (* unsafe pointer *)
    cbn [fst snd].
    match goal with
    | |- (iov ?s ?p = true → _) ∧ _ =>
        assert (iov s p = false) as Hfin by (unfold iov; deref_new; done)
    end.
    split; [by rewrite Hfin|].
    eapply (tracks_pop _ TUnsafePointer visited st);
      [done | apply components_self | | by rewrite Hfin |].
    2: { apply tracks_refl. eapply valid_length; [|by apply valid_cons].
         by rewrite !length_upd. }
    rewrite !length_upd, length_app. cbn. lia.
Qed.

End Sound.

Lemma one_type_no_self_nesting root :
  one_type_per_id root → ∀ t, t ∈ components root → no_self_nesting t = true.
Proof.
  intros Hinj t.
  induction t as [k|n e IH|name fs IH|name|e IH|e IH|k e IHk IHe|e IH|s|n|]
    using rtype_induction; intros Ht; try done.
  - cbn. apply IH. eapply components_trans; [exact Ht|].
    cbn. right. apply components_self.
  - cbn. apply forallb_forall. intros f Hf. rewrite Forall_forall in IH.
    assert (∀ u, u ∈ components (Type_ f) → u ∈ components root) as Hsub.
    { intros u Hu. eapply components_trans; [exact Ht|]. cbn. right.
      apply list_elem_of_In, in_flat_map. exists f. split; [done|].
      by apply list_elem_of_In. }
    apply andb_true_iff. split.
    + apply struct_free_of_intro. intros u Hu E.
      apply subterms_components in Hu.
      assert (u = TStruct name fs) as -> by (apply Hinj; auto).
      assert (TStruct name fs ∈ flat_map (λ f, components (Type_ f)) fs) as Hin.
      { apply list_elem_of_In, in_flat_map. exists f. split; [done|].
        by apply list_elem_of_In. }
      apply (field_components_size name) in Hin. lia.
    + apply IH; [by apply list_elem_of_In|]. apply Hsub, components_self.
Qed.

(** The classifier is exact on a type in which an identity denotes one
    type: the result of the analysis, started as [getOrAnalyzeType]
    starts it, says value-only exactly when the type consists of
    scalars, arrays and structs of exported fields only. *)
Theorem classifier_is_exact (t : rtype) (st : astore)
    (Hinj : one_type_per_id t) :
  let r := analyzeTypeRecursive t [] st in
  IsOnlyValues (deref r.2 r.1.1) = value_only t.
Proof.
  cbn zeta. destruct (value_only t) eqn:Hv.
  - pose proof (analyzeTypeRecursive_value_only t Hv
      (one_type_no_self_nesting t Hinj t (components_self t)) [] st) as H.
    destruct H as (H & _); [done | | exact H].
    intros u p _ E. done.
  - destruct (IsOnlyValues _) eqn:Hi; [|done].
    pose proof (analyzeTypeRecursive_sound t Hinj t (λ u Hu, Hu) [] st) as H.
    destruct H as [H _].
    + intros k p E. done.
    + intros u p _ E. done.
    + cbn zeta in H. unfold iov in H. rewrite H in Hv; done.
Qed.

(** [NestedValueStruct] of the tests. *)
Lemma classifier_is_exact_witness :
  IsOnlyValues (deref (analyzeTypeRecursive Examples.NestedValueStruct [] []).2
                  (analyzeTypeRecursive Examples.NestedValueStruct [] []).1.1)
  = true.
Proof.
  apply (classifier_is_exact Examples.NestedValueStruct []).
  intros u1 u2 H1 H2. cbn in H1, H2.
  repeat (apply elem_of_cons in H1 as [->|H1]);
    try (by apply elem_of_nil in H1);
    repeat (apply elem_of_cons in H2 as [->|H2]);
    try (by apply elem_of_nil in H2); intros E; done.
Defined.

(* ===================================================================== *)
(** ** Values that hold no reference *)
(* ===================================================================== *)

Section Flat.

Context (rec : value → value → M value) (d : nat).
Hypothesis Hrec : ∀ o s, self_contained o = true → vdepth o < d →
                         rec o (zero (type_of o)) s = Done (o, s).

Lemma copy_fields_flat ofs :
  ∀ dn s,
    Forall (λ f, fexported f = true ∧ self_contained (FValue f) = true ∧
                 vdepth (FValue f) < d) ofs →
    copy_fields rec (length dn) ofs (dn ++ map zero_field ofs) s
    = Done (dn ++ ofs, s).
Proof using Hrec.
  induction ofs as [|f ofs IH]; intros dn s Hos; cbn [copy_fields map].
  - done.
  - apply Forall_cons in Hos as [(Hex & Hsc & Hd) Hos]. rewrite Hex.
    rewrite lookup_app_r, Nat.sub_diag by done. cbn [lookup list_lookup zero_field FValue].
    unfold bind. cbn. rewrite Hrec by done.
    rewrite insert_app_r_alt, Nat.sub_diag by done. cbn.
    replace (mkFieldVal (FName f) (FPkgPath f) (FValue f)) with f by (by destruct f).
    rewrite (cons_middle f), !app_assoc.
    replace (S (length dn)) with (length (dn ++ [f]))
      by (rewrite length_app; cbn; lia).
    rewrite IH by done. by rewrite <- app_assoc.
Qed.

Lemma copy_array_flat e os :
  ∀ dn s,
    Forall (λ o, type_of o = e ∧ self_contained o = true ∧ vdepth o < d) os →
    copy_array rec (length dn) os (dn ++ replicate (length os) (zero e)) s
    = Done (dn ++ os, s).
Proof using Hrec.
  induction os as [|o os IH]; intros dn s Hos; cbn [copy_array length replicate].
  - done.
  - apply Forall_cons in Hos as [(Ht & Hsc & Hd) Hos].
    rewrite lookup_app_r, Nat.sub_diag by done. cbn [lookup list_lookup].
    unfold bind. cbn. rewrite <- Ht at 1. rewrite Hrec by done.
    rewrite insert_app_r_alt, Nat.sub_diag by done. cbn.
    rewrite (cons_middle o), !app_assoc.
    replace (S (length dn)) with (length (dn ++ [o]))
      by (rewrite length_app; cbn; lia).
    rewrite IH by done. by rewrite <- app_assoc.
Qed.

End Flat.

Lemma list_max_lt_all (l : list nat) n : list_max l < n → Forall (λ x, x < n) l.
Proof.
  destruct n as [|n]; [lia|]. intros H.
  assert (list_max l ≤ n) as H' by lia. apply list_max_le in H'.
  eapply Forall_impl; [exact H'|]. cbn. lia.
Qed.

Lemma traversal_flat
    (MethodByName : tkey → option Method) (Hno : ∀ k, MethodByName k = None)
    (fuel : nat) :
  ∀ v s, self_contained v = true → vdepth v < fuel →
    copyRecursive MethodByName fuel v (zero (type_of v)) s = Done (v, s).
Proof.
  induction fuel as [|fuel IH]; intros v s Hsc Hd; [lia|].
  destruct v as [k d|e p|i x|name ofs|e sh|kt e m|e os|e c|sg f|p]; try done.
  - cbn [copyRecursive]. by rewrite Set_same.
  - cbn [copyRecursive]. destruct (isTime name) eqn:Ht.
    { by rewrite Set_same. }
    rewrite hasDeepCopyMethod_none by done. rewrite zero_struct.
    cbn in Hsc, Hd. rewrite Ht in Hsc. cbn in Hsc.
    unfold bind.
    rewrite (copy_fields_flat (copyRecursive MethodByName fuel) fuel
               ltac:(intros; by apply IH) ofs []).
    + done.
    + apply forallb_Forall in Hsc.
      assert (Forall (λ x, x < fuel) (map (λ f, vdepth (FValue f)) ofs)) as Hds
        by (apply list_max_lt_all; lia).
      rewrite Forall_fmap in Hds.
      apply Forall_forall. intros f Hf.
      rewrite Forall_forall in Hsc, Hds. specialize (Hsc f Hf). specialize (Hds f Hf).
      apply andb_true_iff in Hsc as [? ?]. cbn in Hds. split_and!; done.
  - cbn [copyRecursive].
    change (zero (type_of (VArray e os)))
      with (VArray e (replicate (length os) (zero e))).
    cbn in Hsc, Hd. unfold bind.
    rewrite (copy_array_flat (copyRecursive MethodByName fuel) fuel
               ltac:(intros; by apply IH) e os []).
    + done.
    + apply forallb_Forall in Hsc.
      assert (Forall (λ x, x < fuel) (map vdepth os)) as Hds
        by (apply list_max_lt_all; lia).
      rewrite Forall_fmap in Hds.
      apply Forall_forall. intros o Ho.
      rewrite Forall_forall in Hsc, Hds. specialize (Hsc o Ho). specialize (Hds o Ho).
      apply andb_true_iff in Hsc as [Ht ?]. apply rtype_eqb_eq in Ht.
      cbn in Hds. split_and!; done.
Qed.

(** On a value that holds no reference the traversal is the identity:
    it returns the value itself and leaves the state as it was, for
    every recursion budget above the nesting depth of the value.  So
    [CopyValue] returns such a value as it is, with the heap as it was,
    whether the analysis of its type sends it through the shortcut or
    through the traversal. *)
Theorem traversal_of_self_contained_value
    (MethodByName : tkey → option Method) (fuel : nat) (v : value)
    (Hno : ∀ k, MethodByName k = None)
    (Hsc : self_contained v = true)
    (Hd : vdepth v < fuel) :
  (∀ s, copyRecursive MethodByName fuel v (zero (type_of v)) s = Done (v, s)) ∧
  (∀ m h, CopyValue MethodByName fuel m (Some v) h
          = Done (Some v, h, (getOrAnalyzeType m (type_of v)).2)).
Proof.
  split; [intros s; by apply traversal_flat|].
  intros m h. unfold CopyValue.
  destruct (getOrAnalyzeType m (type_of v)) as [a m1]. cbn [snd].
  destruct (IsOnlyValues _); [done|].
  rewrite hasDeepCopyMethod_none by done.
  rewrite traversal_flat by done. cbn [mem]. by destruct v.
Qed.

(** [User] of the documentation, without its method. *)
Lemma traversal_of_self_contained_value_witness :
  copyRecursive Examples.no_methods 2 (Examples.user 1 "john" "secret")
    (zero (type_of (Examples.user 1 "john" "secret"))) (mkState [] ∅)
  = Done (Examples.user 1 "john" "secret", mkState [] ∅).
Proof.
  apply (proj1 (traversal_of_self_contained_value Examples.no_methods 2
                  (Examples.user 1 "john" "secret") (λ _, eq_refl) eq_refl
                  ltac:(cbn; lia))).
Defined.

(* ===================================================================== *)
(** ** The typed managers and the two generic entry points *)
(* ===================================================================== *)

Lemma getOrAnalyzeType_cached m t :
  lookup_key (tid t) (analysisCache (getOrAnalyzeType m t).2)
  = Some (getOrAnalyzeType m t).1.
Proof.
  unfold getOrAnalyzeType.
  destruct (lookup_key (tid t) (analysisCache m)) as [p|] eqn:E; [done|].
  destruct (analyzeTypeRecursive t [] (results m)) as [[a vis] st].
  cbn. by rewrite decide_True.
Qed.

Lemma getOrAnalyzeType_hit m t u :
  tid u = tid t →
  getOrAnalyzeType (getOrAnalyzeType m t).2 u
  = ((getOrAnalyzeType m t).1, (getOrAnalyzeType m t).2).
Proof.
  intros E. unfold getOrAnalyzeType at 1. by rewrite E, getOrAnalyzeType_cached.
Qed.

Lemma lookup_typed_cons k k' p m :
  lookup_typed k ((k', p) :: m) =
  if decide (k = k') then Some p else lookup_typed k m.
Proof. done. Qed.

(** The analysis of a type is computed once: after [getTypedManager] and
    the manager's [getOrAnalyzeType] have run for [T], they find the
    manager with its analysis and leave the package-level variables as
    they are. *)
Theorem typed_manager_analyses_once (T : rtype) (g : globals)
    (HT : TypeOf_zero T = Some T) (Hg : typed_cache_ok g) :
  let g1 := (getTypedManager T g).2 in
  let r := typed_getOrAnalyzeType (getTypedManager T g).1 g1 in
  typed_cache_ok r.2 ∧
  typed_getOrAnalyzeType (getTypedManager T r.2).1 (getTypedManager T r.2).2
  = (r.1, r.2).
Proof.
  cbn zeta.
  destruct (getTypedManager T g) as [tm g1] eqn:E1. cbn [fst snd].
  destruct (typed_getOrAnalyzeType tm g1) as [a g2] eqn:E2. cbn [fst snd].
  assert (typed_cache_ok g2 ∧
          ∃ tm', lookup_typed (tid T) (typedManagers g2) = Some tm' ∧
                 analysis tm' = Some a) as (Hok & tm' & Hl & Ha).
  { unfold getTypedManager in E1. rewrite HT in E1.
    destruct (lookup_typed (tid T) (typedManagers g)) as [tm0|] eqn:E.
    - injection E1 as <- <-. destruct (Hg _ _ E) as (rt & Hrt & Hk).
      unfold typed_getOrAnalyzeType in E2.
      destruct (analysis tm0) as [a0|] eqn:Ea.
      + injection E2 as <- <-. eauto.
      + rewrite Hrt in E2.
        destruct (getOrAnalyzeType (defaultManager g) rt) as [a1 dm].
        injection E2 as <- <-. cbn [typedManagers]. split.
        * intros k tm1. cbn [typedManagers]. rewrite lookup_typed_cons.
          case_decide; [intros [= <-]; eauto | apply Hg].
        * eexists. cbn [typedManagers]. rewrite lookup_typed_cons, decide_True by done. done.
    - injection E1 as <- <-. unfold typed_getOrAnalyzeType in E2.
      cbn [analysis trtype defaultManager] in E2.
      destruct (getOrAnalyzeType (defaultManager g) T) as [a1 dm].
      injection E2 as <- <-. cbn [typedManagers]. split.
      + intros k tm1. cbn [typedManagers]. rewrite !lookup_typed_cons.
        repeat case_decide; try (intros [= <-]; eauto). apply Hg.
      + eexists. cbn [typedManagers]. rewrite lookup_typed_cons, decide_True by done. done. }
  split; [done|].
  unfold getTypedManager. rewrite HT, Hl. cbn [fst snd].
  unfold typed_getOrAnalyzeType. by rewrite Ha.
Qed.


Lemma assert_type_any T v : assert_type T v = assert_any T (ValueOf v).
Proof. unfold assert_type, assert_any. by destruct (ValueOf v). Qed.

(** Without an override [CopyWithKey] under a new key does what [Copy]
    does: for a source of the static type [T] (not an interface type)
    with no usable [DeepCopy] method, and when neither the key nor a
    typed manager for [T] is cached yet, the two calls end the same way
    and, when they return, with the same result and the same heap. *)
Theorem CopyWithKey_agrees_with_Copy_without_override
    (MethodByName : tkey → option Method) (fuel : nat) (T : rtype)
    (src : value) (key : string) (h : heap) (g : globals)
    (HT : TypeOf_zero T = Some T)
    (Hsrc : tid (type_of src) = tid T)
    (Hno : hasDeepCopyMethod MethodByName (Some src) = None)
    (Hkey : businessCopyCache g !! key = None)
    (Htm : lookup_typed (tid T) (typedManagers g) = None) :
  same_copy (Copy MethodByName fuel T src h g)
            (CopyWithKey MethodByName fuel T src key h g).
Proof.
  assert (ValueOf src = Some src) as Hv.
  { destruct src; try done. destruct T; done. }
  unfold Copy, CopyWithKey. rewrite Hv, Hno.
  unfold getTypedManager, getOrCreateBusinessCopyInfo. rewrite HT, Htm, Hkey.
  unfold typed_getOrAnalyzeType, initializeCopyInfo.
  cbn [analysis trtype defaultManager].
  pose proof (getOrAnalyzeType_hit (defaultManager g) T (type_of src) Hsrc) as Hhit.
  destruct (getOrAnalyzeType (defaultManager g) T) as [a dm] eqn:Eg.
  cbn [fst snd defaultManager bIsOnlyValues analysisResult] in *.
  destruct (IsOnlyValues (deref (results dm) a)) eqn:Hi; [done|].
  unfold CopyValue. rewrite Hhit, Hi, Hno.
  rewrite copyRecursiveWithCache_eq.
  destruct (copyRecursive _ _ _ _ _) as [[cpy s]| |]; [|done|done].
  rewrite assert_type_any. by destruct (assert_any T (ValueOf cpy)).
Qed.

Lemma CopyWithKey_agrees_with_Copy_without_override_witness :
  same_copy
    (Copy Examples.no_methods 2 (TPtr (TBasic Int))
       (VPtr (TBasic Int) (Some 0)) [CVal (VBasic Int (DNum 42))] init_globals)
    (CopyWithKey Examples.no_methods 2 (TPtr (TBasic Int))
       (VPtr (TBasic Int) (Some 0)) "counter" [CVal (VBasic Int (DNum 42))]
       init_globals).
Proof.
  apply CopyWithKey_agrees_with_Copy_without_override; reflexivity.
Defined.

(** [User], first use. *)
Lemma typed_manager_analyses_once_witness :
  let r := typed_getOrAnalyzeType
             (getTypedManager Examples.User init_globals).1
             (getTypedManager Examples.User init_globals).2 in
  typed_getOrAnalyzeType (getTypedManager Examples.User r.2).1
    (getTypedManager Examples.User r.2).2 = (r.1, r.2).
Proof.
  exact (proj2 (typed_manager_analyses_once Examples.User init_globals eq_refl
                  ltac:(intros k tm H; discriminate H))).
Defined.

(* ===================================================================== *)
(** ** The layout of a copied slice *)
(* ===================================================================== *)

Lemma copy_slice_outside rec (Hrec : rec_extends rec) a' os :
  ∀ i s u s' cs,
    mem s !! a' = Some (CArr cs) →
    copy_slice rec a' i os s = Done (u, s') →
    ∃ cs', mem s' !! a' = Some (CArr cs') ∧ length cs' = length cs ∧
           ∀ j, (j < i ∨ i + length os ≤ j) → cs' !! j = cs !! j.
Proof.
  induction os as [|o os IH]; intros i s u s' cs Hc H; cbn [copy_slice] in H.
  - simp_run. eauto.
  - apply bind_Done in H as (r & [h1 vis1] & H0 & H).
    apply Hrec in H0 as (L & F & _). cbn [mem visited] in *.
    simp_run. cbn [mem visited] in *.
    assert (a' < length (mem s)) as Ha by (by eapply lookup_lt_Some).
    rewrite F, Hc in Hcell by done. injection Hcell as <-.
    eapply IH in H as (cs' & Hc' & Hl & Hj).
    2: { cbn [mem]. rewrite list_lookup_insert_eq by lia. done. }
    exists cs'. split; [done|]. rewrite length_insert in Hl. split; [done|].
    intros j Hor. rewrite Hj by (cbn in Hor; lia).
    rewrite list_lookup_insert_ne; [done|]. cbn in Hor. lia.
Qed.

(** The copy of a non-nil slice is a slice at offset 0 over a new backing
    array of [Cap] elements, whatever the offset of the source in its
    own array; the elements from [Len] on are zero values, not copies of
    what the source's array holds there. *)
Theorem slice_copy_layout
    (MethodByName : tkey → option Method) (fuel : nat) (e : rtype)
    (sh : SliceHeader) (s : cstate) (r : value) (s' : cstate) :
  copyRecursive MethodByName fuel (VSlice e (Some sh)) (zero (TSlice e)) s
    = Done (r, s') →
  r = VSlice e (Some (mkSlice (length (mem s)) 0 (Len sh) (Cap sh))) ∧
  ∃ cs, mem s' !! length (mem s) = Some (CArr cs) ∧ length cs = Cap sh ∧
        ∀ j, Len sh ≤ j → j < Cap sh → cs !! j = Some (zero e).
Proof.
  intros H. destruct fuel as [|fuel]; [done|]. cbn [copyRecursive] in H.
  destruct s as [h vis].
  simp_run. apply bind_Done in H as (? & s1 & H0 & H).
  destruct (decide _) as [Hlen|] in H0; [|done]. simp_run.
  apply bind_Done in H as (u & s2 & H0 & H). simp_run.
  cbn [mem visited] in *.
  cbn in E. rewrite decide_True in E by done. injection E as <-.
  split; [done|].
  eapply (copy_slice_outside _ (copyRecursive_extends MethodByName fuel)) in H0
    as (cs & Hc & Hl & Hj).
  2: { cbn [mem]. rewrite lookup_app_r, Nat.sub_diag by done. done. }
  exists cs. split; [done|]. rewrite length_replicate in Hl. split; [done|].
  intros j H1 H2. rewrite Hj.
  - by apply lookup_replicate_2.
  - right. rewrite length_take, length_drop. lia.
Qed.

(** A slice of two of the three elements of its array. *)
Lemma slice_copy_layout_witness :
  ∃ cs, [CArr [VBasic Int (DNum 1); VBasic Int (DNum 2); VBasic Int (DNum 3)];
         CArr [VBasic Int (DNum 2); VBasic Int (DNum 0)]] !! 1 = Some (CArr cs) ∧
        length cs = 2 ∧
        ∀ j, 1 ≤ j → j < 2 → cs !! j = Some (zero (TBasic Int)).
Proof.
  assert (copyRecursive Examples.no_methods 2
            (VSlice (TBasic Int) (Some (mkSlice 0 1 1 2)))
            (zero (TSlice (TBasic Int)))
            (mkState [CArr [VBasic Int (DNum 1); VBasic Int (DNum 2);
                            VBasic Int (DNum 3)]] ∅)
          = Done (VSlice (TBasic Int) (Some (mkSlice 1 0 1 2)),
                  mkState [CArr [VBasic Int (DNum 1); VBasic Int (DNum 2);
                                 VBasic Int (DNum 3)];
                           CArr [VBasic Int (DNum 2); VBasic Int (DNum 0)]] ∅))
    as Hrun by (vm_compute; reflexivity).
  exact (proj2 (slice_copy_layout _ _ _ _ _ _ _ Hrun)).
Defined.

(* ===================================================================== *)
(** ** The analysis entry points *)

(** [AnalyzeValue] of nil allocates a result of its own at every call:
    value-only, named ["nil"], cached nowhere, and different from the
    result of the call before, which stays as it was.  For a type the
    second call returns the pointer of the first and changes nothing.
    [AnalyzeType] is [AnalyzeValue] on the default manager and leaves
    the two other caches alone. *)
Theorem AnalyzeValue_results (m : DeepCopyManager) :
  (let r := AnalyzeValue m None in
   analysisCache r.2 = analysisCache m ∧
   grows (results m) (results r.2) ∧
   r.1 = length (results m) ∧
   deref (results r.2) r.1 = set_IsOnlyValues true (new_result "nil") ∧
   (AnalyzeValue r.2 None).1 ≠ r.1 ∧
   deref (results (AnalyzeValue r.2 None).2) r.1 = deref (results r.2) r.1) ∧
  (∀ t, AnalyzeValue (AnalyzeValue m (Some t)).2 (Some t)
        = AnalyzeValue m (Some t)) ∧
  (∀ src g,
     defaultManager g = m →
     (AnalyzeType src g).1 = (AnalyzeValue m (type_of <$> ValueOf src)).1 ∧
     defaultManager (AnalyzeType src g).2
     = (AnalyzeValue m (type_of <$> ValueOf src)).2 ∧
     businessCopyCache (AnalyzeType src g).2 = businessCopyCache g ∧
     typedManagers (AnalyzeType src g).2 = typedManagers g).
Proof.
  split_and!.
  - cbn [AnalyzeValue fst snd analysisCache results]. split_and!.
    + done.
    + apply grows_app.
    + done.
    + apply deref_app_new.
    + rewrite length_app. cbn. lia.
    + unfold deref. rewrite lookup_app_l; [done|]. rewrite length_app. cbn. lia.
  - intros t. cbn [AnalyzeValue].
    rewrite (getOrAnalyzeType_hit m t t eq_refl). by destruct (getOrAnalyzeType m t).
  - intros src g <-. unfold AnalyzeType.
    by destruct (AnalyzeValue (defaultManager g) (type_of <$> ValueOf src)).
Qed.
